(** * chatfamily: store consistency and realtime call signalling

    A shallow embedding of the chat backend's persistent store (the
    [store] module: users, direct chats, messages, read receipts,
    retention) and of its realtime layer ([index.js]: message fan-out,
    call registry, WebRTC relay), followed by the properties proved
    about them.

    Conventions of the embedding.
    - JavaScript values that reach the code from a client are [jsval]s.
      Numbers are integers; arrays and floating point values are outside
      the value universe.
    - Strings are sequences of one-byte characters; [trim] and
      [toLowerCase] act on the ASCII range.
    - The store re-reads and re-writes its JSON document on every call, so
      the persisted dataset is an explicit [data] value threaded through
      the operations.
    - [crypto.randomUUID()] and [new Date().toISOString()] are inputs of
      the operations that call them ([uuid], [now]).
    - [String.prototype.localeCompare] and the numeric reading of a string
      are supplied by the environment, see [JsEnv]. *)

From Stdlib Require Import ZArith String Ascii Sorted.
From stdpp Require Import strings list sets pretty gmap.

Open Scope string_scope.
Open Scope list_scope.
Open Scope Z_scope.

(** ** JavaScript values and built-ins *)

#[warnings="-register-all"]
Inductive jsval : Type :=
| JUndefined
| JNull
| JBool (b : bool)
| JNum (n : Z)
| JStr (s : string)
| JObj (fields : list (string * jsval)).

(** What the host supplies: the collation order used by [localeCompare]
    and [Number(s)] on a string ([None] when the result is not finite). *)
Class JsEnv := {
  localeCompare : string -> string -> Z;
  stringToNumber : string -> option Z
}.

(** Truthiness, as used by [||], [!], [Boolean()] and [if]. *)
Definition truthy (v : jsval) : bool :=
  match v with
  | JUndefined | JNull => false
  | JBool b => b
  | JNum n => negb (n =? 0)
  | JStr s => negb (bool_decide (s = ""))
  | JObj _ => true
  end.

(** [String(v)]. *)
Definition js_String (v : jsval) : string :=
  match v with
  | JUndefined => "undefined"
  | JNull => "null"
  | JBool true => "true"
  | JBool false => "false"
  | JNum n => pretty n
  | JStr s => s
  | JObj _ => "[object Object]"
  end.

(** [a || b]. *)
Definition js_or (a b : jsval) : jsval := if truthy a then a else b.

(** [s || t] on strings. *)
Definition str_or (s t : string) : string :=
  if bool_decide (s = "") then t else s.

(** [s || null] on strings. *)
Definition str_or_null (s : string) : option string :=
  if bool_decide (s = "") then None else Some s.

(** The value filed under [k]; an object lists each of its keys once. *)
Fixpoint assoc (k : string) (fields : list (string * jsval)) : jsval :=
  match fields with
  | [] => JUndefined
  | (k', v) :: rest => if bool_decide (k' = k) then v else assoc k rest
  end.

(** Property read [v.k] / [v?.k]; every read in the code is either
    optional or guarded, so a missing object yields [undefined]. *)
Definition js_get (v : jsval) (k : string) : jsval :=
  match v with
  | JObj fields => assoc k fields
  | _ => JUndefined
  end.

(** [typeof v === "object"]. *)
Definition is_object_type (v : jsval) : bool :=
  match v with
  | JNull | JObj _ => true
  | _ => false
  end.

Definition is_ws (a : ascii) : bool :=
  let n := nat_of_ascii a in
  ((9 <=? n)%nat && (n <=? 13)%nat) || (n =? 32)%nat.

Fixpoint trim_start (l : list ascii) : list ascii :=
  match l with
  | a :: l' => if is_ws a then trim_start l' else l
  | [] => []
  end.

(** [s.trim()]. *)
Definition trim (s : string) : string :=
  string_of_list_ascii
    (rev (trim_start (rev (trim_start (list_ascii_of_string s))))).

Definition lower_ascii (a : ascii) : ascii :=
  let n := nat_of_ascii a in
  if ((65 <=? n)%nat && (n <=? 90)%nat) then ascii_of_nat (n + 32) else a.

(** [s.toLowerCase()]. *)
Fixpoint toLowerCase (s : string) : string :=
  match s with
  | EmptyString => EmptyString
  | String a s' => String (lower_ascii a) (toLowerCase s')
  end.

(** [s.startsWith(p)]. *)
Definition startsWith (s p : string) : bool := String.prefix p s.

(** [list.includes(x)] on an array of strings. *)
Definition includes (l : list string) (x : string) : bool :=
  bool_decide (x ∈ l).

(** [Number(v)], [None] standing for a non-finite result. *)
Definition js_Number `{JsEnv} (v : jsval) : option Z :=
  match v with
  | JUndefined => None
  | JNull => Some 0
  | JBool true => Some 1
  | JBool false => Some 0
  | JNum n => Some n
  | JStr s => stringToNumber s
  | JObj _ => None
  end.

(** [Number.isFinite(Number(v)) ? Number(v) : null]. *)
Definition finite_or_null `{JsEnv} (v : jsval) : option Z := js_Number v.

(** [arr.slice(start)]: a negative [start] counts from the end. *)
Definition js_slice_from {A} (start : Z) (l : list A) : list A :=
  let len := Z.of_nat (length l) in
  let from := if start <? 0 then Z.max (len + start) 0 else Z.min start len in
  drop (Z.to_nat from) l.

(** [arr.sort(cmp)]: stable insertion by the sign of the comparator, which
    is the order ECMAScript prescribes for a consistent comparator. *)
Fixpoint sort_insert {A} (cmp : A -> A -> Z) (x : A) (l : list A) : list A :=
  match l with
  | [] => [x]
  | y :: l' => if 0 <? cmp x y then y :: sort_insert cmp x l' else x :: l
  end.

Definition js_sort {A} (cmp : A -> A -> Z) (l : list A) : list A :=
  foldr (sort_insert cmp) [] l.

(** ** The store ([store] module) *)

Record user := {
  u_id : string;
  u_name : string;
  u_login : option string;
  u_email : option string;
  u_passwordHash : option string;
  u_createdAt : string
}.

Record publicUser := {
  pu_id : string;
  pu_name : string;
  pu_login : string;
  pu_email : option string;
  pu_createdAt : string
}.

Record chat := {
  c_id : string;
  c_type : string;
  c_participantIds : list string;
  c_createdAt : string;
  c_updatedAt : string
}.

Record mediaObject := {
  md_url : string;
  md_fileName : option string;
  md_mimeType : option string;
  md_size : option Z;
  md_durationSec : option Z;
  md_width : option Z;
  md_height : option Z
}.

(** [m_readBy = None] stands for a stored message whose [readBy] is not
    an array, which the code tests for explicitly. *)
Record message := {
  m_id : string;
  m_chatId : string;
  m_senderId : string;
  m_senderName : string;
  m_kind : string;
  m_text : string;
  m_media : option mediaObject;
  m_createdAt : string;
  m_readBy : option (list string)
}.

Record data := {
  users : list user;
  chats : list chat;
  messages : list message
}.

(** The failures the code reports, one per message text. The first three
    are thrown by the store; [ChatNotFound] is also the 404 of
    [ensureChatAccess] and the error of [createCall]. In the taxonomy of
    the specification [ChatNotFound], [CallNotFound] are NotFound,
    [ChatForbidden], [CallForbidden] are Forbidden, [UserNotFound] is
    Unauthorized, [LoginTaken] and [SelfChat] are Conflict, and the rest
    are InvalidArgument. *)
Inductive failure :=
| LoginTaken
| SelfChat
| ChatNotFound
| ChatForbidden
| ChatIdMissing
| EmptyMessage
| CallNotFound
| CallForbidden
| UserNotFound
| FileMissing.

Definition failure_message (f : failure) : string :=
  match f with
  | LoginTaken => "Пользователь с таким именем уже существует"
  | SelfChat => "Нельзя создать чат с самим собой"
  | ChatNotFound => "Чат не найден"
  | ChatForbidden => "Нет доступа к этому чату"
  | ChatIdMissing => "Не передан chatId"
  | EmptyMessage => "Пустое сообщение"
  | CallNotFound => "Звонок не найден"
  | CallForbidden => "Нет доступа к звонку"
  | UserNotFound => "Пользователь не найден"
  | FileMissing => "Файл не передан"
  end.

Definition MAX_MESSAGES : Z := 3000.

Definition initialData : data := {| users := []; chats := []; messages := [] |}.

Definition opt_str (o : option string) : jsval :=
  match o with Some s => JStr s | None => JNull end.

Definition opt_num (o : option Z) : jsval :=
  match o with Some n => JNum n | None => JNull end.

(** A stored media object read back as a JavaScript value. *)
Definition media_value (m : mediaObject) : jsval :=
  JObj [("url", JStr (md_url m));
        ("fileName", opt_str (md_fileName m));
        ("mimeType", opt_str (md_mimeType m));
        ("size", opt_num (md_size m));
        ("durationSec", opt_num (md_durationSec m));
        ("width", opt_num (md_width m));
        ("height", opt_num (md_height m))].

Definition opt_media_value (o : option mediaObject) : jsval :=
  match o with Some m => media_value m | None => JNull end.

Definition toPublicUser (u : user) : publicUser :=
  {| pu_id := u_id u;
     pu_name := u_name u;
     pu_login := str_or (default "" (u_login u)) (u_name u);
     pu_email := u_email u;
     pu_createdAt := u_createdAt u |}.

Definition normalizeLogin (value : jsval) : string :=
  toLowerCase (trim (js_String (js_or value (JStr "")))).

Definition normalizeMedia `{JsEnv} (media : jsval) : option mediaObject :=
  if negb (truthy media) || negb (is_object_type media) then None
  else
    let url := trim (js_String (js_or (js_get media "url") (JStr ""))) in
    if bool_decide (url = "") then None
    else Some
      {| md_url := url;
         md_fileName :=
           str_or_null (trim (js_String (js_or (js_get media "fileName") (JStr ""))));
         md_mimeType :=
           str_or_null (trim (js_String (js_or (js_get media "mimeType") (JStr ""))));
         md_size := finite_or_null (js_get media "size");
         md_durationSec := finite_or_null (js_get media "durationSec");
         md_width := finite_or_null (js_get media "width");
         md_height := finite_or_null (js_get media "height") |}.

Definition MESSAGE_KINDS : list string :=
  ["text"; "image"; "video"; "audio"; "file"; "system"].

Definition normalizeKind (kind : jsval) (media : option mediaObject) : string :=
  let value := toLowerCase (trim (js_String (js_or kind (JStr "")))) in
  if includes MESSAGE_KINDS value then value
  else match media with Some _ => "file" | None => "text" end.

Definition normalizeMessage `{JsEnv} (m : message) : message :=
  let media := normalizeMedia (opt_media_value (m_media m)) in
  {| m_id := m_id m;
     m_chatId := m_chatId m;
     m_senderId := m_senderId m;
     m_senderName := m_senderName m;
     m_kind := normalizeKind (JStr (m_kind m)) media;
     m_text := js_String (js_or (JStr (m_text m)) (JStr ""));
     m_media := media;
     m_createdAt := m_createdAt m;
     m_readBy := Some (default [] (m_readBy m)) |}.

Definition set_updatedAt (t : string) (c : chat) : chat :=
  {| c_id := c_id c;
     c_type := c_type c;
     c_participantIds := c_participantIds c;
     c_createdAt := c_createdAt c;
     c_updatedAt := t |}.

(** [data.chats.find((c) => c.id === chatId)], with the position of the
    chat found, so that a later assignment to it can be written back. *)
Definition find_chat (chatId : string) (cs : list chat) : option (nat * chat) :=
  list_find (λ c, c_id c = chatId) cs.

(** The object literal built by [addMessage], after the parameter
    defaults [kind = "text"] and [media = null] have been applied. *)
Definition newMessage `{JsEnv} (uuid now : string)
    (chatId senderId senderName : string) (text kind media : jsval)
    : message :=
  let kind := match kind with JUndefined => JStr "text" | _ => kind end in
  let media := match media with JUndefined => JNull | _ => media end in
  let normalizedMedia := normalizeMedia media in
  {| m_id := uuid;
     m_chatId := chatId;
     m_senderId := senderId;
     m_senderName := senderName;
     m_kind := normalizeKind kind normalizedMedia;
     m_text := js_String (js_or text (JStr ""));
     m_media := normalizedMedia;
     m_createdAt := now;
     m_readBy := Some [senderId] |}.

(** [addMessage({ chatId, senderId, senderName, text, kind = "text",
    media = null })]. The result is the thrown error, or the returned
    message together with the dataset written back. *)
Definition addMessage `{JsEnv} (uuid now : string)
    (chatId senderId senderName : string) (text kind media : jsval)
    (d : data) : failure + (message * data) :=
  let msg := newMessage uuid now chatId senderId senderName text kind media in
  match find_chat chatId (chats d) with
  | None => inl ChatNotFound
  | Some (i, c) =>
      let pushed := messages d ++ [msg] in
      let chats' := <[i := set_updatedAt (m_createdAt msg) c]> (chats d) in
      let kept :=
        if Z.of_nat (length pushed) >? MAX_MESSAGES
        then js_slice_from (- MAX_MESSAGES) pushed
        else pushed in
      inr (normalizeMessage msg,
           {| users := users d; chats := chats'; messages := kept |})
  end.

(** [arr.find(p) || null] for an array of objects. *)
Definition js_find {A} (p : A -> bool) (l : list A) : option A :=
  List.find p l.

(** [a === b] on strings. *)
Definition str_eq (a b : string) : bool := bool_decide (a = b).

(** [ids[i] === pair[i]], an index past the end reading [undefined]. *)
Definition elem_eq (l1 l2 : list string) (i : nat) : bool :=
  bool_decide (l1 !! i = l2 !! i).

Definition normalizePair `{JsEnv} (userA userB : string) : list string :=
  js_sort (λ a b, localeCompare a b) [userA; userB].

(** The callback of the [find] in [findDirectChat]. *)
Definition matches_pair `{JsEnv} (pair : list string) (c : chat) : bool :=
  if negb (str_eq (c_type c) "direct") then false
  else if negb (bool_decide (length (c_participantIds c) = 2%nat)) then false
  else
    let ids := js_sort (λ a b, localeCompare a b) (c_participantIds c) in
    elem_eq ids pair 0 && elem_eq ids pair 1.

Definition findDirectChat `{JsEnv} (d : data) (userA userB : string)
    : option chat :=
  let pair := normalizePair userA userB in
  js_find (matches_pair pair) (chats d).

(** [createOrGetDirectChat(userA, userB)]; [now1] and [now2] are the two
    clock readings taken for [createdAt] and [updatedAt]. The sorted pair
    always has two elements, so the last branch of the destructuring is
    never taken. *)
Definition createOrGetDirectChat `{JsEnv} (uuid now1 now2 : string)
    (userA userB : string) (d : data) : failure + (chat * data) :=
  match normalizePair userA userB with
  | firstId :: secondId :: _ =>
      if str_eq firstId secondId then inl SelfChat
      else
        match findDirectChat d firstId secondId with
        | Some existing => inr (existing, d)
        | None =>
            let c :=
              {| c_id := uuid;
                 c_type := "direct";
                 c_participantIds := [firstId; secondId];
                 c_createdAt := now1;
                 c_updatedAt := now2 |} in
            inr (c, {| users := users d;
                       chats := chats d ++ [c];
                       messages := messages d |})
        end
  | _ => inl SelfChat
  end.

(** [u.login || u.name] on a stored user. *)
Definition login_or_name (u : user) : string :=
  str_or (default "" (u_login u)) (u_name u).

Definition getUserByName (name : jsval) (d : data) : option user :=
  let normalized := normalizeLogin name in
  js_find (λ u, str_eq (normalizeLogin (JStr (login_or_name u))) normalized)
          (users d).

Definition getUserById (userId : string) (d : data) : option user :=
  js_find (λ u, str_eq (u_id u) userId) (users d).

(** [createUser({ name, login, email = null, passwordHash = null })]. *)
Definition createUser (uuid now : string) (name login email : jsval)
    (passwordHash : option string) (d : data)
    : failure + (publicUser * data) :=
  let normalizedLogin := normalizeLogin (js_or login name) in
  let normalizedName := trim (js_String (js_or name (JStr ""))) in
  let normalizedEmail :=
    str_or_null (toLowerCase (trim (js_String (js_or email (JStr ""))))) in
  match js_find
          (λ u, str_eq (normalizeLogin (JStr (login_or_name u))) normalizedLogin)
          (users d) with
  | Some _ => inl LoginTaken
  | None =>
      let u :=
        {| u_id := uuid;
           u_name := normalizedName;
           u_login := Some normalizedLogin;
           u_email := normalizedEmail;
           u_passwordHash := passwordHash;
           u_createdAt := now |} in
      inr (toPublicUser u,
           {| users := users d ++ [u];
              chats := chats d;
              messages := messages d |})
  end.

Definition getChatById (chatId : string) (d : data) : option chat :=
  js_find (λ c, str_eq (c_id c) chatId) (chats d).

Definition listUserChatIds (userId : string) (d : data) : list string :=
  map c_id (List.filter (λ c, includes (c_participantIds c) userId) (chats d)).

(** [isUserInChat(chat, userId)], [None] being a missing chat. *)
Definition isUserInChat (c : option chat) (userId : string) : bool :=
  match c with
  | Some c => includes (c_participantIds c) userId
  | None => false
  end.

(** [listMessagesForChat(chatId, limit = 200)]; [None] is an omitted
    limit. *)
Definition listMessagesForChat `{JsEnv} (chatId : string) (limit : option Z)
    (d : data) : list message :=
  let limit := default 200 limit in
  map normalizeMessage
    (js_slice_from (- Z.max 1 limit)
       (List.filter (λ m, str_eq (m_chatId m) chatId) (messages d))).

Definition set_readBy (r : list string) (m : message) : message :=
  {| m_id := m_id m;
     m_chatId := m_chatId m;
     m_senderId := m_senderId m;
     m_senderName := m_senderName m;
     m_kind := m_kind m;
     m_text := m_text m;
     m_media := m_media m;
     m_createdAt := m_createdAt m;
     m_readBy := Some r |}.

(** One iteration of the loop of [markChatAsRead]: the message after the
    iteration and whether the iteration set [changed]. *)
Definition mark_message (chatId userId : string) (m : message)
    : message * bool :=
  if negb (str_eq (m_chatId m) chatId) then (m, false)
  else
    let missing := match m_readBy m with None => true | Some _ => false end in
    let m1 := if missing then set_readBy [] m else m in
    let readBy := default [] (m_readBy m1) in
    if negb (includes readBy userId)
    then (set_readBy (readBy ++ [userId]) m1, true)
    else (m1, missing).

(** [markChatAsRead(chatId, userId)]: the dataset is written back only
    when some iteration changed a message. *)
Definition markChatAsRead (chatId userId : string) (d : data) : data :=
  let marked := map (mark_message chatId userId) (messages d) in
  if existsb snd marked
  then {| users := users d; chats := chats d; messages := map fst marked |}
  else d.

(** The callback of the [filter] in [computeUnreadForChat]. *)
Definition is_unread (chatId userId : string) (m : message) : bool :=
  if negb (str_eq (m_chatId m) chatId) then false
  else if str_eq (m_senderId m) userId then false
  else match m_readBy m with
       | None => true
       | Some r => negb (includes r userId)
       end.

Definition computeUnreadForChat (d : data) (chatId userId : string) : nat :=
  length (List.filter (is_unread chatId userId) (messages d)).

Definition buildLastMessagePreview `{JsEnv} (m : message) : string :=
  let normalized := normalizeMessage m in
  if str_eq (m_kind normalized) "text" then str_or (m_text normalized) "Сообщение"
  else if str_eq (m_kind normalized) "image" then "Фото"
  else if str_eq (m_kind normalized) "video" then "Видео"
  else if str_eq (m_kind normalized) "audio" then "Голосовое сообщение"
  else if str_eq (m_kind normalized) "file" then
    match m_media normalized ≫= md_fileName with
    | Some f => "Файл: " +:+ f
    | None => "Файл"
    end
  else "Служебное сообщение".

Record lastMessageSummary := {
  lm_id : string;
  lm_senderId : string;
  lm_senderName : string;
  lm_kind : string;
  lm_text : string;
  lm_media : option mediaObject;
  lm_preview : string;
  lm_createdAt : string
}.

Record chatSummary := {
  cs_id : string;
  cs_type : string;
  cs_participantIds : list string;
  cs_contact : option publicUser;
  cs_updatedAt : string;
  cs_lastMessage : option lastMessageSummary;
  cs_unreadCount : nat
}.

Definition summarize `{JsEnv} (d : data) (userId : string) (c : chat)
    : chatSummary :=
  let otherUserId :=
    js_find (λ id, negb (str_eq id userId)) (c_participantIds c)
      ≫= str_or_null in
  let otherUser :=
    otherUserId ≫= λ oid, js_find (λ u, str_eq (u_id u) oid) (users d) in
  let msgs := List.filter (λ m, str_eq (m_chatId m) (c_id c)) (messages d) in
  let lastMessage := normalizeMessage <$> last msgs in
  {| cs_id := c_id c;
     cs_type := c_type c;
     cs_participantIds := c_participantIds c;
     cs_contact := toPublicUser <$> otherUser;
     cs_updatedAt :=
       str_or (from_option m_createdAt "" lastMessage)
              (str_or (c_updatedAt c) (c_createdAt c));
     cs_lastMessage :=
       (λ lm, {| lm_id := m_id lm;
                 lm_senderId := m_senderId lm;
                 lm_senderName := m_senderName lm;
                 lm_kind := m_kind lm;
                 lm_text := m_text lm;
                 lm_media := m_media lm;
                 lm_preview := buildLastMessagePreview lm;
                 lm_createdAt := m_createdAt lm |}) <$> lastMessage;
     cs_unreadCount := computeUnreadForChat d (c_id c) userId |}.

Definition listChatsForUser `{JsEnv} (userId : string) (d : data)
    : list chatSummary :=
  js_sort (λ a b, localeCompare (cs_updatedAt b) (cs_updatedAt a))
    (map (summarize d userId)
       (List.filter (λ c, isUserInChat (Some c) userId) (chats d))).

Definition getChatParticipants (chatId : string) (d : data)
    : list publicUser :=
  match js_find (λ c, str_eq (c_id c) chatId) (chats d) with
  | None => []
  | Some c =>
      map toPublicUser
        (List.filter (λ u, includes (c_participantIds c) (u_id u)) (users d))
  end.

(** ** The realtime layer ([index.js]) *)

Definition sanitizeText (value : jsval) : string :=
  let text := trim (js_String (js_or value (JStr ""))) in
  String.substring 0 2000 text.

Definition inferKindFromMime (mimeType : jsval) : string :=
  let mime := toLowerCase (js_String (js_or mimeType (JStr ""))) in
  if startsWith mime "image/" then "image"
  else if startsWith mime "video/" then "video"
  else if startsWith mime "audio/" then "audio"
  else "file".

Definition UPLOAD_KINDS : list string :=
  ["text"; "image"; "video"; "audio"; "file"].

Definition normalizeMessageKind (kind fallbackMime : jsval) : string :=
  let value := toLowerCase (trim (js_String (js_or kind (JStr "")))) in
  if includes UPLOAD_KINDS value then value
  else inferKindFromMime fallbackMime.

Definition parseOptionalNumber `{JsEnv} (value : jsval) : option Z :=
  js_Number value.

Definition buildWebCallUrl (callId kind : string) : string :=
  let base := "https://meet.jit.si/chat-together-" +:+ callId in
  if str_eq kind "audio"
  then base +:+ "#config.startWithVideoMuted=true&config.disableFilmstrip=true"
  else base.

Inductive callStatus := Ringing | Active.

Record call := {
  call_id : string;
  call_chatId : string;
  call_kind : string;
  call_callerId : string;
  call_callerName : string;
  call_participantIds : list string;
  call_roomUrl : string;
  call_status : callStatus;
  call_createdAt : string
}.

(** The identity attached to a socket ([socket.data.user]). *)
Record sessionUser := {
  su_id : string;
  su_name : string;
  su_login : string;
  su_email : option string
}.

(** Server-to-client notifications, one constructor per event name. *)
Inductive notification :=
| new_message (m : message)
| chat_updated (chatId : string)
| incoming_call (callId chatId fromUserId fromUserName kind roomUrl
                 createdAt : string)
| call_answered (callId chatId : string) (accepted : bool)
                (answeredByUserId answeredByName : string)
                (roomUrl kind : option string)
| call_ended (callId chatId reason : string) (endedByUserId : option string)
| webrtc_offer (callId fromUserId : string) (sdp : jsval)
| webrtc_answer (callId fromUserId : string) (sdp : jsval)
| webrtc_ice_candidate (callId fromUserId : string) (candidate : jsval).

(** What a handler does to the outside: [io.to(room).emit(...)],
    [socket.join(room)] and [fs.rmSync(path)]. *)
Inductive effect :=
| Emit (room : string) (n : notification)
| Join (room : string)
| RemoveFile (path : string).

(** The acknowledgment passed to [ack]. *)
Inductive reply :=
| AckOk
| AckMessage (messageId : string)
| AckCall (c : call)
| AckError (f : failure).

(** [activeCalls] is a JavaScript [Map]: keyed by call id and iterated in
    insertion order, hence an association list. *)
Definition callMap := list (string * call).

Definition map_get (k : string) (m : callMap) : option call :=
  snd <$> List.find (λ kv, str_eq (fst kv) k) m.

Fixpoint map_set (k : string) (v : call) (m : callMap) : callMap :=
  match m with
  | [] => [(k, v)]
  | (k', v') :: m' =>
      if str_eq k' k then (k, v) :: m' else (k', v') :: map_set k v m'
  end.

Definition map_delete (k : string) (m : callMap) : callMap :=
  List.filter (λ kv, negb (str_eq (fst kv) k)) m.

Definition map_values (m : callMap) : list call := map snd m.

(** The server: the persisted dataset, the call registry and the effects
    performed so far, oldest first. *)
Record world := {
  store : data;
  activeCalls : callMap;
  effects : list effect
}.

(** Handlers run in a state monad over [world]. *)
Definition M (A : Type) : Type := world -> A * world.

#[global] Instance M_ret : MRet M := λ A a w, (a, w).

#[global] Instance M_bind : MBind M :=
  λ A B k m w, k (fst (m w)) (snd (m w)).

Definition perform (e : effect) : M unit :=
  λ w, (tt, {| store := store w;
               activeCalls := activeCalls w;
               effects := effects w ++ [e] |}).

Definition getStore : M data := λ w, (store w, w).

Definition putStore (d : data) : M unit :=
  λ w, (tt, {| store := d;
               activeCalls := activeCalls w;
               effects := effects w |}).

Definition getCalls : M callMap := λ w, (activeCalls w, w).

Definition putCalls (m : callMap) : M unit :=
  λ w, (tt, {| store := store w;
               activeCalls := m;
               effects := effects w |}).

(** [for (const x of l) body(x)]. *)
Fixpoint for_each {A} (l : list A) (body : A -> M unit) : M unit :=
  match l with
  | [] => mret tt
  | x :: l' => body x ;; for_each l' body
  end.

Definition user_room (userId : string) : string := "user:" +:+ userId.
Definition chat_room (chatId : string) : string := "chat:" +:+ chatId.

Definition emitChatUpdated (chatId : string) : M unit :=
  d ← getStore;
  for_each (getChatParticipants chatId d)
    (λ participant, perform (Emit (user_room (pu_id participant))
                                  (chat_updated chatId))).

Definition emitNewMessage (chatId : string) (m : message) : M unit :=
  d ← getStore;
  for_each (getChatParticipants chatId d)
    (λ participant, perform (Emit (user_room (pu_id participant))
                                  (new_message m))) ;;
  emitChatUpdated chatId.

(** [sendMessageAndBroadcast]; a throw of [addMessage] propagates before
    anything is emitted. *)
Definition sendMessageAndBroadcast `{JsEnv} (uuid now : string)
    (chatId senderId senderName : string) (kind text media : jsval)
    : M (failure + message) :=
  d ← getStore;
  match addMessage uuid now chatId senderId senderName text kind media d with
  | inl e => mret (inl e)
  | inr (m, d') =>
      putStore d' ;;
      emitNewMessage chatId m ;;
      mret (inr m)
  end.

(** [ensureChatAccess]: the HTTP status and failure, or the chat. *)
Definition ensureChatAccess (chatId userId : string) (d : data)
    : (Z * failure) + chat :=
  match getChatById chatId d with
  | None => inl (404, ChatNotFound)
  | Some c =>
      if negb (isUserInChat (Some c) userId) then inl (403, ChatForbidden)
      else inr c
  end.

Definition emitCallEvent (c : call) (n : notification) : M unit :=
  for_each (call_participantIds c)
    (λ userId, perform (Emit (user_room userId) n)).

Definition createCall (uuid now : string) (chatId : string)
    (caller : sessionUser) (kind : string) : M (failure + call) :=
  d ← getStore;
  match getChatById chatId d with
  | None => mret (inl ChatNotFound)
  | Some c =>
      let participantIds := c_participantIds c in
      let callId := uuid in
      let cl :=
        {| call_id := callId;
           call_chatId := chatId;
           call_kind := if str_eq kind "video" then "video" else "audio";
           call_callerId := su_id caller;
           call_callerName := su_name caller;
           call_participantIds := participantIds;
           call_roomUrl := buildWebCallUrl callId kind;
           call_status := Ringing;
           call_createdAt := now |} in
      calls ← getCalls;
      putCalls (map_set callId cl calls) ;;
      mret (inr cl)
  end.

Definition getCallById (callId : string) : M (option call) :=
  calls ← getCalls;
  mret (map_get callId calls).

(** [endCall(callId, reason, endedByUserId = null)]. *)
Definition endCall (callId : string) (reason : string)
    (endedByUserId : option string) : M (option call) :=
  found ← getCallById callId;
  match found with
  | None => mret None
  | Some c =>
      calls ← getCalls;
      putCalls (map_delete callId calls) ;;
      emitCallEvent c
        (call_ended (call_id c) (call_chatId c) (str_or reason "ended")
                    endedByUserId) ;;
      mret (Some c)
  end.

(** [String(payload?.field || "").trim()]. *)
Definition trimmed_field (payload : jsval) (field : string) : string :=
  trim (js_String (js_or (js_get payload field) (JStr ""))).

(** [socket.on("send_message", (payload, ack) => ...)]; the result is the
    value handed to [ack]. *)
Definition on_send_message `{JsEnv} (uuid now : string) (user : sessionUser)
    (payload : jsval) : M reply :=
  let chatId := trimmed_field payload "chatId" in
  let kind :=
    normalizeMessageKind (js_get payload "kind")
                         (js_get (js_get payload "media") "mimeType") in
  let text := sanitizeText (js_or (js_get payload "text") (JStr "")) in
  let media :=
    if truthy (js_get payload "media") && is_object_type (js_get payload "media")
    then js_get payload "media" else JNull in
  if str_eq chatId "" then mret (AckError ChatIdMissing)
  else if str_eq kind "text" && str_eq text "" then mret (AckError EmptyMessage)
  else
    d ← getStore;
    match ensureChatAccess chatId (su_id user) d with
    | inl (_, f) => mret (AckError f)
    | inr c =>
        r ← sendMessageAndBroadcast uuid now (c_id c) (su_id user)
              (su_name user) (JStr kind) (JStr text) media;
        match r with
        | inr m => mret (AckMessage (m_id m))
        | inl f => mret (AckError f)
        end
    end.

Definition on_open_chat (user : sessionUser) (payload : jsval) : M reply :=
  let chatId := trimmed_field payload "chatId" in
  if str_eq chatId "" then mret (AckError ChatIdMissing)
  else
    d ← getStore;
    match ensureChatAccess chatId (su_id user) d with
    | inl (_, f) => mret (AckError f)
    | inr _ =>
        perform (Join (chat_room chatId)) ;;
        putStore (markChatAsRead chatId (su_id user) d) ;;
        emitChatUpdated chatId ;;
        mret AckOk
    end.

Definition on_call_invite (uuid now : string) (user : sessionUser)
    (payload : jsval) : M reply :=
  let chatId := trimmed_field payload "chatId" in
  let kind :=
    if str_eq (toLowerCase (js_String (js_or (js_get payload "kind")
                                             (JStr "audio")))) "video"
    then "video" else "audio" in
  if str_eq chatId "" then mret (AckError ChatIdMissing)
  else
    d ← getStore;
    match ensureChatAccess chatId (su_id user) d with
    | inl (_, f) => mret (AckError f)
    | inr _ =>
        r ← createCall uuid now chatId user kind;
        match r with
        | inl f => mret (AckError f)
        | inr c =>
            emitCallEvent c
              (incoming_call (call_id c) (call_chatId c) (su_id user)
                             (su_name user) (call_kind c) (call_roomUrl c)
                             (call_createdAt c)) ;;
            mret (AckCall c)
        end
    end.

Definition set_status (s : callStatus) (c : call) : call :=
  {| call_id := call_id c;
     call_chatId := call_chatId c;
     call_kind := call_kind c;
     call_callerId := call_callerId c;
     call_callerName := call_callerName c;
     call_participantIds := call_participantIds c;
     call_roomUrl := call_roomUrl c;
     call_status := s;
     call_createdAt := call_createdAt c |}.

(** [socket.on("call_answer", ...)]. The call found is an object held by
    the registry, so the assignment to its [status] is an update of the
    registry entry it was read from. *)
Definition on_call_answer (user : sessionUser) (payload : jsval) : M reply :=
  let callId := trimmed_field payload "callId" in
  let accepted := truthy (js_get payload "accepted") in
  found ← getCallById callId;
  match found with
  | None => mret (AckError CallNotFound)
  | Some c =>
      if negb (includes (call_participantIds c) (su_id user))
      then mret (AckError CallForbidden)
      else if negb accepted then
        emitCallEvent c
          (call_answered (call_id c) (call_chatId c) false (su_id user)
                         (su_name user) None None) ;;
        calls ← getCalls;
        putCalls (map_delete (call_id c) calls) ;;
        mret AckOk
      else
        let c := set_status Active c in
        calls ← getCalls;
        putCalls (map_set callId c calls) ;;
        emitCallEvent c
          (call_answered (call_id c) (call_chatId c) true (su_id user)
                         (su_name user) (Some (call_roomUrl c))
                         (Some (call_kind c))) ;;
        mret AckOk
  end.

Definition on_call_end (user : sessionUser) (payload : jsval) : M reply :=
  let callId := trimmed_field payload "callId" in
  found ← getCallById callId;
  match found with
  | None => mret (AckError CallNotFound)
  | Some c =>
      if negb (includes (call_participantIds c) (su_id user))
      then mret (AckError CallForbidden)
      else
        endCall callId "ended" (Some (su_id user)) ;;
        mret AckOk
  end.

(** The three relay handlers differ only in the event they forward and in
    the payload field they carry. *)
Definition relay (event : string -> string -> jsval -> notification)
    (field : string) (user : sessionUser) (payload : jsval) : M reply :=
  let callId := trimmed_field payload "callId" in
  let toUserId := trimmed_field payload "toUserId" in
  found ← getCallById callId;
  match found with
  | None => mret (AckError CallNotFound)
  | Some c =>
      if negb (includes (call_participantIds c) (su_id user))
         || negb (includes (call_participantIds c) toUserId)
      then mret (AckError CallForbidden)
      else
        perform (Emit (user_room toUserId)
                      (event callId (su_id user) (js_get payload field))) ;;
        mret AckOk
  end.

Definition on_webrtc_offer : sessionUser -> jsval -> M reply :=
  relay webrtc_offer "sdp".

Definition on_webrtc_answer : sessionUser -> jsval -> M reply :=
  relay webrtc_answer "sdp".

Definition on_webrtc_ice_candidate : sessionUser -> jsval -> M reply :=
  relay webrtc_ice_candidate "candidate".

Definition on_disconnect (user : sessionUser) : M unit :=
  calls ← getCalls;
  for_each
    (List.filter (λ c, includes (call_participantIds c) (su_id user))
                 (map_values calls))
    (λ c,
       match call_status c with
       | Ringing => endCall (call_id c) "missed" (Some (su_id user)) ;; mret tt
       | Active => endCall (call_id c) "ended" (Some (su_id user)) ;; mret tt
       end).

(** *** HTTP entry points

    The handlers run behind [authMiddleware]; [userId] is
    [req.auth.userId]. *)

Inductive body :=
| ErrorBody (f : failure)
| OkBody
| MessagesBody (l : list message)
| MessageBody (m : message)
| ChatsBody (l : list chatSummary).

Record response := {
  resp_status : Z;
  resp_body : body
}.

(** [req.file] as left by the upload middleware. *)
Record uploadedFile := {
  f_path : string;
  f_filename : string;
  f_originalname : string;
  f_mimetype : string;
  f_size : Z
}.

(** [GET /api/chats]. *)
Definition get_chats `{JsEnv} (userId : string) (d : data) : response :=
  match getUserById userId d with
  | None => {| resp_status := 401; resp_body := ErrorBody UserNotFound |}
  | Some user =>
      {| resp_status := 200;
         resp_body := ChatsBody (listChatsForUser (u_id user) d) |}
  end.

(** [GET /api/chats/:chatId/messages]. *)
Definition get_chat_messages `{JsEnv} (userId chatId : string) (d : data)
    : response :=
  match getUserById userId d with
  | None => {| resp_status := 401; resp_body := ErrorBody UserNotFound |}
  | Some user =>
      match ensureChatAccess chatId (u_id user) d with
      | inl (st, f) => {| resp_status := st; resp_body := ErrorBody f |}
      | inr c =>
          {| resp_status := 200;
             resp_body := MessagesBody (listMessagesForChat (c_id c) (Some 300) d) |}
      end
  end.

(** [POST /api/chats/:chatId/read]. *)
Definition post_chat_read (userId chatId : string) : M response :=
  d ← getStore;
  match getUserById userId d with
  | None => mret {| resp_status := 401; resp_body := ErrorBody UserNotFound |}
  | Some user =>
      match ensureChatAccess chatId (u_id user) d with
      | inl (st, f) => mret {| resp_status := st; resp_body := ErrorBody f |}
      | inr c =>
          putStore (markChatAsRead (c_id c) (u_id user) d) ;;
          emitChatUpdated (c_id c) ;;
          mret {| resp_status := 200; resp_body := OkBody |}
      end
  end.

(** [if (req.file?.path) fs.rmSync(req.file.path, { force: true })]. *)
Definition remove_upload (file : option uploadedFile) : M unit :=
  match file with
  | Some f =>
      if str_eq (f_path f) "" then mret tt else perform (RemoveFile (f_path f))
  | None => mret tt
  end.

(** [POST /api/chats/:chatId/upload]; [form] is [req.body]. *)
Definition post_chat_upload `{JsEnv} (uuid now : string)
    (userId chatId : string) (file : option uploadedFile) (form : jsval)
    : M response :=
  d ← getStore;
  match getUserById userId d with
  | None => mret {| resp_status := 401; resp_body := ErrorBody UserNotFound |}
  | Some user =>
      match ensureChatAccess chatId (u_id user) d with
      | inl (st, f) =>
          remove_upload file ;;
          mret {| resp_status := st; resp_body := ErrorBody f |}
      | inr c =>
          match file with
          | None =>
              mret {| resp_status := 400; resp_body := ErrorBody FileMissing |}
          | Some f =>
              let text := sanitizeText (js_or (js_get form "caption") (JStr "")) in
              let kind :=
                normalizeMessageKind (js_get form "kind") (JStr (f_mimetype f)) in
              let media :=
                JObj [("url", JStr ("/uploads/" +:+ f_filename f));
                      ("fileName",
                       JStr (str_or (f_originalname f) (f_filename f)));
                      ("mimeType", JStr (f_mimetype f));
                      ("size", JNum (f_size f));
                      ("durationSec",
                       opt_num (parseOptionalNumber (js_get form "durationSec")));
                      ("width",
                       opt_num (parseOptionalNumber (js_get form "width")));
                      ("height",
                       opt_num (parseOptionalNumber (js_get form "height")))] in
              r ← sendMessageAndBroadcast uuid now (c_id c) (u_id user)
                    (u_name user) (JStr kind) (JStr text) media;
              match r with
              | inr m =>
                  mret {| resp_status := 201; resp_body := MessageBody m |}
              | inl e =>
                  remove_upload file ;;
                  mret {| resp_status := 400; resp_body := ErrorBody e |}
              end
          end
      end
  end.

(** *** Runs of the server *)

Inductive command :=
| SendMessage (uuid now : string) (user : sessionUser) (payload : jsval)
| OpenChat (user : sessionUser) (payload : jsval)
| CallInvite (uuid now : string) (user : sessionUser) (payload : jsval)
| CallAnswer (user : sessionUser) (payload : jsval)
| CallEnd (user : sessionUser) (payload : jsval)
| WebrtcOffer (user : sessionUser) (payload : jsval)
| WebrtcAnswer (user : sessionUser) (payload : jsval)
| WebrtcIceCandidate (user : sessionUser) (payload : jsval)
| Disconnect (user : sessionUser)
| MarkRead (userId chatId : string)
| Upload (uuid now : string) (userId chatId : string)
         (file : option uploadedFile) (form : jsval).

Definition exec `{JsEnv} (c : command) (w : world) : world :=
  match c with
  | SendMessage uuid now user payload =>
      snd (on_send_message uuid now user payload w)
  | OpenChat user payload => snd (on_open_chat user payload w)
  | CallInvite uuid now user payload =>
      snd (on_call_invite uuid now user payload w)
  | CallAnswer user payload => snd (on_call_answer user payload w)
  | CallEnd user payload => snd (on_call_end user payload w)
  | WebrtcOffer user payload => snd (on_webrtc_offer user payload w)
  | WebrtcAnswer user payload => snd (on_webrtc_answer user payload w)
  | WebrtcIceCandidate user payload =>
      snd (on_webrtc_ice_candidate user payload w)
  | Disconnect user => snd (on_disconnect user w)
  | MarkRead userId chatId => snd (post_chat_read userId chatId w)
  | Upload uuid now userId chatId file form =>
      snd (post_chat_upload uuid now userId chatId file form w)
  end.

Definition exec_all `{JsEnv} (cs : list command) (w : world) : world :=
  foldl (λ w c, exec c w) w cs.

(** The call ids generated while running [cs]. *)
Definition invited_ids (cs : list command) : list string :=
  omap (λ c, match c with CallInvite uuid _ _ _ => Some uuid | _ => None end) cs.

Definition initialWorld : world :=
  {| store := initialData; activeCalls := []; effects := [] |}.

(** *** Runs of the store

    The store changes only through its four mutating operations. *)
Inductive store_step `{JsEnv} : data -> data -> Prop :=
| step_createUser uuid now name login email passwordHash d r d' :
    createUser uuid now name login email passwordHash d = inr (r, d') ->
    store_step d d'
| step_createOrGetDirectChat uuid now1 now2 userA userB d r d' :
    createOrGetDirectChat uuid now1 now2 userA userB d = inr (r, d') ->
    store_step d d'
| step_addMessage uuid now chatId senderId senderName text kind media d r d' :
    addMessage uuid now chatId senderId senderName text kind media d
      = inr (r, d') ->
    store_step d d'
| step_markChatAsRead chatId userId d :
    store_step d (markChatAsRead chatId userId d).

Inductive store_reachable `{JsEnv} : data -> Prop :=
| reach_initial : store_reachable initialData
| reach_step d d' :
    store_reachable d -> store_step d d' -> store_reachable d'.

(** ** Sample environment and data

    A concrete host, used to evaluate the code on explicit inputs:
    [localeCompare] by code units, [Number] reading unsigned decimal
    numerals. *)

Definition digit_value (a : ascii) : option Z :=
  let n := nat_of_ascii a in
  if ((48 <=? n)%nat && (n <=? 57)%nat) then Some (Z.of_nat (n - 48)) else None.

Fixpoint read_digits (acc : Z) (l : list ascii) : option Z :=
  match l with
  | [] => Some acc
  | a :: l' =>
      match digit_value a with
      | Some v => read_digits (10 * acc + v) l'
      | None => None
      end
  end.

Definition codeUnitEnv : JsEnv :=
  {| localeCompare := λ a b,
       match String.compare a b with Eq => 0 | Lt => -1 | Gt => 1 end;
     stringToNumber := λ s, read_digits 0 (list_ascii_of_string (trim s)) |}.

Definition ann : user :=
  {| u_id := "a1"; u_name := "ann"; u_login := Some "ann"; u_email := None;
     u_passwordHash := None; u_createdAt := "2024-01-01T00:00:00.000Z" |}.

Definition bob : user :=
  {| u_id := "b1"; u_name := "bob"; u_login := Some "bob"; u_email := None;
     u_passwordHash := None; u_createdAt := "2024-01-01T00:00:01.000Z" |}.

Definition chat_c1 : chat :=
  {| c_id := "c1"; c_type := "direct"; c_participantIds := ["a1"; "b1"];
     c_createdAt := "2024-01-02T00:00:00.000Z";
     c_updatedAt := "2024-01-02T00:00:00.000Z" |}.

Definition sampleData : data :=
  {| users := [ann; bob]; chats := [chat_c1]; messages := [] |}.

Definition sampleWorld : world :=
  {| store := sampleData; activeCalls := []; effects := [] |}.

Definition annSession : sessionUser :=
  {| su_id := "a1"; su_name := "ann"; su_login := "ann"; su_email := None |}.

Definition bobSession : sessionUser :=
  {| su_id := "b1"; su_name := "bob"; su_login := "bob"; su_email := None |}.

(** [{ chatId: "c1", text: "look", media: { url, mimeType: "image/png" } }],
    a [send_message] payload without a kind. *)
Definition photoPayload : jsval :=
  JObj [("chatId", JStr "c1");
        ("text", JStr "look");
        ("media", JObj [("url", JStr "/uploads/p.png");
                        ("mimeType", JStr "image/png")])].

(** [{ chatId: "c1", text: "hi" }], a [send_message] payload with neither
    a kind nor media. *)
Definition plainPayload : jsval :=
  JObj [("chatId", JStr "c1"); ("text", JStr "hi")].

(** ** Notions used in the statements *)

(** The string [normalizeKind] and [normalizeMessageKind] look up in
    their list of kinds. *)
Definition canonicalKind (kind : jsval) : string :=
  toLowerCase (trim (js_String (js_or kind (JStr "")))).

(** The default the store applies: [file] with media, [text] without. *)
Definition defaultKind (md : option mediaObject) : string :=
  match md with Some _ => "file" | None => "text" end.

(** [localeCompare] orders distinct ids strictly: of two distinct ids
    exactly one sorts after the other. This holds of the ids the code
    generates ([crypto.randomUUID()]). *)
Definition collation_strict `{JsEnv} : Prop :=
  ∀ a b : string, a ≠ b ->
    (0 <? localeCompare a b) = negb (0 <? localeCompare b a).

(** [c] is a direct chat between [a] and [b], in either order. *)
Definition direct_between (c : chat) (a b : string) : Prop :=
  c_type c = "direct"
  ∧ (c_participantIds c = [a; b] ∨ c_participantIds c = [b; a]).

(** At most one direct chat per unordered pair. *)
Definition unique_direct_chats (d : data) : Prop :=
  ∀ (i j : nat) c1 c2 a b,
    chats d !! i = Some c1 -> chats d !! j = Some c2 ->
    direct_between c1 a b -> direct_between c2 a b -> i = j.

(** The arguments of one [addMessage] call. *)
Record addRequest := {
  r_uuid : string;
  r_now : string;
  r_chatId : string;
  r_senderId : string;
  r_senderName : string;
  r_text : jsval;
  r_kind : jsval;
  r_media : jsval
}.

(** A sequence of [addMessage] calls: the dataset after the last call and
    the messages created on the way, oldest first. A call that throws
    leaves the dataset as it was. *)
Fixpoint add_all `{JsEnv} (rs : list addRequest) (d : data)
    : data * list message :=
  match rs with
  | [] => (d, [])
  | r :: rs' =>
      match addMessage (r_uuid r) (r_now r) (r_chatId r) (r_senderId r)
                       (r_senderName r) (r_text r) (r_kind r) (r_media r) d with
      | inl _ => add_all rs' d
      | inr (_, d') =>
          let '(d'', created) := add_all rs' d' in
          (d'',
           newMessage (r_uuid r) (r_now r) (r_chatId r) (r_senderId r)
                      (r_senderName r) (r_text r) (r_kind r) (r_media r)
             :: created)
      end
  end.

(** Two messages created by [addMessage], one in the sample chat and one
    addressed to a chat that does not exist. *)
Definition helloRequest : addRequest :=
  {| r_uuid := "m1"; r_now := "2024-01-03T00:00:00.000Z"; r_chatId := "c1";
     r_senderId := "a1"; r_senderName := "ann"; r_text := JStr "hi";
     r_kind := JStr "text"; r_media := JNull |}.

Definition strayRequest : addRequest :=
  {| r_uuid := "m2"; r_now := "2024-01-03T00:00:01.000Z"; r_chatId := "c404";
     r_senderId := "a1"; r_senderName := "ann"; r_text := JStr "anyone?";
     r_kind := JStr "text"; r_media := JNull |}.

(** The users recorded as having read [m]; a missing [readBy] records
    nobody. *)
Definition readBy_of (m : message) : list string := default [] (m_readBy m).

(** The unread count in the words of the specification: the messages of
    chat [chatId] authored by someone other than [userId] whose [readBy]
    does not contain [userId]. *)
Definition unread_spec (d : data) (chatId userId : string) : nat :=
  length
    (filter (λ m, m_chatId m = chatId
                  ∧ m_senderId m ≠ userId
                  ∧ userId ∉ readBy_of m)
            (messages d)).

(** [m'] is [m] with possibly more readers. *)
Definition grown (m m' : message) : Prop :=
  m_id m' = m_id m
  ∧ m_chatId m' = m_chatId m
  ∧ m_senderId m' = m_senderId m
  ∧ ∀ u, u ∈ readBy_of m -> u ∈ readBy_of m'.

(** From [d] to [d'] the [k] oldest messages were evicted and every other
    message of [d] is still there, in order, with its readers kept. *)
Definition survivors_grow (k : nat) (d d' : data) : Prop :=
  ∀ (i : nat) m, messages d !! (k + i)%nat = Some m ->
    ∃ m', messages d' !! i = Some m' ∧ grown m m'.

(** The sample dataset after ann has said hi in the sample chat. *)
Definition greetedData : data :=
  fst (@add_all codeUnitEnv [helloRequest] sampleData).

(** A run of store operations from the first dataset to the second, the
    number counting the messages [addMessage] created on the way. *)
Inductive store_steps `{JsEnv} : nat -> data -> data -> Prop :=
| steps_done d : store_steps 0 d d
| steps_createUser n d0 uuid now name login email passwordHash d r d' :
    store_steps n d0 d ->
    createUser uuid now name login email passwordHash d = inr (r, d') ->
    store_steps n d0 d'
| steps_createOrGetDirectChat n d0 uuid now1 now2 userA userB d r d' :
    store_steps n d0 d ->
    createOrGetDirectChat uuid now1 now2 userA userB d = inr (r, d') ->
    store_steps n d0 d'
| steps_addMessage n d0 uuid now chatId senderId senderName text kind media
    d r d' :
    store_steps n d0 d ->
    addMessage uuid now chatId senderId senderName text kind media d
      = inr (r, d') ->
    store_steps (S n) d0 d'
| steps_markChatAsRead n d0 chatId userId d :
    store_steps n d0 d ->
    store_steps n d0 (markChatAsRead chatId userId d).

(** A store at the cap: ann's first message followed by 2999 more of
    hers, all in the sample chat and read by nobody but her. *)
Definition fullData : data :=
  {| users := [ann; bob];
     chats := [chat_c1];
     messages :=
       @newMessage codeUnitEnv "m0" "2024-01-02T00:00:00.000Z" "c1" "a1" "ann"
         (JStr "first") (JStr "text") JNull
       :: replicate 2999
            (@newMessage codeUnitEnv "m1" "2024-01-03T00:00:00.000Z" "c1" "a1"
               "ann" (JStr "hi") (JStr "text") JNull) |}.

(** Bob opens the sample chat of the full store and answers. *)
Definition fullRun : failure + (message * data) :=
  @addMessage codeUnitEnv "m3000" "2024-01-04T00:00:00.000Z" "c1" "b1" "bob"
    (JStr "hello") (JStr "text") JNull (markChatAsRead "c1" "b1" fullData).

Definition fullAfter : data :=
  match fullRun with
  | inr (_, d') => d'
  | inl _ => fullData
  end.

(** Every entry of the registry is filed under the id of its call. *)
Definition calls_wf (m : callMap) : Prop :=
  Forall (λ kv, call_id (snd kv) = fst kv) m.

(** What the relay handlers have in common: on an existing call they
    refuse a sender or a recipient outside the call, and otherwise emit
    one notification, to the recipient's room only. *)
Definition relays (handler : sessionUser -> jsval -> M reply)
    (event : string -> string -> jsval -> notification) (field : string)
    : Prop :=
  ∀ user payload w c,
    let callId := trimmed_field payload "callId" in
    let toUserId := trimmed_field payload "toUserId" in
    map_get callId (activeCalls w) = Some c ->
    (su_id user ∉ call_participantIds c ∨ toUserId ∉ call_participantIds c ->
     handler user payload w = (AckError CallForbidden, w))
    ∧ (su_id user ∈ call_participantIds c ->
       toUserId ∈ call_participantIds c ->
       handler user payload w
       = (AckOk,
          {| store := store w;
             activeCalls := activeCalls w;
             effects := effects w
               ++ [Emit (user_room toUserId)
                        (event callId (su_id user) (js_get payload field))] |})).

(** The [call_answered] notification sent when [user] answers [c]. *)
Definition answered (c : call) (user : sessionUser) (accepted : bool)
    : notification :=
  call_answered (call_id c) (call_chatId c) accepted (su_id user) (su_name user)
    (if accepted then Some (call_roomUrl c) else None)
    (if accepted then Some (call_kind c) else None).

(** The sample world after ann has invited bob to an audio call. *)
Definition invitePayload : jsval :=
  JObj [("chatId", JStr "c1"); ("kind", JStr "audio")].

Definition ringingWorld : world :=
  snd (on_call_invite "k1" "2024-01-04T00:00:00.000Z" annSession
         invitePayload sampleWorld).

Definition offerPayload : jsval :=
  JObj [("callId", JStr "k1"); ("toUserId", JStr "b1");
        ("sdp", JStr "v=0")].

Definition declinePayload : jsval :=
  JObj [("callId", JStr "k1"); ("accepted", JBool false)].

Definition acceptPayload : jsval :=
  JObj [("callId", JStr "k1"); ("accepted", JBool true)].

(** The sample world once bob has accepted the call. *)
Definition activeWorld : world :=
  snd (on_call_answer bobSession acceptPayload ringingWorld).

(** ** More of the store, and notions for the further properties *)

(** [s.includes(q)] on strings. *)
Fixpoint str_includes (s q : string) : bool :=
  String.prefix q s
  || match s with
     | EmptyString => false
     | String _ s' => str_includes s' q
     end.

Definition getUserByEmail (email : jsval) (d : data) : option user :=
  let normalizedEmail := toLowerCase (trim (js_String (js_or email (JStr "")))) in
  js_find (λ u, str_eq (toLowerCase (default "" (u_email u))) normalizedEmail)
          (users d).

(** The callback of the second [filter] in [searchUsers]. *)
Definition matches_query (q : string) (u : user) : bool :=
  let normalizedName := toLowerCase (u_name u) in
  let normalizedLogin := normalizeLogin (JStr (login_or_name u)) in
  let normalizedEmail := toLowerCase (default "" (u_email u)) in
  str_includes normalizedName q
  || str_includes normalizedLogin q
  || str_includes normalizedEmail q.

Definition searchUsers (query : jsval) (excludeUserId : string) (d : data)
    : list publicUser :=
  let q := toLowerCase (trim (js_String (js_or query (JStr "")))) in
  if str_eq q "" then []
  else
    map toPublicUser
      (take 20
         (List.filter (matches_query q)
            (List.filter (λ u, negb (str_eq (u_id u) excludeUserId)) (users d)))).

(** A list of characters that does not begin with white space. *)
Definition clean_start (l : list ascii) : Prop :=
  match l with [] => True | a :: _ => is_ws a = false end.

(** The key under which the store looks a user up. *)
Definition login_key (u : user) : string :=
  normalizeLogin (JStr (login_or_name u)).

(** No two users share a login key. *)
Definition unique_logins (d : data) : Prop := NoDup (map login_key (users d)).

(** A direct chat between two distinct users. *)
Definition chat_wf (c : chat) : Prop :=
  c_type c = "direct" ∧ ∃ a b, a ≠ b ∧ c_participantIds c = [a; b].

(** A message as the store writes it: its readers are an array that
    contains the sender, its kind is one of the six kinds, and its chat
    exists. *)
Definition message_wf (d : data) (m : message) : Prop :=
  (∃ r, m_readBy m = Some r ∧ m_senderId m ∈ r)
  ∧ m_kind m ∈ MESSAGE_KINDS
  ∧ is_Some (getChatById (m_chatId m) d).

(** A run of the store in which every user is created under a non-blank
    login key. *)
Inductive keyed_reachable `{JsEnv} : data -> Prop :=
| keyed_initial : keyed_reachable initialData
| keyed_createUser uuid now name login email passwordHash d r d' :
    keyed_reachable d ->
    normalizeLogin (js_or login name) ≠ "" ->
    createUser uuid now name login email passwordHash d = inr (r, d') ->
    keyed_reachable d'
| keyed_other d d' :
    keyed_reachable d -> store_step d d' -> users d' = users d ->
    keyed_reachable d'.


(** [localeCompare] is a total preorder: of two strings one does not
    sort after the other, and not sorting after is transitive. *)
Definition collation_order `{JsEnv} : Prop :=
  (∀ a b : string, 0 < localeCompare a b -> localeCompare b a <= 0)
  ∧ (∀ a b c : string,
       localeCompare a b <= 0 -> localeCompare b c <= 0 ->
       localeCompare a c <= 0).

(** [s'] was not active more recently than [s]. *)
Definition not_more_recent `{JsEnv} (s s' : chatSummary) : Prop :=
  localeCompare (cs_updatedAt s') (cs_updatedAt s) <= 0.


(** The acknowledgment of a realtime command and the world it leaves;
    [None] for a command that takes no acknowledgment. *)
Definition acked `{JsEnv} (c : command) (w : world) : option (reply * world) :=
  match c with
  | SendMessage uuid now user payload =>
      Some (on_send_message uuid now user payload w)
  | OpenChat user payload => Some (on_open_chat user payload w)
  | CallInvite uuid now user payload =>
      Some (on_call_invite uuid now user payload w)
  | CallAnswer user payload => Some (on_call_answer user payload w)
  | CallEnd user payload => Some (on_call_end user payload w)
  | WebrtcOffer user payload => Some (on_webrtc_offer user payload w)
  | WebrtcAnswer user payload => Some (on_webrtc_answer user payload w)
  | WebrtcIceCandidate user payload =>
      Some (on_webrtc_ice_candidate user payload w)
  | Disconnect _ | MarkRead _ _ | Upload _ _ _ _ _ _ => None
  end.

(** The notifications of one event to the user rooms of [recipients]. *)
Definition to_users (recipients : list publicUser) (n : notification)
    : list effect :=
  map (λ p, Emit (user_room (pu_id p)) n) recipients.


(** The registry holds each key once. *)
Definition calls_distinct (m : callMap) : Prop := NoDup (map fst m).

(** The [call_ended] notifications of one call ended by [userId]. *)
Definition ended (c : call) (reason : string) (userId : string)
    : list effect :=
  map (λ u, Emit (user_room u)
              (call_ended (call_id c) (call_chatId c) reason (Some userId)))
      (call_participantIds c).

(** The reason [disconnect] gives for ending a call. *)
Definition disconnect_reason (c : call) : string :=
  match call_status c with Ringing => "missed" | Active => "ended" end.


(** ** One-time codes (the [otp] module)

    [otpByEmail] is a [Map] from normalised email to entry; its insertion
    order is never observed, so it is a finite map. The clock readings of
    one call ([Date.now()], taken first inside [cleanupExpired] and then
    by the caller) are inputs, and so is the number produced by
    [Math.floor(100000 + Math.random() * 900000)]. The three settings
    read from the process environment are integers. *)

Record otpConfig := {
  OTP_TTL_MS : Z;
  OTP_COOLDOWN_MS : Z;
  OTP_MAX_ATTEMPTS : Z
}.

(** The settings when the environment sets none. *)
Definition defaultOtpConfig : otpConfig :=
  {| OTP_TTL_MS := 10 * 60 * 1000;
     OTP_COOLDOWN_MS := 60 * 1000;
     OTP_MAX_ATTEMPTS := 5 |}.

Record otpEntry := {
  otp_code : string;
  otp_expiresAt : Z;
  otp_lastSentAt : Z;
  otp_attemptsLeft : Z
}.

Inductive issueResult :=
| IssueOk (code : string) (expiresAt ttlSec retryAfterSec : Z)
| IssueCooldown (retryAfterSec : Z).

Inductive verifyResult :=
| VerifyOk
| VerifyNotFound
| VerifyExpired
| VerifyTooMany
| VerifyWrong (attemptsLeft : Z).

(** The [error] text of a failed verification. *)
Definition verify_message (r : verifyResult) : option string :=
  match r with
  | VerifyOk => None
  | VerifyNotFound => Some "Код не найден или уже истек. Запросите новый код"
  | VerifyExpired => Some "Код истек. Запросите новый код"
  | VerifyTooMany => Some "Слишком много неверных попыток. Запросите новый код"
  | VerifyWrong n => Some ("Неверный код. Осталось попыток: " +:+ pretty n)
  end.

(** [Math.ceil(x / 1000)] and [Math.round(x / 1000)] on an integer. *)
Definition ceil_div_1000 (x : Z) : Z := - ((- x) / 1000).
Definition round_div_1000 (x : Z) : Z := (x + 500) / 1000.

Definition normalizeEmail (email : jsval) : string :=
  toLowerCase (trim (js_String (js_or email (JStr "")))).

Definition cleanupExpired (now : Z) (m : gmap string otpEntry)
    : gmap string otpEntry :=
  filter (λ kv, ¬ (otp_expiresAt (snd kv) <= now)) m.

Definition generateCode (floored : Z) : string := js_String (JNum floored).

Definition issueOtp (cfg : otpConfig) (now1 now2 : Z) (floored : Z)
    (email : jsval) (m : gmap string otpEntry)
    : issueResult * gmap string otpEntry :=
  let m := cleanupExpired now1 m in
  let normalizedEmail := normalizeEmail email in
  let now := now2 in
  let issue :=
    let code := generateCode floored in
    (IssueOk code (now + OTP_TTL_MS cfg) (round_div_1000 (OTP_TTL_MS cfg))
             (round_div_1000 (OTP_COOLDOWN_MS cfg)),
     <[normalizedEmail :=
         {| otp_code := code;
            otp_expiresAt := now + OTP_TTL_MS cfg;
            otp_lastSentAt := now;
            otp_attemptsLeft := OTP_MAX_ATTEMPTS cfg |}]> m) in
  match m !! normalizedEmail with
  | Some existing =>
      if now - otp_lastSentAt existing <? OTP_COOLDOWN_MS cfg
      then (IssueCooldown
              (ceil_div_1000
                 (OTP_COOLDOWN_MS cfg - (now - otp_lastSentAt existing))),
            m)
      else issue
  | None => issue
  end.

Definition verifyOtp (now1 now2 : Z) (email code : jsval)
    (m : gmap string otpEntry) : verifyResult * gmap string otpEntry :=
  let m := cleanupExpired now1 m in
  let normalizedEmail := normalizeEmail email in
  let normalizedCode := trim (js_String (js_or code (JStr ""))) in
  match m !! normalizedEmail with
  | None => (VerifyNotFound, m)
  | Some entry =>
      if otp_expiresAt entry <=? now2
      then (VerifyExpired, delete normalizedEmail m)
      else if negb (str_eq (otp_code entry) normalizedCode) then
        let left := otp_attemptsLeft entry - 1 in
        if left <=? 0 then (VerifyTooMany, delete normalizedEmail m)
        else (VerifyWrong left,
              <[normalizedEmail :=
                  {| otp_code := otp_code entry;
                     otp_expiresAt := otp_expiresAt entry;
                     otp_lastSentAt := otp_lastSentAt entry;
                     otp_attemptsLeft := left |}]> m)
      else (VerifyOk, delete normalizedEmail m)
  end.

(** One verification attempt: the two clock readings and what was typed. *)
Record otpAttempt := {
  at_now1 : Z;
  at_now2 : Z;
  at_code : jsval
}.

(** The map after a run of verification attempts for one email. *)
Definition verify_all (email : jsval) (attempts : list otpAttempt)
    (m : gmap string otpEntry) : gmap string otpEntry :=
  foldl (λ m a, snd (verifyOtp (at_now1 a) (at_now2 a) email (at_code a) m))
        m attempts.

(** ** Bearer tokens ([auth] module) *)

(** [value.slice(7)]. *)
Definition slice7 (s : string) : string :=
  String.substring 7 (String.length s - 7) s.

(** [getBearerToken(authHeader)]; [None] is [null]. *)
Definition getBearerToken (authHeader : jsval) : option string :=
  let value := js_String (js_or authHeader (JStr "")) in
  if negb (startsWith value "Bearer ") then None
  else Some (trim (slice7 value)).


(** What [jwt.verify] reads from a token, and what [authMiddleware] hands
    to the route as [req.auth]. *)
Record tokenPayload := {
  p_sub : jsval;
  p_name : jsval;
  p_email : jsval
}.

Record authInfo := {
  auth_userId : jsval;
  auth_name : jsval;
  auth_email : jsval
}.

(** The two 401 answers of [authMiddleware]. *)
Inductive authFailure := AuthRequired | TokenInvalid.

Definition auth_message (f : authFailure) : string :=
  match f with
  | AuthRequired => "Требуется авторизация"
  | TokenInvalid => "Невалидный токен"
  end.

(** [authMiddleware(req, res, next)] on the [authorization] header;
    [verifyToken] is [jwt.verify] under the server's secret, [None] when
    it throws. [inr] is the call of [next()] with [req.auth] set. *)
Definition authMiddleware (verifyToken : string -> option tokenPayload)
    (authorization : jsval) : authFailure + authInfo :=
  match getBearerToken authorization with
  | None => inl AuthRequired
  | Some token =>
      if bool_decide (token = "") then inl AuthRequired
      else
        match verifyToken token with
        | Some payload =>
            inr {| auth_userId := p_sub payload;
                   auth_name := p_name payload;
                   auth_email := p_email payload |}
        | None => inl TokenInvalid
        end
  end.

(** A code issued for ann at time 1000 under the default settings, and
    the map holding it. *)
Definition annEmail : jsval := JStr "  Ann@Example.com ".

Definition issuedOtp : issueResult * gmap string otpEntry :=
  issueOtp defaultOtpConfig 1000 1000 123456 annEmail ∅.

(** The entry that request stores under ann's normalised email. *)
Definition issuedEntry : otpEntry :=
  {| otp_code := "123456";
     otp_expiresAt := 601000;
     otp_lastSentAt := 1000;
     otp_attemptsLeft := 5 |}.

(** A verifier that accepts one token only. *)
Definition sampleVerifyToken (token : string) : option tokenPayload :=
  if bool_decide (token = "tok-1")
  then Some {| p_sub := JStr "a1"; p_name := JStr "ann"; p_email := JNull |}
  else None.

(** * Properties *)


(** ** The monad and the built-ins *)

Lemma world_eta w :
  {| store := store w; activeCalls := activeCalls w; effects := effects w |} = w.
Proof. by destruct w. Qed.

Lemma for_each_perform {A} (l : list A) (f : A -> effect) w :
  for_each l (λ x, perform (f x)) w
  = (tt, {| store := store w;
            activeCalls := activeCalls w;
            effects := effects w ++ map f l |}).
Proof.
  revert w. induction l as [|x l IH]; intros w; simpl.
  - by rewrite app_nil_r, world_eta.
  - unfold mbind, M_bind. simpl. rewrite IH. simpl.
    by rewrite <- app_assoc.
Qed.

Lemma emitChatUpdated_run chatId w :
  emitChatUpdated chatId w
  = (tt, {| store := store w;
            activeCalls := activeCalls w;
            effects := effects w
              ++ map (λ p, Emit (user_room (pu_id p)) (chat_updated chatId))
                     (getChatParticipants chatId (store w)) |}).
Proof.
  unfold emitChatUpdated, mbind, M_bind, getStore. simpl.
  apply for_each_perform.
Qed.

Lemma emitNewMessage_run chatId m w :
  emitNewMessage chatId m w
  = (tt, {| store := store w;
            activeCalls := activeCalls w;
            effects := (effects w
              ++ map (λ p, Emit (user_room (pu_id p)) (new_message m))
                     (getChatParticipants chatId (store w)))
              ++ map (λ p, Emit (user_room (pu_id p)) (chat_updated chatId))
                     (getChatParticipants chatId (store w)) |}).
Proof.
  unfold emitNewMessage, mbind, M_bind, getStore. simpl.
  rewrite for_each_perform. simpl. by rewrite emitChatUpdated_run.
Qed.

Lemma emitCallEvent_run c n w :
  emitCallEvent c n w
  = (tt, {| store := store w;
            activeCalls := activeCalls w;
            effects := effects w
              ++ map (λ u, Emit (user_room u) n) (call_participantIds c) |}).
Proof. apply for_each_perform. Qed.

Lemma js_slice_from_neg {A} (n : Z) (l : list A) :
  0 < n -> js_slice_from (- n) l = drop (length l - Z.to_nat n) l.
Proof.
  intros Hn. unfold js_slice_from.
  destruct (Z.ltb_spec (- n) 0); [|lia]. f_equal. lia.
Qed.

Lemma last_js_slice_from {A} (n : Z) (l : list A) (x : A) :
  0 < n -> last (js_slice_from (- n) (l ++ [x])) = Some x.
Proof.
  intros Hn. rewrite js_slice_from_neg by done.
  rewrite length_app. simpl.
  rewrite drop_app_le by lia. apply last_snoc.
Qed.

Lemma length_js_slice_from {A} (n : Z) (l : list A) :
  0 < n -> length (js_slice_from (- n) l) = (length l `min` Z.to_nat n)%nat.
Proof.
  intros Hn. rewrite js_slice_from_neg by done. rewrite length_drop. lia.
Qed.

(** ** Adding a message *)

Section AddMessage.
Context `{JsEnv}.

Lemma addMessage_inr uuid now chatId senderId senderName text kind media d m d' :
  addMessage uuid now chatId senderId senderName text kind media d = inr (m, d') ->
  ∃ i c msg,
    msg = newMessage uuid now chatId senderId senderName text kind media
    ∧ find_chat chatId (chats d) = Some (i, c)
    ∧ m = normalizeMessage msg
    ∧ users d' = users d
    ∧ chats d' = <[i := set_updatedAt now c]> (chats d)
    ∧ messages d' =
        if Z.of_nat (length (messages d ++ [msg])) >? MAX_MESSAGES
        then js_slice_from (- MAX_MESSAGES) (messages d ++ [msg])
        else messages d ++ [msg].
Proof.
  unfold addMessage. intros Heq.
  destruct (find_chat chatId (chats d)) as [[i c]|]; [|done].
  injection Heq as <- <-. by eexists i, c, _.
Qed.

Lemma addMessage_inl uuid now chatId senderId senderName text kind media d e :
  addMessage uuid now chatId senderId senderName text kind media d = inl e ->
  e = ChatNotFound ∧ find_chat chatId (chats d) = None.
Proof.
  unfold addMessage.
  destruct (find_chat chatId (chats d)) as [[i c]|]; [done|].
  by intros [= <-].
Qed.

Lemma addMessage_stored uuid now chatId senderId senderName text kind media d m d' :
  addMessage uuid now chatId senderId senderName text kind media d = inr (m, d') ->
  last (messages d')
  = Some (newMessage uuid now chatId senderId senderName text kind media).
Proof.
  intros Heq.
  apply addMessage_inr in Heq as (i & c & msg & -> & _ & _ & _ & _ & ->).
  case_match.
  - by apply last_js_slice_from.
  - apply last_snoc.
Qed.

Lemma sendMessageAndBroadcast_inr uuid now chatId senderId senderName
    kind text media w m w' :
  sendMessageAndBroadcast uuid now chatId senderId senderName kind text media w
    = (inr m, w') ->
  ∃ d', addMessage uuid now chatId senderId senderName text kind media (store w)
          = inr (m, d')
        ∧ store w' = d'
        ∧ activeCalls w' = activeCalls w.
Proof.
  unfold sendMessageAndBroadcast, mbind, M_bind, getStore. simpl.
  destruct (addMessage _ _ _ _ _ _ _ _ _) as [e|[m0 d0]] eqn:Hadd; simpl.
  - done.
  - unfold mret, M_ret. rewrite emitNewMessage_run. simpl.
    intros [= <- <-]. by exists d0.
Qed.

Lemma sendMessageAndBroadcast_inl uuid now chatId senderId senderName
    kind text media w e w' :
  sendMessageAndBroadcast uuid now chatId senderId senderName kind text media w
    = (inl e, w') ->
  w' = w ∧ e = ChatNotFound.
Proof.
  unfold sendMessageAndBroadcast, mbind, M_bind, getStore. simpl.
  destruct (addMessage _ _ _ _ _ _ _ _ _) as [e0|[m0 d0]] eqn:Hadd; simpl.
  - apply addMessage_inl in Hadd as [-> _]. by intros [= <- <-].
  - done.
Qed.
End AddMessage.

(** ** Message kinds *)

Lemma normalizeKind_upload_kind k md :
  k ∈ UPLOAD_KINDS -> normalizeKind (JStr k) md = k.
Proof.
  unfold UPLOAD_KINDS. rewrite !elem_of_cons, elem_of_nil.
  intros [->|[->|[->|[->|[->|[]]]]]]; reflexivity.
Qed.

Lemma inferKindFromMime_upload_kind mime : inferKindFromMime mime ∈ UPLOAD_KINDS.
Proof.
  unfold inferKindFromMime, UPLOAD_KINDS.
  repeat case_match; set_solver.
Qed.

Lemma normalizeMessageKind_upload_kind kind mime :
  normalizeMessageKind kind mime ∈ UPLOAD_KINDS.
Proof.
  unfold normalizeMessageKind, includes.
  case_bool_decide; [done|]. apply inferKindFromMime_upload_kind.
Qed.

Lemma normalizeKind_invalid kind md :
  includes MESSAGE_KINDS (canonicalKind kind) = false ->
  normalizeKind kind md = defaultKind md.
Proof. unfold normalizeKind, canonicalKind. by intros ->. Qed.

Section StoredKind.
Context `{JsEnv}.

Lemma newMessage_kind_undefined uuid now chatId senderId senderName text media :
  m_kind (newMessage uuid now chatId senderId senderName text JUndefined media)
  = "text".
Proof. reflexivity. Qed.

Lemma newMessage_kind_invalid uuid now chatId senderId senderName text kind media :
  kind ≠ JUndefined ->
  includes MESSAGE_KINDS (canonicalKind kind) = false ->
  let msg := newMessage uuid now chatId senderId senderName text kind media in
  m_kind msg = defaultKind (m_media msg).
Proof.
  intros Hk Hinv. unfold newMessage. simpl.
  destruct kind; try done; by apply normalizeKind_invalid.
Qed.

Lemma newMessage_kind_upload uuid now chatId senderId senderName text k media :
  k ∈ UPLOAD_KINDS ->
  m_kind (newMessage uuid now chatId senderId senderName text (JStr k) media) = k.
Proof. intros Hk. unfold newMessage. simpl. by apply normalizeKind_upload_kind. Qed.

Lemma on_send_message_stored uuid now user payload w id w' :
  on_send_message uuid now user payload w = (AckMessage id, w') ->
  ∃ c,
    ensureChatAccess (trimmed_field payload "chatId") (su_id user) (store w)
      = inr c
    ∧ last (messages (store w'))
      = Some (newMessage uuid now (c_id c) (su_id user) (su_name user)
                (JStr (sanitizeText (js_or (js_get payload "text") (JStr ""))))
                (JStr (normalizeMessageKind (js_get payload "kind")
                         (js_get (js_get payload "media") "mimeType")))
                (if truthy (js_get payload "media")
                    && is_object_type (js_get payload "media")
                 then js_get payload "media" else JNull))
    ∧ m_id <$> last (messages (store w')) = Some id.
Proof.
  unfold on_send_message.
  case_match; [done|]. case_match; [done|].
  unfold mbind at 1, M_bind at 1, getStore. simpl.
  destruct (ensureChatAccess _ _ _) as [[st f]|c] eqn:Hacc; [done|].
  unfold mbind, M_bind.
  destruct (sendMessageAndBroadcast _ _ _ _ _ _ _ _ w) as [[e|m] w1] eqn:Hsend;
    simpl; [done|].
  intros [= <- <-].
  apply sendMessageAndBroadcast_inr in Hsend as (d' & Hadd & <- & _).
  exists c. split; [done|].
  rewrite (addMessage_stored _ _ _ _ _ _ _ _ _ _ _ Hadd). split; [done|].
  by apply addMessage_inr in Hadd as (? & ? & ? & -> & _ & -> & _).
Qed.
End StoredKind.

Lemma trim_start_snoc l a : is_ws a = false -> trim_start (l ++ [a]) ≠ [].
Proof.
  intros Ha. induction l as [|b l IH]; simpl.
  - by rewrite Ha.
  - by destruct (is_ws b).
Qed.

Lemma trim_nonempty a s : is_ws a = false -> trim (String a s) ≠ "".
Proof.
  intros Ha. unfold trim. simpl. rewrite Ha. simpl.
  pose proof (trim_start_snoc (rev (list_ascii_of_string s)) a Ha) as Hne.
  destruct (trim_start _) as [|b l] eqn:Hts; [done|].
  simpl. destruct (rev l) as [|c l'] eqn:Hrev; simpl; [|done].
  destruct l; simpl in Hrev; [done|].
  by apply app_eq_nil in Hrev as [_ ?].
Qed.

Section StoredKindUpload.
Context `{JsEnv}.

Lemma normalizeMedia_upload filename rest :
  is_Some (normalizeMedia
             (JObj (("url", JStr ("/uploads/" +:+ filename)) :: rest))).
Proof.
  unfold normalizeMedia. simpl.
  case_bool_decide as Hurl; [|by eexists].
  exfalso. revert Hurl. by apply trim_nonempty.
Qed.

Lemma post_chat_upload_stored uuid now userId chatId file form w m w' :
  post_chat_upload uuid now userId chatId file form w
    = ({| resp_status := 201; resp_body := MessageBody m |}, w') ->
  ∃ f stored,
    file = Some f
    ∧ last (messages (store w')) = Some stored
    ∧ is_Some (m_media stored)
    ∧ m_kind stored
      = normalizeMessageKind (js_get form "kind") (JStr (f_mimetype f)).
Proof.
  unfold post_chat_upload.
  unfold mbind at 1, M_bind at 1, getStore. simpl.
  destruct (getUserById userId (store w)) as [user|]; [|done].
  destruct (ensureChatAccess _ _ _) as [[st e]|c] eqn:Hacc.
  { unfold mbind, M_bind, mret, M_ret. simpl. by intros [=]. }
  destruct file as [f|]; [|done].
  unfold mbind, M_bind.
  destruct (sendMessageAndBroadcast _ _ _ _ _ _ _ _ w) as [[e|m1] w1] eqn:Hsend;
    simpl; [done|].
  intros [= <- <-].
  apply sendMessageAndBroadcast_inr in Hsend as (d' & Hadd & <- & _).
  eexists f, _. split; [done|].
  split; [by apply (addMessage_stored _ _ _ _ _ _ _ _ _ _ _ Hadd)|].
  split.
  - unfold newMessage. simpl. apply normalizeMedia_upload.
  - apply newMessage_kind_upload, normalizeMessageKind_upload_kind.
Qed.
End StoredKindUpload.

(** C1, as stated, fails: a [send_message] without a kind that carries a
    PNG attachment is accepted, and the message it stores has media and
    the kind [image], not [file]. *)
Lemma send_message_mime_kind_counterexample :
  let r := @on_send_message codeUnitEnv "m1" "2024-01-03T00:00:00.000Z"
             annSession photoPayload sampleWorld in
  js_get photoPayload "kind" = JUndefined
  ∧ fst r = AckMessage "m1"
  ∧ ∃ stored,
      last (messages (store (snd r))) = Some stored
      ∧ is_Some (m_media stored)
      ∧ m_kind stored = "image"
      ∧ m_kind stored ≠ defaultKind (m_media stored).
Proof.
  vm_compute. split; [done|]. split; [done|].
  eexists. split; [done|]. split; [by eexists|]. split; done.
Qed.

(** C1 (amended). Through the store's [addMessage], an omitted kind is
    stored as [text] (the parameter default), and a kind that is given but
    is not one of text, image, video, audio, file, system (after string
    conversion, trimming and lower-casing) is stored as [file] when the
    normalised media is present and as [text] when it is absent. Through
    [send_message] and through upload, a kind that is not one of text,
    image, video, audio, file is replaced by the kind inferred from the
    MIME type before it reaches the store, and a message stored with media
    has that inferred kind; an upload always stores media. *)
Theorem stored_kind_by_entry_path `{JsEnv} :
  (∀ uuid now chatId senderId senderName text kind media d m d',
     addMessage uuid now chatId senderId senderName text kind media d
       = inr (m, d') ->
     ∃ stored,
       last (messages d') = Some stored
       ∧ (kind = JUndefined -> m_kind stored = "text")
       ∧ (kind ≠ JUndefined ->
          includes MESSAGE_KINDS (canonicalKind kind) = false ->
          m_kind stored = defaultKind (m_media stored)))
  ∧ (∀ uuid now user payload w id w',
       on_send_message uuid now user payload w = (AckMessage id, w') ->
       includes UPLOAD_KINDS (canonicalKind (js_get payload "kind")) = false ->
       ∃ stored,
         last (messages (store w')) = Some stored
         ∧ m_id stored = id
         ∧ (is_Some (m_media stored) ->
            m_kind stored
            = inferKindFromMime (js_get (js_get payload "media") "mimeType")))
  ∧ (∀ uuid now userId chatId file form w m w',
       post_chat_upload uuid now userId chatId file form w
         = ({| resp_status := 201; resp_body := MessageBody m |}, w') ->
       includes UPLOAD_KINDS (canonicalKind (js_get form "kind")) = false ->
       ∃ f stored,
         file = Some f
         ∧ last (messages (store w')) = Some stored
         ∧ is_Some (m_media stored)
         ∧ m_kind stored = inferKindFromMime (JStr (f_mimetype f))).
Proof.
  split; [|split].
  - intros uuid now chatId senderId senderName text kind media d m d' Hadd.
    eexists. split; [by apply (addMessage_stored _ _ _ _ _ _ _ _ _ _ _ Hadd)|].
    split.
    + intros ->. apply newMessage_kind_undefined.
    + intros Hk Hinv. by apply newMessage_kind_invalid.
  - intros uuid now user payload w id w' Hrun Hinv.
    apply on_send_message_stored in Hrun as (c & _ & Hlast & Hid).
    eexists. split; [exact Hlast|]. split.
    + rewrite Hlast in Hid. by injection Hid.
    + intros _. rewrite newMessage_kind_upload
        by apply normalizeMessageKind_upload_kind.
      unfold normalizeMessageKind. fold (canonicalKind (js_get payload "kind")).
      by rewrite Hinv.
  - intros uuid now userId chatId file form w m w' Hrun Hinv.
    apply post_chat_upload_stored in Hrun as (f & stored & -> & Hlast & Hmd & Hk).
    exists f, stored. repeat split; try done.
    rewrite Hk. unfold normalizeMessageKind.
    fold (canonicalKind (js_get form "kind")). by rewrite Hinv.
Qed.

(** The realtime path with neither a kind nor media: the MIME inference
    of [normalizeMessageKind] answers [file] for a missing MIME type, and
    that is the kind stored, where the store's own default would have
    been [text]. *)
Example send_message_without_kind_or_media :
  let r := @on_send_message codeUnitEnv "m1" "2024-01-03T00:00:00.000Z"
             annSession plainPayload sampleWorld in
  fst r = AckMessage "m1"
  ∧ ∃ stored,
      last (messages (store (snd r))) = Some stored
      ∧ m_media stored = None
      ∧ m_text stored = "hi"
      ∧ m_kind stored = "file".
Proof. vm_compute. split; [done|]. by eexists. Qed.

(** An instance: the photo sent by ann in the sample world. *)
Lemma stored_kind_by_entry_path_witness :
  let r := @on_send_message codeUnitEnv "m1" "2024-01-03T00:00:00.000Z"
             annSession photoPayload sampleWorld in
  r = (AckMessage "m1", snd r)
  ∧ includes UPLOAD_KINDS (canonicalKind (js_get photoPayload "kind")) = false
  ∧ ∃ stored,
      last (messages (store (snd r))) = Some stored
      ∧ m_id stored = "m1"
      ∧ (is_Some (m_media stored) ->
         m_kind stored
         = inferKindFromMime (js_get (js_get photoPayload "media") "mimeType")).
Proof.
  intros r.
  assert (Hrun : r = (AckMessage "m1", snd r)) by (vm_compute; reflexivity).
  assert (Hinv : includes UPLOAD_KINDS
                   (canonicalKind (js_get photoPayload "kind")) = false)
    by (vm_compute; reflexivity).
  split; [exact Hrun|]. split; [exact Hinv|].
  exact (proj1 (proj2 (@stored_kind_by_entry_path codeUnitEnv))
           _ _ _ _ _ _ _ Hrun Hinv).
Defined.


(** ** Direct chats *)

Lemma find_snoc {A} (p : A -> bool) (l : list A) (x : A) :
  List.find p (l ++ [x])
  = match List.find p l with
    | Some y => Some y
    | None => if p x then Some x else None
    end.
Proof.
  induction l as [|y l IH]; simpl; [done|].
  by destruct (p y).
Qed.

Lemma codeUnitEnv_strict : @collation_strict codeUnitEnv.
Proof.
  intros a b Hab. simpl.
  rewrite (String.compare_antisym a b).
  destruct (String.compare b a) eqn:Hc; simpl; try done.
  apply String.compare_eq_iff in Hc. congruence.
Qed.

Section DirectChats.
Context `{JsEnv}.
Hypothesis Hstrict : collation_strict.

Lemma normalizePair_cases a b :
  normalizePair a b = (if 0 <? localeCompare a b then [b; a] else [a; b]).
Proof. reflexivity. Qed.

Lemma normalizePair_comm a b : a ≠ b -> normalizePair b a = normalizePair a b.
Proof.
  intros Hab. rewrite !normalizePair_cases, (Hstrict a b Hab).
  by destruct (0 <? localeCompare b a).
Qed.

(** Sorting a sorted pair changes nothing. *)
Lemma normalizePair_sorted a b f s :
  a ≠ b -> normalizePair a b = [f; s] ->
  f ≠ s ∧ normalizePair f s = [f; s] ∧ normalizePair s f = [f; s].
Proof.
  intros Hab. rewrite normalizePair_cases.
  destruct (0 <? localeCompare a b) eqn:Hc; intros [= <- <-];
    (split; [done|]);
    by rewrite (normalizePair_comm a b Hab), (normalizePair_cases a b), Hc.
Qed.

Lemma matches_pair_direct f s c :
  matches_pair [f; s] c = true -> direct_between c f s.
Proof.
  unfold matches_pair, str_eq, elem_eq.
  case_bool_decide as Ht; simpl; [|done].
  case_bool_decide as Hl; simpl; [|done].
  destruct (c_participantIds c) as [|x [|y [|z l]]] eqn:Hp; try done.
  fold (normalizePair x y). rewrite normalizePair_cases.
  intros Hm. apply andb_prop in Hm as [H0 H1].
  apply bool_decide_eq_true in H0, H1.
  split; [done|]. rewrite Hp.
  destruct (0 <? localeCompare x y);
    injection H0 as <-; injection H1 as <-; auto.
Qed.

Lemma direct_matches_pair f s c :
  normalizePair f s = [f; s] -> normalizePair s f = [f; s] ->
  direct_between c f s -> matches_pair [f; s] c = true.
Proof.
  intros Hfs Hsf [Ht Hp]. unfold matches_pair, str_eq, elem_eq.
  rewrite Ht. simpl.
  rewrite normalizePair_cases in Hfs, Hsf.
  destruct Hp as [-> | ->]; simpl.
  - rewrite Hfs. by rewrite !bool_decide_eq_true_2.
  - rewrite Hsf. by rewrite !bool_decide_eq_true_2.
Qed.

(** What [createOrGetDirectChat] does for two distinct users, in terms
    of the sorted pair. *)
Lemma createOrGetDirectChat_cases uuid now1 now2 a b d :
  a ≠ b ->
  ∃ f s,
    normalizePair a b = [f; s] ∧ f ≠ s
    ∧ normalizePair f s = [f; s] ∧ normalizePair s f = [f; s]
    ∧ createOrGetDirectChat uuid now1 now2 a b d
      = match js_find (matches_pair [f; s]) (chats d) with
        | Some existing => inr (existing, d)
        | None =>
            let c := {| c_id := uuid; c_type := "direct";
                        c_participantIds := [f; s];
                        c_createdAt := now1; c_updatedAt := now2 |} in
            inr (c, {| users := users d; chats := chats d ++ [c];
                       messages := messages d |})
        end.
Proof.
  intros Hab.
  assert (∃ f s, normalizePair a b = [f; s]) as (f & s & Hp).
  { rewrite normalizePair_cases. destruct (0 <? _); by eexists _, _. }
  destruct (normalizePair_sorted a b f s Hab Hp) as (Hfs & Hs1 & Hs2).
  exists f, s. repeat split; try done.
  unfold createOrGetDirectChat, findDirectChat. rewrite Hp, Hs1.
  unfold str_eq. by rewrite bool_decide_eq_false_2.
Qed.

Lemma createOrGetDirectChat_again uuid now1 now2 a b d c d1 :
  a ≠ b ->
  createOrGetDirectChat uuid now1 now2 a b d = inr (c, d1) ->
  ∀ uuid' now1' now2',
    createOrGetDirectChat uuid' now1' now2' b a d1 = inr (c, d1)
    ∧ createOrGetDirectChat uuid' now1' now2' a b d1 = inr (c, d1).
Proof.
  intros Hab Hfirst uuid' now1' now2'.
  destruct (createOrGetDirectChat_cases uuid now1 now2 a b d Hab)
    as (f & s & Hp & Hfs & Hs1 & Hs2 & Hrun).
  assert (Hfound : js_find (matches_pair [f; s]) (chats d1) = Some c).
  { rewrite Hrun in Hfirst. unfold js_find in *.
    destruct (List.find _ (chats d)) as [existing|] eqn:Hfind.
    - by injection Hfirst as <- <-.
    - injection Hfirst as <- <-. simpl. rewrite find_snoc, Hfind.
      rewrite direct_matches_pair; [done..|]. by split; [|left]. }
  split.
  - destruct (createOrGetDirectChat_cases uuid' now1' now2' b a d1)
      as (f' & s' & Hp' & _ & _ & _ & ->); [done|].
    rewrite normalizePair_comm, Hp in Hp' by done.
    injection Hp' as <- <-. by rewrite Hfound.
  - destruct (createOrGetDirectChat_cases uuid' now1' now2' a b d1 Hab)
      as (f' & s' & Hp' & _ & _ & _ & ->).
    rewrite Hp in Hp'. injection Hp' as <- <-. by rewrite Hfound.
Qed.

Lemma createOrGetDirectChat_inr_distinct uuid now1 now2 a b d r :
  createOrGetDirectChat uuid now1 now2 a b d = inr r -> a ≠ b.
Proof.
  intros Hrun ->. revert Hrun. unfold createOrGetDirectChat.
  rewrite normalizePair_cases. unfold str_eq.
  destruct (0 <? localeCompare b b); by rewrite bool_decide_eq_true_2.
Qed.

Lemma direct_between_pair c f s a b :
  c_participantIds c = [f; s] -> direct_between c a b -> direct_between c f s.
Proof. intros Hp [Ht _]. split; [done|by left]. Qed.

Lemma direct_between_same c1 c2 f s a b :
  c_participantIds c2 = [f; s] ->
  direct_between c2 a b -> direct_between c1 a b -> direct_between c1 f s.
Proof.
  intros Hp [_ H2] [Ht H1]. split; [done|].
  rewrite Hp in H2. destruct H2 as [[= <- <-]|[= <- <-]]; tauto.
Qed.

Lemma unique_direct_chats_push d f s c :
  normalizePair f s = [f; s] -> normalizePair s f = [f; s] ->
  js_find (matches_pair [f; s]) (chats d) = None ->
  c_participantIds c = [f; s] ->
  unique_direct_chats d ->
  unique_direct_chats
    {| users := users d; chats := chats d ++ [c]; messages := messages d |}.
Proof.
  intros Hs1 Hs2 Hnone Hp Huniq i j c1 c2 a b. simpl.
  assert (Hfresh : ∀ k c0, chats d !! k = Some c0 -> ¬ direct_between c0 f s).
  { intros k c0 Hk Hd.
    apply (direct_matches_pair f s c0 Hs1 Hs2) in Hd.
    pose proof (find_none _ _ Hnone c0) as Hf.
    rewrite Hf in Hd; [done|].
    apply list_elem_of_In, list_elem_of_lookup. by exists k. }
  rewrite !lookup_app_Some.
  intros [Hi|[Hi Hi']] [Hj|[Hj Hj']] Hd1 Hd2.
  - by apply (Huniq i j c1 c2 a b).
  - apply list_lookup_singleton_Some in Hj' as [_ <-].
    destruct (Hfresh i c1 Hi). by apply (direct_between_same c1 c f s a b).
  - apply list_lookup_singleton_Some in Hi' as [_ <-].
    destruct (Hfresh j c2 Hj). by apply (direct_between_same c2 c f s a b).
  - apply list_lookup_singleton_Some in Hi' as [Hi' _].
    apply list_lookup_singleton_Some in Hj' as [Hj' _]. lia.
Qed.

Lemma unique_direct_chats_touch d i c t :
  chats d !! i = Some c ->
  unique_direct_chats d ->
  ∀ us ms,
    unique_direct_chats
      {| users := us; chats := <[i := set_updatedAt t c]> (chats d);
         messages := ms |}.
Proof.
  intros Hi Huniq us ms j k c1 c2 a b. simpl.
  assert (Hsame : ∀ n c', <[i := set_updatedAt t c]> (chats d) !! n = Some c' ->
            ∃ c0, chats d !! n = Some c0
                  ∧ (∀ x y, direct_between c' x y -> direct_between c0 x y)).
  { intros n c' Hn. destruct (decide (n = i)) as [->|Hne].
    - rewrite list_lookup_insert_eq in Hn by by eapply lookup_lt_Some.
      injection Hn as <-. by exists c.
    - rewrite list_lookup_insert_ne in Hn by done. by exists c'. }
  intros Hj Hk Hd1 Hd2.
  apply Hsame in Hj as (c1' & Hj & H1), Hk as (c2' & Hk & H2).
  apply (Huniq j k c1' c2' a b); auto.
Qed.

Lemma store_step_unique_direct_chats d d' :
  store_step d d' -> unique_direct_chats d -> unique_direct_chats d'.
Proof.
  intros Hstep Huniq. destruct Hstep as
    [uuid now name login email ph d r d' Hrun
    |uuid now1 now2 a b d r d' Hrun
    |uuid now chatId sid sname text kind media d r d' Hrun
    |chatId userId d].
  - unfold createUser in Hrun. case_match; [done|].
    by injection Hrun as _ <-.
  - pose proof (createOrGetDirectChat_inr_distinct _ _ _ _ _ _ _ Hrun) as Hab.
    destruct (createOrGetDirectChat_cases uuid now1 now2 a b d Hab)
      as (f & s & _ & _ & Hs1 & Hs2 & Heq).
    rewrite Heq in Hrun.
    destruct (js_find _ (chats d)) as [existing|] eqn:Hfind.
    + by injection Hrun as _ <-.
    + injection Hrun as _ <-.
      by apply (unique_direct_chats_push d f s).
  - apply addMessage_inr in Hrun as (i & c & msg & _ & Hfind & _ & Hu & Hc & Hm).
    apply list_find_Some in Hfind as (Hi & _ & _).
    destruct d' as [us cs ms]. simpl in *. subst cs.
    by apply unique_direct_chats_touch.
  - unfold markChatAsRead. by case_match.
Qed.
End DirectChats.

(** C2. Provided [localeCompare] orders distinct ids strictly, for
    distinct users A and B a call of [createOrGetDirectChat(A, B)]
    succeeds, and every later call for (B, A) or for (A, B) returns that
    same chat and leaves the dataset as it was; and in every dataset the
    store can reach there is at most one direct chat per unordered pair
    of users. *)
Theorem direct_chat_unique_per_pair `{JsEnv} :
  collation_strict ->
  (∀ A B : string, A ≠ B ->
     ∀ d uuid now1 now2,
       ∃ c d1,
         createOrGetDirectChat uuid now1 now2 A B d = inr (c, d1)
         ∧ ∀ uuid' now1' now2',
             createOrGetDirectChat uuid' now1' now2' B A d1 = inr (c, d1)
             ∧ createOrGetDirectChat uuid' now1' now2' A B d1 = inr (c, d1))
  ∧ (∀ d, store_reachable d -> unique_direct_chats d).
Proof.
  intros Hstrict. split.
  - intros A B HAB d uuid now1 now2.
    destruct (createOrGetDirectChat_cases Hstrict uuid now1 now2 A B d HAB)
      as (f & s & _ & _ & _ & _ & Hrun).
    assert (∃ c d1, createOrGetDirectChat uuid now1 now2 A B d = inr (c, d1))
      as (c & d1 & Hfirst).
    { rewrite Hrun. destruct (js_find _ _); by eexists _, _. }
    exists c, d1. split; [done|].
    exact (createOrGetDirectChat_again Hstrict uuid now1 now2 A B d c d1
             HAB Hfirst).
  - intros d Hreach. induction Hreach as [|d d' _ IH Hstep].
    + intros i j c1 c2 a b Hi. simpl in Hi. by rewrite lookup_nil in Hi.
    + by apply (store_step_unique_direct_chats Hstrict d d').
Qed.

(** An instance: ann and bob on the empty dataset, under the code-unit
    collation. *)
Lemma direct_chat_unique_per_pair_witness :
  @collation_strict codeUnitEnv
  ∧ "a1" ≠ "b1"
  ∧ ∃ c d1,
      @createOrGetDirectChat codeUnitEnv "c9" "t1" "t2" "a1" "b1" initialData
        = inr (c, d1)
      ∧ @createOrGetDirectChat codeUnitEnv "c10" "t3" "t4" "b1" "a1" d1
        = inr (c, d1).
Proof.
  assert (Hne : "a1" ≠ "b1") by done.
  split; [exact codeUnitEnv_strict|]. split; [exact Hne|].
  destruct (proj1 (@direct_chat_unique_per_pair codeUnitEnv codeUnitEnv_strict)
              "a1" "b1" Hne initialData "c9" "t1" "t2") as (c & d1 & Hfirst & Hnext).
  exists c, d1. split; [exact Hfirst|]. exact (proj1 (Hnext "c10" "t3" "t4")).
Defined.

(** ** Retention *)

Lemma drop_keeps_last {A} (n : nat) (l : list A) (x : A) :
  (0 < n)%nat ->
  let kept := drop (length l - n) l in
  drop (length (kept ++ [x]) - n) (kept ++ [x])
  = drop (length (l ++ [x]) - n) (l ++ [x]).
Proof.
  intros Hn kept. subst kept.
  rewrite !length_app, length_drop. simpl.
  destruct (decide (length l ≤ n)%nat) as [Hle|Hgt].
  - replace (length l - n)%nat with 0%nat by lia.
    rewrite drop_0. f_equal. lia.
  - rewrite !drop_app_le by (rewrite ?length_drop; lia).
    rewrite drop_drop. do 2 f_equal. lia.
Qed.

Section Retention.
Context `{JsEnv}.

(** The messages a successful [addMessage] leaves in the store. *)
Lemma addMessage_messages uuid now chatId senderId senderName text kind media d m d' :
  addMessage uuid now chatId senderId senderName text kind media d = inr (m, d') ->
  let pushed :=
    messages d ++ [newMessage uuid now chatId senderId senderName text kind media] in
  messages d' = drop (length pushed - Z.to_nat MAX_MESSAGES) pushed.
Proof.
  intros Hadd pushed.
  apply addMessage_inr in Hadd as (i & c & msg & -> & _ & _ & _ & _ & ->).
  fold pushed. destruct (Z.gtb_spec (Z.of_nat (length pushed)) MAX_MESSAGES).
  - by apply js_slice_from_neg.
  - replace (length pushed - Z.to_nat MAX_MESSAGES)%nat with 0%nat by lia.
    by rewrite drop_0.
Qed.

Lemma add_all_history rs : ∀ d d' created hist,
  add_all rs d = (d', created) ->
  messages d = drop (length hist - Z.to_nat MAX_MESSAGES) hist ->
  let all := hist ++ created in
  messages d' = drop (length all - Z.to_nat MAX_MESSAGES) all.
Proof.
  induction rs as [|r rs IH]; intros d d' created hist; simpl.
  - intros [= <- <-] Hd. by rewrite app_nil_r.
  - destruct (addMessage _ _ _ _ _ _ _ _ d) as [e|[m d1]] eqn:Hadd.
    + apply IH.
    + destruct (add_all rs d1) as [d2 created1] eqn:Hrest.
      intros [= <- <-] Hd.
      pose proof (addMessage_messages _ _ _ _ _ _ _ _ _ _ _ Hadd) as Hm1.
      simpl in Hm1. set (x := newMessage _ _ _ _ _ _ _ _) in *.
      rewrite Hd in Hm1. rewrite drop_keeps_last in Hm1
        by (unfold MAX_MESSAGES; lia).
      rewrite (IH d1 d2 created1 (hist ++ [x]) Hrest Hm1).
      by rewrite <- app_assoc.
Qed.

Lemma add_all_messages rs d d' created :
  add_all rs d = (d', created) ->
  Z.of_nat (length (messages d)) <= MAX_MESSAGES ->
  let all := messages d ++ created in
  messages d' = drop (length all - Z.to_nat MAX_MESSAGES) all.
Proof.
  intros Hrun Hcap. apply (add_all_history rs d); [done|].
  replace (length (messages d) - Z.to_nat MAX_MESSAGES)%nat with 0%nat by lia.
  by rewrite drop_0.
Qed.

Lemma store_step_within_cap d d' :
  store_step d d' ->
  Z.of_nat (length (messages d)) <= MAX_MESSAGES ->
  Z.of_nat (length (messages d')) <= MAX_MESSAGES.
Proof.
  intros Hstep Hcap. destruct Hstep as
    [uuid now name login email ph d r d' Hrun
    |uuid now1 now2 a b d r d' Hrun
    |uuid now chatId sid sname text kind media d r d' Hrun
    |chatId userId d].
  - unfold createUser in Hrun. case_match; [done|].
    by injection Hrun as _ <-.
  - unfold createOrGetDirectChat in Hrun.
    repeat case_match; try done; by injection Hrun as _ <-.
  - rewrite (addMessage_messages _ _ _ _ _ _ _ _ _ _ _ Hrun).
    rewrite length_drop, length_app. simpl. unfold MAX_MESSAGES in *. lia.
  - unfold markChatAsRead. case_match; [|done].
    simpl. by rewrite !length_map.
Qed.
End Retention.

(** C3. A run of [addMessage] calls, addressed to any chats, that starts
    from a dataset within the cap leaves exactly the most recent
    [MAX_MESSAGES] of all messages (those present at the start followed by
    those created, in creation order): the oldest are dropped whatever
    chat they belong to, the store never holds more than [MAX_MESSAGES]
    messages, and it holds exactly that many once more have been created.
    The bound holds in every dataset the store can reach, and
    [MAX_MESSAGES] is 3000. *)
Theorem retention_keeps_most_recent `{JsEnv} :
  (∀ rs d d' created,
     add_all rs d = (d', created) ->
     Z.of_nat (length (messages d)) <= MAX_MESSAGES ->
     let all := messages d ++ created in
     messages d' = drop (length all - Z.to_nat MAX_MESSAGES) all
     ∧ Z.of_nat (length (messages d')) <= MAX_MESSAGES
     ∧ (MAX_MESSAGES < Z.of_nat (length all) ->
        Z.of_nat (length (messages d')) = MAX_MESSAGES))
  ∧ (∀ d, store_reachable d -> Z.of_nat (length (messages d)) <= MAX_MESSAGES)
  ∧ MAX_MESSAGES = 3000.
Proof.
  split; [|split; [|done]].
  - intros rs d d' created Hrun Hcap all.
    pose proof (add_all_messages rs d d' created Hrun Hcap) as Hm.
    fold all in Hm. rewrite Hm, length_drop.
    split; [done|]. unfold MAX_MESSAGES. lia.
  - intros d Hreach. induction Hreach as [|d d' _ IH Hstep]; [done|].
    by apply (store_step_within_cap d d').
Qed.

(** An instance: two calls on the sample dataset, the second of which
    throws. *)
Lemma retention_keeps_most_recent_witness :
  let r := @add_all codeUnitEnv [helloRequest; strayRequest] sampleData in
  r = (fst r, snd r)
  ∧ Z.of_nat (length (messages sampleData)) <= MAX_MESSAGES
  ∧ messages (fst r)
    = drop (length (messages sampleData ++ snd r) - Z.to_nat MAX_MESSAGES)
           (messages sampleData ++ snd r)
  ∧ length (snd r) = 1%nat.
Proof.
  intros r.
  assert (Hrun : r = (fst r, snd r)) by (vm_compute; reflexivity).
  assert (Hcap : Z.of_nat (length (messages sampleData)) <= MAX_MESSAGES)
    by (vm_compute; discriminate).
  split; [exact Hrun|]. split; [exact Hcap|]. split.
  - exact (proj1 (proj1 (@retention_keeps_most_recent codeUnitEnv)
                    _ _ _ _ Hrun Hcap)).
  - vm_compute. reflexivity.
Defined.

(** ** Failure and success of [addMessage] *)

Lemma find_chat_getChatById chatId d :
  snd <$> find_chat chatId (chats d) = getChatById chatId d.
Proof.
  unfold find_chat, getChatById, js_find, str_eq.
  induction (chats d) as [|c cs IH]; simpl; [done|].
  case_decide as Hc.
  - by rewrite bool_decide_eq_true_2.
  - rewrite bool_decide_eq_false_2 by done. rewrite <- IH.
    by destruct (list_find _ cs) as [[i c']|].
Qed.

Lemma find_chat_touch chatId cs i c t :
  find_chat chatId cs = Some (i, c) ->
  find_chat chatId (<[i := set_updatedAt t c]> cs)
  = Some (i, set_updatedAt t c).
Proof.
  unfold find_chat. intros Hfind.
  apply list_find_Some in Hfind as (Hi & Hid & Hbefore).
  apply list_find_Some. split; [|split].
  - apply list_lookup_insert_eq. by eapply lookup_lt_Some.
  - done.
  - intros j y Hj Hlt. rewrite list_lookup_insert_ne in Hj by lia.
    by apply (Hbefore j).
Qed.

Section AddMessageOutcome.
Context `{JsEnv}.

Lemma addMessage_fails_iff uuid now chatId senderId senderName text kind media d :
  (∃ e, addMessage uuid now chatId senderId senderName text kind media d = inl e)
  ↔ getChatById chatId d = None.
Proof.
  rewrite <- find_chat_getChatById. unfold addMessage.
  destruct (find_chat chatId (chats d)) as [[i c]|]; simpl.
  - split; [by intros [e ?]|done].
  - split; [done|]. by exists ChatNotFound.
Qed.

Lemma addMessage_updatedAt uuid now chatId senderId senderName text kind media d m d' :
  addMessage uuid now chatId senderId senderName text kind media d = inr (m, d') ->
  ∃ c, getChatById chatId d' = Some c
       ∧ c_updatedAt c = m_createdAt m
       ∧ m_createdAt m = now.
Proof.
  intros Hadd.
  apply addMessage_inr in Hadd as (i & c & msg & -> & Hfind & -> & _ & Hc & _).
  exists (set_updatedAt now c). rewrite <- find_chat_getChatById, Hc.
  by rewrite (find_chat_touch _ _ _ _ _ Hfind).
Qed.
End AddMessageOutcome.

(** C6. [addMessage] throws exactly when [chatId] names no chat of the
    dataset; what it throws is the chat-not-found failure, and the
    dataset after the failed call is the dataset before it; when it
    succeeds, the chat that [chatId] names in the new dataset has
    [updatedAt] equal to the [createdAt] of the message returned. *)
Theorem addMessage_not_found_or_touches_chat `{JsEnv} (r : addRequest) (d : data) :
  let run := addMessage (r_uuid r) (r_now r) (r_chatId r) (r_senderId r)
               (r_senderName r) (r_text r) (r_kind r) (r_media r) d in
  ((∃ e, run = inl e) ↔ getChatById (r_chatId r) d = None)
  ∧ (∀ e, run = inl e -> e = ChatNotFound ∧ add_all [r] d = (d, []))
  ∧ (∀ m d', run = inr (m, d') ->
       ∃ c, getChatById (r_chatId r) d' = Some c
            ∧ c_updatedAt c = m_createdAt m).
Proof.
  intros run. split; [apply addMessage_fails_iff|]. split.
  - intros e Hrun. split; [by apply addMessage_inl in Hrun as [-> _]|].
    simpl. fold run. by rewrite Hrun.
  - intros m d' Hrun.
    destruct (addMessage_updatedAt _ _ _ _ _ _ _ _ _ _ _ Hrun) as (c & ? & ? & _).
    by exists c.
Qed.

(** An instance: a message addressed to a chat that does not exist. *)
Lemma addMessage_not_found_or_touches_chat_witness :
  (∃ e, @addMessage codeUnitEnv "m2" "2024-01-03T00:00:01.000Z" "c404" "a1"
          "ann" (JStr "anyone?") (JStr "text") JNull sampleData = inl e)
  ∧ getChatById "c404" sampleData = None
  ∧ @add_all codeUnitEnv [strayRequest] sampleData = (sampleData, []).
Proof.
  pose proof (@addMessage_not_found_or_touches_chat codeUnitEnv strayRequest
                sampleData) as (Hiff & Hfail & _).
  assert (Hnone : getChatById "c404" sampleData = None)
    by (vm_compute; reflexivity).
  pose proof (proj2 Hiff Hnone) as Hex.
  split; [exact Hex|]. split; [exact Hnone|].
  destruct Hex as [e He]. exact (proj2 (Hfail e He)).
Defined.

(** ** Read receipts *)

(** Case analysis on one iteration of the loop of [markChatAsRead]. *)
Ltac mark_message_cases m :=
  destruct m as [? ? ? ? ? ? ? ? [?|]];
  unfold mark_message, includes, str_eq; simpl;
  repeat (case_bool_decide; simpl); try done.

Lemma mark_message_fixed chatId userId m :
  mark_message chatId userId (fst (mark_message chatId userId m))
  = (fst (mark_message chatId userId m), false).
Proof. mark_message_cases m; set_solver. Qed.

Lemma mark_message_unchanged chatId userId m :
  snd (mark_message chatId userId m) = false ->
  fst (mark_message chatId userId m) = m.
Proof. mark_message_cases m. Qed.

Lemma markChatAsRead_messages chatId userId d :
  messages (markChatAsRead chatId userId d)
  = map (λ m, fst (mark_message chatId userId m)) (messages d).
Proof.
  unfold markChatAsRead.
  destruct (existsb snd _) eqn:Hex; simpl.
  - by rewrite map_map.
  - induction (messages d) as [|m ms IH]; simpl in *; [done|].
    apply orb_false_elim in Hex as [Hm Hms].
    by rewrite (mark_message_unchanged _ _ _ Hm), <- IH.
Qed.

Lemma markChatAsRead_users_chats chatId userId d :
  users (markChatAsRead chatId userId d) = users d
  ∧ chats (markChatAsRead chatId userId d) = chats d.
Proof. unfold markChatAsRead. by case_match. Qed.

Lemma data_eq d d' :
  users d = users d' -> chats d = chats d' -> messages d = messages d' -> d = d'.
Proof. destruct d, d'. simpl. by intros -> -> ->. Qed.

Lemma markChatAsRead_idempotent chatId userId d :
  markChatAsRead chatId userId (markChatAsRead chatId userId d)
  = markChatAsRead chatId userId d.
Proof.
  set (d1 := markChatAsRead chatId userId d).
  unfold markChatAsRead at 1.
  assert (Hq : existsb snd (map (mark_message chatId userId) (messages d1))
               = false); [|by rewrite Hq].
  subst d1. rewrite markChatAsRead_messages.
  induction (messages d) as [|m ms IH]; simpl; [done|].
  by rewrite mark_message_fixed, IH.
Qed.

Lemma mark_message_grown chatId userId m :
  grown m (fst (mark_message chatId userId m)).
Proof.
  unfold grown, readBy_of. mark_message_cases m; repeat split; set_solver.
Qed.

Lemma mark_message_reader chatId userId m :
  m_chatId m = chatId ->
  ∃ r, m_readBy (fst (mark_message chatId userId m)) = Some r ∧ userId ∈ r.
Proof.
  mark_message_cases m; intros _; eexists; (split; [done|set_solver]).
Qed.

Lemma grown_refl m : grown m m.
Proof. by repeat split. Qed.

Lemma survivors_grow_same d d' :
  messages d' = messages d -> survivors_grow 0 d d'.
Proof.
  intros Hm i m Hi. exists m. rewrite Hm. split; [done|apply grown_refl].
Qed.

Lemma grown_trans m1 m2 m3 : grown m1 m2 -> grown m2 m3 -> grown m1 m3.
Proof.
  intros (Hi & Hc & Hs & Hr) (Hi' & Hc' & Hs' & Hr').
  repeat split; [congruence..|]. intros u Hu. by apply Hr', Hr.
Qed.

Lemma survivors_grow_trans k1 k2 d d1 d2 :
  survivors_grow k1 d d1 -> survivors_grow k2 d1 d2 ->
  survivors_grow (k1 + k2) d d2.
Proof.
  intros H1 H2 i m Hi.
  destruct (H1 (k2 + i)%nat m) as (m1 & Hm1 & Hg1).
  { by replace (k1 + (k2 + i))%nat with (k1 + k2 + i)%nat by lia. }
  destruct (H2 i m1 Hm1) as (m2 & Hm2 & Hg2).
  exists m2. split; [done|]. by apply (grown_trans _ m1).
Qed.

Lemma markChatAsRead_survivors chatId userId d :
  survivors_grow 0 d (markChatAsRead chatId userId d)
  ∧ length (messages (markChatAsRead chatId userId d)) = length (messages d).
Proof.
  split; [|by rewrite markChatAsRead_messages, length_map].
  intros i m Hi. simpl in Hi.
  exists (fst (mark_message chatId userId m)).
  rewrite markChatAsRead_messages, list_lookup_fmap, Hi.
  split; [done|apply mark_message_grown].
Qed.

Section ReadBy.
Context `{JsEnv}.

Lemma addMessage_readBy uuid now chatId senderId senderName text kind media d m d' :
  addMessage uuid now chatId senderId senderName text kind media d = inr (m, d') ->
  m_readBy m = Some [senderId]
  ∧ ∃ stored, last (messages d') = Some stored
              ∧ m_readBy stored = Some [senderId].
Proof.
  intros Hadd. split.
  - by apply addMessage_inr in Hadd as (? & ? & ? & -> & _ & -> & _).
  - eexists. split; [by apply (addMessage_stored _ _ _ _ _ _ _ _ _ _ _ Hadd)|done].
Qed.

Lemma createUser_messages uuid now name login email passwordHash d r d' :
  createUser uuid now name login email passwordHash d = inr (r, d') ->
  messages d' = messages d.
Proof.
  unfold createUser. intros Hrun. case_match; [done|]. by injection Hrun as _ <-.
Qed.

Lemma createOrGetDirectChat_messages uuid now1 now2 userA userB d r d' :
  createOrGetDirectChat uuid now1 now2 userA userB d = inr (r, d') ->
  messages d' = messages d.
Proof.
  unfold createOrGetDirectChat. intros Hrun.
  repeat case_match; try done; by injection Hrun as _ <-.
Qed.

Lemma addMessage_survivors uuid now chatId senderId senderName text kind media
    d m d' :
  addMessage uuid now chatId senderId senderName text kind media d = inr (m, d') ->
  survivors_grow (length (messages d) + 1 - Z.to_nat MAX_MESSAGES) d d'
  ∧ length (messages d')
    = ((length (messages d) + 1) `min` Z.to_nat MAX_MESSAGES)%nat.
Proof.
  intros Hrun.
  pose proof (addMessage_messages _ _ _ _ _ _ _ _ _ _ _ Hrun) as Hm.
  simpl in Hm. rewrite length_app in Hm. simpl in Hm. split.
  - intros i msg Hi. exists msg.
    rewrite Hm, lookup_drop. split; [|apply grown_refl].
    by apply lookup_app_l_Some.
  - rewrite Hm, length_drop, length_app. simpl. lia.
Qed.

Lemma store_step_survivors d d' :
  store_step d d' ->
  survivors_grow 0 d d'
  ∨ (MAX_MESSAGES <= Z.of_nat (length (messages d))
     ∧ Z.of_nat (length (messages d')) = MAX_MESSAGES
     ∧ survivors_grow (length (messages d) + 1 - Z.to_nat MAX_MESSAGES) d d').
Proof.
  intros Hstep. destruct Hstep as
    [uuid now name login email ph d r d' Hrun
    |uuid now1 now2 a b d r d' Hrun
    |uuid now chatId sid sname text kind media d r d' Hrun
    |chatId userId d].
  - left. apply survivors_grow_same. by apply createUser_messages in Hrun.
  - left. apply survivors_grow_same.
    by apply createOrGetDirectChat_messages in Hrun.
  - apply addMessage_survivors in Hrun as [Hgrow Hlen].
    destruct (decide (MAX_MESSAGES <= Z.of_nat (length (messages d))))
      as [Hfull|Hroom].
    + right. split; [done|]. split; [|done].
      rewrite Hlen. unfold MAX_MESSAGES in *. lia.
    + left.
      by replace (length (messages d) + 1 - Z.to_nat MAX_MESSAGES)%nat
        with 0%nat in Hgrow by (unfold MAX_MESSAGES in *; lia).
  - left. apply markChatAsRead_survivors.
Qed.

Lemma store_steps_survivors n d d' :
  store_steps n d d' ->
  Z.of_nat (length (messages d)) <= MAX_MESSAGES ->
  length (messages d')
  = ((length (messages d) + n) `min` Z.to_nat MAX_MESSAGES)%nat
  ∧ survivors_grow (length (messages d) + n - Z.to_nat MAX_MESSAGES) d d'.
Proof.
  intros Hrun Hcap.
  induction Hrun as
    [d
    |n d0 uuid now name login email ph d r d' Hrun IH Hop
    |n d0 uuid now1 now2 a b d r d' Hrun IH Hop
    |n d0 uuid now chatId sid sname text kind media d r d' Hrun IH Hop
    |n d0 chatId userId d Hrun IH].
  - split; [unfold MAX_MESSAGES in *; lia|].
    replace (length (messages d) + 0 - Z.to_nat MAX_MESSAGES)%nat with 0%nat
      by (unfold MAX_MESSAGES in *; lia).
    by apply survivors_grow_same.
  - destruct (IH Hcap) as [Hlen Hgrow].
    apply createUser_messages in Hop as Hm. rewrite Hm. split; [done|].
    intros i m Hi. rewrite Hm. by apply Hgrow.
  - destruct (IH Hcap) as [Hlen Hgrow].
    apply createOrGetDirectChat_messages in Hop as Hm. rewrite Hm.
    split; [done|]. intros i m Hi. rewrite Hm. by apply Hgrow.
  - destruct (IH Hcap) as [Hlen Hgrow].
    apply addMessage_survivors in Hop as [Hgrow' Hlen'].
    split; [rewrite Hlen', Hlen; unfold MAX_MESSAGES in *; lia|].
    pose proof (survivors_grow_trans _ _ _ _ _ Hgrow Hgrow') as Hall.
    replace (length (messages d0) + S n - Z.to_nat MAX_MESSAGES)%nat
      with (length (messages d0) + n - Z.to_nat MAX_MESSAGES
            + (length (messages d) + 1 - Z.to_nat MAX_MESSAGES))%nat
      by (rewrite Hlen; unfold MAX_MESSAGES in *; lia).
    exact Hall.
  - destruct (IH Hcap) as [Hlen Hgrow].
    destruct (markChatAsRead_survivors chatId userId d) as [Hgrow' Hlen'].
    split; [by rewrite Hlen'|].
    pose proof (survivors_grow_trans _ _ _ _ _ Hgrow Hgrow') as Hall.
    by rewrite Nat.add_0_r in Hall.
Qed.
End ReadBy.

(** C5. The message [addMessage] returns, and the one it stores, has
    [readBy] equal to the one-element list of the sender; applying
    [markChatAsRead] a second time with the same arguments gives the
    dataset the first application gave, so the same [readBy] on every
    message; [markChatAsRead] keeps every message in place with all its
    readers, whatever the size of the store; every single change of the
    store either keeps every message in place with all its readers, or,
    on a store that already holds [MAX_MESSAGES] messages or more, ends
    with exactly [MAX_MESSAGES] messages and evicts the
    [length + 1 - MAX_MESSAGES] oldest ones, every other message keeping
    its relative place and all its readers; and over any run of store
    operations that starts within the cap and adds [n] messages, exactly
    the [length + n - MAX_MESSAGES] oldest messages of the start (none
    when that is not positive) are evicted, and every other message of
    the start is still there, in order, with all the readers it had. *)
Theorem readBy_initial_idempotent_monotone `{JsEnv} :
  (∀ uuid now chatId senderId senderName text kind media d m d',
     addMessage uuid now chatId senderId senderName text kind media d
       = inr (m, d') ->
     m_readBy m = Some [senderId]
     ∧ ∃ stored, last (messages d') = Some stored
                 ∧ m_readBy stored = Some [senderId])
  ∧ (∀ chatId userId d,
       markChatAsRead chatId userId (markChatAsRead chatId userId d)
       = markChatAsRead chatId userId d)
  ∧ (∀ chatId userId d,
       survivors_grow 0 d (markChatAsRead chatId userId d)
       ∧ length (messages (markChatAsRead chatId userId d))
         = length (messages d))
  ∧ (∀ d d', store_step d d' ->
       survivors_grow 0 d d'
       ∨ (MAX_MESSAGES <= Z.of_nat (length (messages d))
          ∧ Z.of_nat (length (messages d')) = MAX_MESSAGES
          ∧ survivors_grow
              (length (messages d) + 1 - Z.to_nat MAX_MESSAGES) d d'))
  ∧ (∀ n d d', store_steps n d d' ->
       Z.of_nat (length (messages d)) <= MAX_MESSAGES ->
       length (messages d')
       = ((length (messages d) + n) `min` Z.to_nat MAX_MESSAGES)%nat
       ∧ survivors_grow
           (length (messages d) + n - Z.to_nat MAX_MESSAGES) d d').
Proof.
  split; [|split; [|split; [|split]]].
  - intros *. apply addMessage_readBy.
  - apply markChatAsRead_idempotent.
  - apply markChatAsRead_survivors.
  - apply store_step_survivors.
  - apply store_steps_survivors.
Qed.

Lemma inr_projections {A B C} (x : A + B * C) (b : B) (c : C) :
  (if x is inr _ then true else false) = true ->
  x = inr (match x with inr (y, _) => y | inl _ => b end,
           match x with inr (_, z) => z | inl _ => c end).
Proof. by destruct x as [?|[??]]. Qed.

(** An instance on a store at the cap: bob opens the sample chat and
    answers. The answer is stored with bob as its only reader, ann's
    first message is evicted, and each of the 2999 others has moved up by
    one place and kept ann as a reader. *)
Lemma readBy_initial_idempotent_monotone_witness :
  Z.of_nat (length (messages fullData)) <= MAX_MESSAGES
  ∧ (∃ m, fullRun = inr (m, fullAfter) ∧ m_readBy m = Some ["b1"])
  ∧ @store_steps codeUnitEnv 1 fullData fullAfter
  ∧ length (messages fullAfter) = 3000%nat
  ∧ survivors_grow 1 fullData fullAfter.
Proof.
  assert (Hcap : Z.of_nat (length (messages fullData)) <= MAX_MESSAGES)
    by (vm_compute; discriminate).
  assert (Hok : (if fullRun is inr _ then true else false) = true)
    by (vm_compute; reflexivity).
  pose proof (inr_projections fullRun
                (@newMessage codeUnitEnv "" "" "" "" "" JNull JNull JNull)
                fullData Hok) as Hrun.
  fold fullAfter in Hrun.
  set (m := match fullRun with inr (y, _) => y | inl _ => _ end) in Hrun.
  assert (Hsteps : @store_steps codeUnitEnv 1 fullData fullAfter).
  { exact (steps_addMessage _ _ _ _ _ _ _ _ _ _ _ _ _
             (steps_markChatAsRead _ _ "c1" "b1" _ (steps_done fullData))
             Hrun). }
  pose proof (@readBy_initial_idempotent_monotone codeUnitEnv)
    as (Hinit & _ & _ & _ & Hruns).
  destruct (Hruns 1%nat fullData fullAfter Hsteps Hcap) as [Hlen Hgrow].
  assert (Hk : (length (messages fullData) + 1 - Z.to_nat MAX_MESSAGES)%nat
               = 1%nat) by (vm_compute; reflexivity).
  assert (Hn : ((length (messages fullData) + 1) `min` Z.to_nat MAX_MESSAGES)%nat
               = 3000%nat) by (vm_compute; reflexivity).
  rewrite Hk in Hgrow. rewrite Hn in Hlen.
  split; [exact Hcap|]. split.
  - exists m. split; [exact Hrun|].
    exact (proj1 (Hinit _ _ _ _ _ _ _ _ _ _ _ Hrun)).
  - split; [exact Hsteps|]. split; [exact Hlen|exact Hgrow].
Defined.

(** ** Unread counts *)

Lemma sort_insert_perm {A} (cmp : A -> A -> Z) x l :
  sort_insert cmp x l ≡ₚ x :: l.
Proof.
  induction l as [|y l IH]; simpl; [done|].
  destruct (0 <? cmp x y); [|done].
  rewrite IH. apply Permutation_swap.
Qed.

Lemma js_sort_perm {A} (cmp : A -> A -> Z) l : js_sort cmp l ≡ₚ l.
Proof.
  induction l as [|x l IH]; simpl; [done|].
  by rewrite sort_insert_perm, IH.
Qed.

Lemma is_unread_spec chatId userId m :
  is_unread chatId userId m = true
  ↔ m_chatId m = chatId ∧ m_senderId m ≠ userId ∧ userId ∉ readBy_of m.
Proof.
  unfold is_unread, readBy_of, includes, str_eq.
  destruct m as [? ? ? ? ? ? ? ? [r|]]; simpl;
    repeat (case_bool_decide; simpl); split;
    try done; try (intros (? & ? & ?); done).
  intros _. repeat split; try done. apply not_elem_of_nil.
Qed.

Lemma length_filter_bool_Prop {A} (p : A -> bool) (P : A -> Prop)
    `{∀ x, Decision (P x)} (l : list A) :
  (∀ x, p x = true ↔ P x) ->
  length (List.filter p l) = length (filter P l).
Proof.
  intros Hp. induction l as [|x l IH]; simpl; [done|].
  rewrite filter_cons. destruct (p x) eqn:Hx; case_decide as HP; simpl.
  - by rewrite IH.
  - by apply Hp in Hx.
  - apply Hp in HP. congruence.
  - done.
Qed.

Lemma computeUnreadForChat_spec d chatId userId :
  computeUnreadForChat d chatId userId = unread_spec d chatId userId.
Proof.
  unfold computeUnreadForChat, unread_spec.
  apply length_filter_bool_Prop. intros m. apply is_unread_spec.
Qed.

Lemma length_filter_map_le {A} (P : A -> Prop) `{∀ x, Decision (P x)}
    (f : A -> A) (l : list A) :
  (∀ x, P (f x) -> P x) ->
  (length (filter P (map f l)) <= length (filter P l))%nat.
Proof.
  intros Hf. induction l as [|x l IH]; simpl; [done|].
  rewrite !filter_cons.
  destruct (decide (P (f x))) as [Hfx|Hfx], (decide (P x)) as [Hx|Hx];
    simpl; try lia.
  destruct Hx. by apply Hf.
Qed.

Lemma unread_spec_markChatAsRead_le chatId' userId' d chatId userId :
  (unread_spec (markChatAsRead chatId' userId' d) chatId userId
   <= unread_spec d chatId userId)%nat.
Proof.
  unfold unread_spec. rewrite markChatAsRead_messages.
  apply length_filter_map_le. intros m (Hc & Hs & Hr).
  destruct (mark_message_grown chatId' userId' m) as (_ & Hc' & Hs' & Hsub).
  rewrite Hc' in Hc. rewrite Hs' in Hs. repeat split; try done.
  intros Hin. by apply Hr, Hsub.
Qed.

Lemma unread_spec_markChatAsRead_zero chatId userId d :
  unread_spec (markChatAsRead chatId userId d) chatId userId = 0%nat.
Proof.
  unfold unread_spec. rewrite markChatAsRead_messages.
  induction (messages d) as [|m ms IH]; simpl; [done|].
  rewrite filter_cons. case_decide as Hm; [|done].
  destruct Hm as (Hc & _ & Hr).
  destruct (mark_message_grown chatId userId m) as (_ & Hc' & _ & _).
  rewrite Hc' in Hc.
  destruct (mark_message_reader chatId userId m Hc) as (r & Hr' & Hin).
  unfold readBy_of in Hr. rewrite Hr' in Hr. done.
Qed.

Section UnreadCount.
Context `{JsEnv}.

Lemma elem_of_listChatsForUser userId d s :
  s ∈ listChatsForUser userId d
  ↔ ∃ c, c ∈ chats d ∧ userId ∈ c_participantIds c ∧ s = summarize d userId c.
Proof.
  unfold listChatsForUser. rewrite js_sort_perm, list_elem_of_fmap.
  split.
  - intros (c & -> & Hc). exists c.
    apply list_elem_of_In, filter_In in Hc as [Hc Hin].
    apply list_elem_of_In in Hc. unfold isUserInChat, includes in Hin.
    by apply bool_decide_eq_true in Hin.
  - intros (c & Hc & Hin & ->). exists c. split; [done|].
    apply list_elem_of_In, filter_In. split; [by apply list_elem_of_In|].
    by apply bool_decide_eq_true.
Qed.

Lemma on_open_chat_store user payload w :
  store (snd (on_open_chat user payload w)) = store w
  ∨ ∃ chatId, store (snd (on_open_chat user payload w))
              = markChatAsRead chatId (su_id user) (store w).
Proof.
  unfold on_open_chat. case_match; [by left|].
  unfold mbind, M_bind, getStore. simpl.
  destruct (ensureChatAccess _ _ _) as [[st f]|c]; [by left|].
  right. eexists. simpl. by rewrite emitChatUpdated_run.
Qed.

Lemma post_chat_read_store userId chatId w :
  store (snd (post_chat_read userId chatId w)) = store w
  ∨ ∃ c u, store (snd (post_chat_read userId chatId w))
           = markChatAsRead c u (store w).
Proof.
  unfold post_chat_read.
  unfold mbind, M_bind, getStore. simpl.
  destruct (getUserById _ _) as [u|]; [|by left].
  destruct (ensureChatAccess _ _ _) as [[st f]|c]; [by left|].
  right. eexists _, _. simpl. by rewrite emitChatUpdated_run.
Qed.
End UnreadCount.

(** C4. The [unreadCount] that [listChatsForUser(U)] reports for a chat
    (and it reports every chat U takes part in) is the number of messages
    of that chat authored by someone other than U whose [readBy] does not
    contain U; after [markChatAsRead(c, U)] the count reported for c is
    zero; and [markChatAsRead], with any arguments, never increases the
    count of any chat for any user, nor does an [open_chat] command or a
    mark-read request. [listChatsForUser] and [listMessagesForChat] only
    compute a value from the dataset. *)
Theorem unread_count_reported `{JsEnv} :
  (∀ userId d s,
     s ∈ listChatsForUser userId d ->
     cs_unreadCount s = unread_spec d (cs_id s) userId)
  ∧ (∀ userId d c,
       c ∈ chats d -> userId ∈ c_participantIds c ->
       ∃ s, s ∈ listChatsForUser userId d ∧ cs_id s = c_id c)
  ∧ (∀ chatId userId d s,
       s ∈ listChatsForUser userId (markChatAsRead chatId userId d) ->
       cs_id s = chatId -> cs_unreadCount s = 0%nat)
  ∧ (∀ chatId' userId' d chatId userId,
       (unread_spec (markChatAsRead chatId' userId' d) chatId userId
        <= unread_spec d chatId userId)%nat)
  ∧ (∀ user payload w chatId userId,
       (unread_spec (store (exec (OpenChat user payload) w)) chatId userId
        <= unread_spec (store w) chatId userId)%nat)
  ∧ (∀ reader chat w chatId userId,
       (unread_spec (store (exec (MarkRead reader chat) w)) chatId userId
        <= unread_spec (store w) chatId userId)%nat).
Proof.
  repeat split.
  - intros userId d s Hs.
    apply elem_of_listChatsForUser in Hs as (c & _ & _ & ->).
    apply computeUnreadForChat_spec.
  - intros userId d c Hc Hin. exists (summarize d userId c).
    split; [|done]. apply elem_of_listChatsForUser. by exists c.
  - intros chatId userId d s Hs Hid.
    apply elem_of_listChatsForUser in Hs as (c & _ & _ & ->).
    simpl in *. rewrite Hid, computeUnreadForChat_spec.
    apply unread_spec_markChatAsRead_zero.
  - intros *. apply unread_spec_markChatAsRead_le.
  - intros user payload w chatId userId. simpl.
    destruct (on_open_chat_store user payload w) as [->|[c ->]]; [done|].
    apply unread_spec_markChatAsRead_le.
  - intros reader chat w chatId userId. simpl.
    destruct (post_chat_read_store reader chat w) as [->|(c & u & ->)]; [done|].
    apply unread_spec_markChatAsRead_le.
Qed.

(** An instance: bob has one unread message after ann has said hi. *)
Lemma unread_count_reported_witness :
  ∃ s,
    s ∈ @listChatsForUser codeUnitEnv "b1" greetedData
    ∧ cs_id s = "c1"
    ∧ cs_unreadCount s = unread_spec greetedData (cs_id s) "b1"
    ∧ cs_unreadCount s = 1%nat.
Proof.
  assert (∃ s, @listChatsForUser codeUnitEnv "b1" greetedData = [s]
               ∧ cs_id s = "c1" ∧ cs_unreadCount s = 1%nat)
    as (s & Hlist & Hid & Hcount)
    by (vm_compute; eexists; repeat split).
  assert (Hs : s ∈ @listChatsForUser codeUnitEnv "b1" greetedData)
    by (rewrite Hlist; apply list_elem_of_here).
  exists s. split; [exact Hs|]. split; [exact Hid|]. split; [|exact Hcount].
  exact (proj1 (@unread_count_reported codeUnitEnv) "b1" greetedData s Hs).
Defined.

(** ** Listing messages *)

Lemma filter_bool_Prop {A} (p : A -> bool) (P : A -> Prop)
    `{∀ x, Decision (P x)} (l : list A) :
  (∀ x, p x = true ↔ P x) -> List.filter p l = filter P l.
Proof.
  intros Hp. induction l as [|x l IH]; simpl; [done|].
  rewrite filter_cons. destruct (p x) eqn:Hx; case_decide as HP.
  - by rewrite IH.
  - by apply Hp in Hx.
  - apply Hp in HP. congruence.
  - done.
Qed.

Section ListMessages.
Context `{JsEnv}.

Lemma listMessagesForChat_limit chatId limit d :
  1 <= limit ->
  let own := filter (λ m, m_chatId m = chatId) (messages d) in
  listMessagesForChat chatId (Some limit) d
  = map normalizeMessage (drop (length own - Z.to_nat limit) own).
Proof.
  intros Hl own. unfold listMessagesForChat. simpl.
  rewrite (filter_bool_Prop _ (λ m, m_chatId m = chatId)).
  - fold own. rewrite Z.max_r by done. by rewrite js_slice_from_neg by lia.
  - intros m. unfold str_eq. apply bool_decide_eq_true.
Qed.

Lemma listMessagesForChat_low_limit chatId limit d :
  limit < 1 ->
  listMessagesForChat chatId (Some limit) d
  = listMessagesForChat chatId (Some 1) d.
Proof.
  intros Hl. unfold listMessagesForChat. simpl. by rewrite Z.max_l by lia.
Qed.

Lemma getChatById_id chatId d c :
  getChatById chatId d = Some c -> c_id c = chatId.
Proof.
  unfold getChatById, js_find, str_eq. intros Hfind.
  apply find_some in Hfind as [_ Hid]. by apply bool_decide_eq_true in Hid.
Qed.

Lemma get_chat_messages_ok userId chatId d ms :
  get_chat_messages userId chatId d
    = {| resp_status := 200; resp_body := MessagesBody ms |} ->
  ms = listMessagesForChat chatId (Some 300) d.
Proof.
  unfold get_chat_messages, ensureChatAccess.
  destruct (getUserById userId d) as [u|]; [|done].
  destruct (getChatById chatId d) as [c|] eqn:Hc; [|done].
  apply getChatById_id in Hc.
  destruct (negb _); [done|]. intros [= <-]. by rewrite Hc.
Qed.

Lemma get_chat_messages_member userId chatId d u c :
  getUserById userId d = Some u ->
  getChatById chatId d = Some c ->
  u_id u ∈ c_participantIds c ->
  get_chat_messages userId chatId d
  = {| resp_status := 200;
       resp_body := MessagesBody (listMessagesForChat chatId (Some 300) d) |}.
Proof.
  intros Hu Hc Hin. unfold get_chat_messages, ensureChatAccess.
  rewrite Hu, Hc. unfold isUserInChat, includes.
  rewrite bool_decide_eq_true_2 by done. simpl.
  by rewrite (getChatById_id _ _ _ Hc).
Qed.
End ListMessages.

(** C9, as stated, fails: asked for the most recent 0 messages of a chat
    that holds one message, [listMessagesForChat] returns that message. *)
Lemma listMessagesForChat_zero_limit_counterexample :
  length (filter (λ m, m_chatId m = "c1") (messages greetedData)) = 1%nat
  ∧ length (@listMessagesForChat codeUnitEnv "c1" (Some 0) greetedData) = 1%nat
  ∧ @listMessagesForChat codeUnitEnv "c1" (Some 0) greetedData
    ≠ map (@normalizeMessage codeUnitEnv)
          (take 0 (filter (λ m, m_chatId m = "c1") (messages greetedData))).
Proof. vm_compute. by repeat split. Qed.

(** C9 (amended). For every chat id and every limit of at least 1,
    [listMessagesForChat] returns the most recent [limit] messages of the
    chat (all of them when fewer exist), in storage order, which is the
    order of creation, each as [normalizeMessage] presents it; a limit
    below 1 is treated as 1 and an omitted limit as 200; and the body of
    a successful answer of the HTTP endpoint is the listing of the
    requested chat with limit 300, that is the most recent 300 messages
    of that chat, so at most 300 of them, and an existing user who takes
    part in the requested chat gets that answer. *)
Theorem listMessagesForChat_most_recent `{JsEnv} :
  (∀ chatId limit d,
     1 <= limit ->
     let own := filter (λ m, m_chatId m = chatId) (messages d) in
     listMessagesForChat chatId (Some limit) d
     = map normalizeMessage (drop (length own - Z.to_nat limit) own)
     ∧ length (listMessagesForChat chatId (Some limit) d)
       = (length own `min` Z.to_nat limit)%nat)
  ∧ (∀ chatId limit d,
       limit < 1 ->
       listMessagesForChat chatId (Some limit) d
       = listMessagesForChat chatId (Some 1) d)
  ∧ (∀ chatId d,
       listMessagesForChat chatId None d
       = listMessagesForChat chatId (Some 200) d)
  ∧ (∀ userId chatId d ms,
       get_chat_messages userId chatId d
         = {| resp_status := 200; resp_body := MessagesBody ms |} ->
       let own := filter (λ m, m_chatId m = chatId) (messages d) in
       ms = listMessagesForChat chatId (Some 300) d
       ∧ ms = map normalizeMessage (drop (length own - 300) own)
       ∧ (length ms <= 300)%nat)
  ∧ (∀ userId chatId d u c,
       getUserById userId d = Some u ->
       getChatById chatId d = Some c ->
       u_id u ∈ c_participantIds c ->
       get_chat_messages userId chatId d
       = {| resp_status := 200;
            resp_body :=
              MessagesBody (listMessagesForChat chatId (Some 300) d) |}).
Proof.
  split; [|split; [|split; [|split]]].
  - intros chatId limit d Hl own.
    rewrite (listMessagesForChat_limit chatId limit d Hl). fold own.
    split; [done|]. rewrite length_map, length_drop. lia.
  - apply listMessagesForChat_low_limit.
  - done.
  - intros userId chatId d ms Hok own.
    apply get_chat_messages_ok in Hok as ->. split; [done|].
    rewrite listMessagesForChat_limit by lia. fold own.
    change (Z.to_nat 300) with 300%nat. split; [done|].
    rewrite length_map, length_drop. lia.
  - apply get_chat_messages_member.
Qed.

(** An instance: bob asks the HTTP endpoint for the sample chat, which
    holds ann's message, and gets the listing of that chat. *)
Lemma listMessagesForChat_most_recent_witness :
  ∃ ms,
    @get_chat_messages codeUnitEnv "b1" "c1" greetedData
      = {| resp_status := 200; resp_body := MessagesBody ms |}
    ∧ length ms = 1%nat
    ∧ ms = @listMessagesForChat codeUnitEnv "c1" (Some 300) greetedData
    ∧ ms = map (@normalizeMessage codeUnitEnv)
             (drop (length (filter (λ m, m_chatId m = "c1")
                              (messages greetedData)) - 300)
                   (filter (λ m, m_chatId m = "c1") (messages greetedData))).
Proof.
  assert (∃ ms, @get_chat_messages codeUnitEnv "b1" "c1" greetedData
                  = {| resp_status := 200; resp_body := MessagesBody ms |}
                ∧ length ms = 1%nat)
    as (ms & Hok & Hlen)
    by (vm_compute; eexists; split; reflexivity).
  exists ms. split; [exact Hok|]. split; [exact Hlen|].
  pose proof (proj1 (proj2 (proj2 (proj2
                (@listMessagesForChat_most_recent codeUnitEnv))))
                "b1" "c1" greetedData ms Hok) as (Hlist & Hrecent & _).
  split; [exact Hlist|exact Hrecent].
Defined.

(** ** The call registry *)

Lemma map_get_delete k m : map_get k (map_delete k m) = None.
Proof.
  unfold map_get, map_delete.
  induction m as [|[k' v] m IH]; simpl; [done|].
  destruct (str_eq k' k) eqn:Hk; simpl; [done|]. by rewrite Hk.
Qed.

Lemma map_get_delete_None k k' m :
  map_get k m = None -> map_get k (map_delete k' m) = None.
Proof.
  unfold map_get, map_delete.
  induction m as [|[k0 v] m IH]; simpl; [done|].
  destruct (str_eq k0 k) eqn:Hk; simpl; [done|]. intros Hm.
  destruct (str_eq k0 k'); simpl; [auto|]. rewrite Hk. auto.
Qed.

Lemma map_get_set_eq k v m : map_get k (map_set k v m) = Some v.
Proof.
  unfold map_get. induction m as [|[k' v'] m IH]; simpl.
  - unfold str_eq. by rewrite bool_decide_eq_true_2.
  - destruct (str_eq k' k) eqn:Hk; simpl.
    + unfold str_eq. by rewrite bool_decide_eq_true_2.
    + by rewrite Hk.
Qed.

Lemma map_get_set_ne k k' v m :
  k ≠ k' -> map_get k (map_set k' v m) = map_get k m.
Proof.
  intros Hne. unfold map_get. induction m as [|[k0 v0] m IH]; simpl.
  - unfold str_eq. by rewrite bool_decide_eq_false_2.
  - unfold str_eq in *. case_bool_decide as Hk0; simpl.
    + subst k0. by rewrite !bool_decide_eq_false_2.
    + by case_bool_decide.
Qed.

Lemma map_set_same k v m : map_get k m = Some v -> map_set k v m = m.
Proof.
  unfold map_get. induction m as [|[k' v'] m IH]; simpl; [done|].
  unfold str_eq in *. case_bool_decide as Hk; simpl.
  - intros [= ->]. by subst k'.
  - intros Hm. by rewrite IH.
Qed.

Lemma map_get_Some_elem k v m : map_get k m = Some v -> (k, v) ∈ m.
Proof.
  unfold map_get. induction m as [|[k' v'] m IH]; simpl; [done|].
  unfold str_eq in *. case_bool_decide as Hk; simpl.
  - intros [= ->]. subst k'. apply list_elem_of_here.
  - intros Hm. by apply list_elem_of_further, IH.
Qed.

Lemma calls_wf_delete k m : calls_wf m -> calls_wf (map_delete k m).
Proof.
  unfold calls_wf, map_delete. rewrite !Forall_forall.
  intros Hwf kv Hin. apply list_elem_of_In, filter_In in Hin as [Hin _].
  by apply Hwf, list_elem_of_In.
Qed.

Lemma calls_wf_set k v m :
  call_id v = k -> calls_wf m -> calls_wf (map_set k v m).
Proof.
  intros Hv. unfold calls_wf.
  induction m as [|[k' v'] m IH]; simpl; intros Hwf.
  - by repeat constructor.
  - apply Forall_cons in Hwf as [Hhd Htl].
    destruct (str_eq k' k); constructor; auto.
Qed.

Lemma calls_wf_get k c m : calls_wf m -> map_get k m = Some c -> call_id c = k.
Proof.
  intros Hwf Hget. apply map_get_Some_elem in Hget.
  unfold calls_wf in Hwf. rewrite Forall_forall in Hwf.
  by apply (Hwf (k, c)).
Qed.

(** ** Call handlers, read as functions of the world *)

Lemma endCall_run callId reason endedBy w :
  endCall callId reason endedBy w
  = match map_get callId (activeCalls w) with
    | None => (None, w)
    | Some c =>
        (Some c,
         {| store := store w;
            activeCalls := map_delete callId (activeCalls w);
            effects := effects w
              ++ map (λ u, Emit (user_room u)
                             (call_ended (call_id c) (call_chatId c)
                                (str_or reason "ended") endedBy))
                     (call_participantIds c) |})
    end.
Proof.
  unfold endCall, getCallById, mbind, M_bind, getCalls, mret, M_ret. simpl.
  destruct (map_get callId (activeCalls w)) as [c|]; simpl; [|done].
  by rewrite emitCallEvent_run.
Qed.

Lemma on_call_answer_run user payload w :
  on_call_answer user payload w
  = let callId := trimmed_field payload "callId" in
    match map_get callId (activeCalls w) with
    | None => (AckError CallNotFound, w)
    | Some c =>
        if negb (includes (call_participantIds c) (su_id user))
        then (AckError CallForbidden, w)
        else if negb (truthy (js_get payload "accepted"))
        then (AckOk,
              {| store := store w;
                 activeCalls := map_delete (call_id c) (activeCalls w);
                 effects := effects w
                   ++ map (λ u, Emit (user_room u) (answered c user false))
                          (call_participantIds c) |})
        else (AckOk,
              {| store := store w;
                 activeCalls :=
                   map_set callId (set_status Active c) (activeCalls w);
                 effects := effects w
                   ++ map (λ u, Emit (user_room u) (answered c user true))
                          (call_participantIds c) |})
    end.
Proof.
  unfold on_call_answer, getCallById, mbind, M_bind, getCalls, mret, M_ret.
  simpl.
  destruct (map_get _ (activeCalls w)) as [c|]; simpl; [|done].
  destruct (negb (includes _ _)); simpl; [done|].
  destruct (negb (truthy _)); simpl; by rewrite emitCallEvent_run.
Qed.

Lemma on_call_end_run user payload w :
  on_call_end user payload w
  = let callId := trimmed_field payload "callId" in
    match map_get callId (activeCalls w) with
    | None => (AckError CallNotFound, w)
    | Some c =>
        if negb (includes (call_participantIds c) (su_id user))
        then (AckError CallForbidden, w)
        else (AckOk,
              {| store := store w;
                 activeCalls := map_delete callId (activeCalls w);
                 effects := effects w
                   ++ map (λ u, Emit (user_room u)
                                  (call_ended (call_id c) (call_chatId c)
                                     "ended" (Some (su_id user))))
                          (call_participantIds c) |})
    end.
Proof.
  unfold on_call_end, getCallById.
  unfold mbind at 1 2, M_bind at 1 2, getCalls, mret, M_ret. simpl.
  destruct (map_get _ (activeCalls w)) as [c|] eqn:Hget; simpl; [|done].
  destruct (negb (includes _ _)); simpl; [done|].
  unfold mbind, M_bind. by rewrite endCall_run, Hget.
Qed.

Lemma relay_run event field user payload w :
  relay event field user payload w
  = let callId := trimmed_field payload "callId" in
    let toUserId := trimmed_field payload "toUserId" in
    match map_get callId (activeCalls w) with
    | None => (AckError CallNotFound, w)
    | Some c =>
        if negb (includes (call_participantIds c) (su_id user))
           || negb (includes (call_participantIds c) toUserId)
        then (AckError CallForbidden, w)
        else (AckOk,
              {| store := store w;
                 activeCalls := activeCalls w;
                 effects := effects w
                   ++ [Emit (user_room toUserId)
                            (event callId (su_id user) (js_get payload field))] |})
    end.
Proof.
  unfold relay, getCallById, mbind, M_bind, getCalls, mret, M_ret. simpl.
  destruct (map_get _ (activeCalls w)) as [c|]; simpl; [|done].
  by destruct (_ || _).
Qed.

Lemma relay_relays event field : relays (relay event field) event field.
Proof.
  intros user payload w c callId toUserId Hget. subst callId toUserId.
  rewrite relay_run. cbv zeta. rewrite Hget.
  unfold includes. split.
  - intros [Hu|Hu].
    + by rewrite (bool_decide_eq_false_2 _ Hu).
    + rewrite (bool_decide_eq_false_2 _ Hu). by rewrite orb_true_r.
  - intros Hu Ht. by rewrite !bool_decide_eq_true_2.
Qed.

(** C7. Each of the three relay handlers, on an existing call, replies
    with the no-access failure and does nothing else when the sender or
    the named recipient is not among the call's participants; otherwise
    it replies ok and emits exactly one notification, to the recipient's
    user room, carrying the call id, the sender's id and the payload
    field untouched. *)
Theorem webrtc_relay_guarded :
  relays on_webrtc_offer webrtc_offer "sdp"
  ∧ relays on_webrtc_answer webrtc_answer "sdp"
  ∧ relays on_webrtc_ice_candidate webrtc_ice_candidate "candidate".
Proof. split; [|split]; apply relay_relays. Qed.

(** An instance: ann sends bob an offer on the ringing call. *)
Lemma webrtc_relay_guarded_witness :
  ∃ c,
    map_get "k1" (activeCalls ringingWorld) = Some c
    ∧ "a1" ∈ call_participantIds c
    ∧ "b1" ∈ call_participantIds c
    ∧ on_webrtc_offer annSession offerPayload ringingWorld
      = (AckOk,
         {| store := store ringingWorld;
            activeCalls := activeCalls ringingWorld;
            effects := effects ringingWorld
              ++ [Emit "user:b1" (webrtc_offer "k1" "a1" (JStr "v=0"))] |}).
Proof.
  assert (∃ c, map_get "k1" (activeCalls ringingWorld) = Some c
               ∧ call_participantIds c = ["a1"; "b1"]) as (c & Hget & Hp)
    by (vm_compute; by eexists).
  assert (Ha : "a1" ∈ call_participantIds c) by (rewrite Hp; set_solver).
  assert (Hb : "b1" ∈ call_participantIds c) by (rewrite Hp; set_solver).
  exists c. split; [exact Hget|]. split; [exact Ha|]. split; [exact Hb|].
  exact (proj2 (proj1 webrtc_relay_guarded annSession offerPayload
                  ringingWorld c Hget) Ha Hb).
Defined.

(** ** What a command does to the call registry *)

Section StoreCommands.
Context `{JsEnv}.

Lemma sendMessageAndBroadcast_calls uuid now chatId senderId senderName
    kind text media w :
  activeCalls (snd (sendMessageAndBroadcast uuid now chatId senderId
                      senderName kind text media w))
  = activeCalls w.
Proof.
  destruct (sendMessageAndBroadcast _ _ _ _ _ _ _ _ w) as [[e|m] w'] eqn:Hrun.
  - by apply sendMessageAndBroadcast_inl in Hrun as [-> _].
  - by apply sendMessageAndBroadcast_inr in Hrun as (d' & _ & _ & Hcalls).
Qed.

Lemma on_send_message_calls uuid now user payload w :
  activeCalls (snd (on_send_message uuid now user payload w)) = activeCalls w.
Proof.
  unfold on_send_message. case_match; [done|]. case_match; [done|].
  unfold mbind, M_bind, getStore, mret, M_ret. simpl.
  destruct (ensureChatAccess _ _ _) as [[st f]|c]; [done|].
  pose proof (sendMessageAndBroadcast_calls uuid now (c_id c) (su_id user)
    (su_name user)
    (JStr (normalizeMessageKind (js_get payload "kind")
             (js_get (js_get payload "media") "mimeType")))
    (JStr (sanitizeText (js_or (js_get payload "text") (JStr ""))))
    (if truthy (js_get payload "media") && is_object_type (js_get payload "media")
     then js_get payload "media" else JNull) w) as Hcalls.
  destruct (sendMessageAndBroadcast _ _ _ _ _ _ _ _ w) as [[e|m] w']; done.
Qed.

Lemma remove_upload_calls file w :
  activeCalls (snd (remove_upload file w)) = activeCalls w.
Proof.
  unfold remove_upload. destruct file as [f|]; [|done]. by case_match.
Qed.

Lemma post_chat_upload_calls uuid now userId chatId file form w :
  activeCalls (snd (post_chat_upload uuid now userId chatId file form w))
  = activeCalls w.
Proof.
  unfold post_chat_upload.
  unfold mbind, M_bind, getStore, mret, M_ret. simpl.
  destruct (getUserById userId (store w)) as [u|]; [|done].
  destruct (ensureChatAccess _ _ _) as [[st f]|c]; simpl.
  { apply remove_upload_calls. }
  destruct file as [f|]; [|done].
  match goal with
  | |- context [sendMessageAndBroadcast ?a ?b ?c ?d ?e ?k ?t ?m w] =>
      pose proof (sendMessageAndBroadcast_calls a b c d e k t m w) as Hcalls;
      destruct (sendMessageAndBroadcast a b c d e k t m w) as [[e0|m0] w']
  end; simpl in *; [|done].
  rewrite <- Hcalls. apply (remove_upload_calls (Some f) w').
Qed.
End StoreCommands.

Lemma on_open_chat_calls user payload w :
  activeCalls (snd (on_open_chat user payload w)) = activeCalls w.
Proof.
  unfold on_open_chat. case_match; [done|].
  unfold mbind, M_bind, getStore. simpl.
  destruct (ensureChatAccess _ _ _) as [[st f]|c]; [done|].
  simpl. by rewrite emitChatUpdated_run.
Qed.

Lemma post_chat_read_calls userId chatId w :
  activeCalls (snd (post_chat_read userId chatId w)) = activeCalls w.
Proof.
  unfold post_chat_read. unfold mbind, M_bind, getStore. simpl.
  destruct (getUserById _ _) as [u|]; [|done].
  destruct (ensureChatAccess _ _ _) as [[st f]|c]; [done|].
  simpl. by rewrite emitChatUpdated_run.
Qed.

Lemma relay_calls event field user payload w :
  activeCalls (snd (relay event field user payload w)) = activeCalls w.
Proof.
  rewrite relay_run. cbv zeta.
  destruct (map_get _ _) as [c|]; [|done]. by destruct (_ || _).
Qed.

Lemma on_call_invite_calls uuid now user payload w :
  activeCalls (snd (on_call_invite uuid now user payload w)) = activeCalls w
  ∨ ∃ c, call_id c = uuid
         ∧ activeCalls (snd (on_call_invite uuid now user payload w))
           = map_set uuid c (activeCalls w).
Proof.
  unfold on_call_invite. case_match; [by left|].
  unfold createCall, mbind, M_bind, getStore, getCalls, mret, M_ret. simpl.
  destruct (ensureChatAccess _ _ _) as [[st f]|c]; [by left|].
  destruct (getChatById _ _) as [c'|]; simpl; [|by left].
  right. rewrite emitCallEvent_run. simpl.
  eexists. split; [|reflexivity]. done.
Qed.

Lemma invited_ids_cons c cs :
  invited_ids (c :: cs) = invited_ids [c] ++ invited_ids cs.
Proof. unfold invited_ids. simpl. by destruct c. Qed.

Section RegistryPreserved.
Context `{JsEnv}.
Variable P : callMap -> Prop.
Variable allowed : string -> Prop.
Hypothesis P_delete : ∀ k m, P m -> P (map_delete k m).
Hypothesis P_update :
  ∀ k c m, P m -> map_get k m = Some c -> P (map_set k (set_status Active c) m).
Hypothesis P_create :
  ∀ k c m, allowed k -> call_id c = k -> P m -> P (map_set k c m).

Lemma endCall_preserves callId reason endedBy w :
  P (activeCalls w) -> P (activeCalls (snd (endCall callId reason endedBy w))).
Proof.
  intros HP. rewrite endCall_run.
  destruct (map_get _ _) as [c|]; simpl; auto.
Qed.

Lemma on_disconnect_preserves user w :
  P (activeCalls w) -> P (activeCalls (snd (on_disconnect user w))).
Proof.
  unfold on_disconnect. unfold mbind at 1, M_bind at 1, getCalls. simpl.
  generalize (List.filter (λ c, includes (call_participantIds c) (su_id user))
                (map_values (activeCalls w))).
  intros l. revert w. induction l as [|c l IH]; intros w HP; simpl; [done|].
  unfold mbind at 1, M_bind at 1. apply IH.
  destruct (call_status c); unfold mbind, M_bind, mret, M_ret; simpl;
    by apply endCall_preserves.
Qed.

Lemma exec_preserves c w :
  (∀ k, k ∈ invited_ids [c] -> allowed k) ->
  P (activeCalls w) -> P (activeCalls (exec c w)).
Proof.
  intros Hfresh HP.
  destruct c as [uuid now usr payload|usr payload|uuid now usr payload
                |usr payload|usr payload|usr payload|usr payload|usr payload
                |usr|userId chatId|uuid now userId chatId file form]; simpl.
  - by rewrite on_send_message_calls.
  - by rewrite on_open_chat_calls.
  - destruct (on_call_invite_calls uuid now usr payload w)
      as [->|(c & Hc & ->)]; [done|].
    apply P_create; [|done..]. apply Hfresh. simpl. set_solver.
  - rewrite on_call_answer_run. cbv zeta.
    destruct (map_get _ _) as [c|] eqn:Hget; [|done].
    destruct (negb (includes _ _)); [done|].
    destruct (negb (truthy _)); simpl; auto.
  - rewrite on_call_end_run. cbv zeta.
    destruct (map_get _ _) as [c|]; [|done].
    destruct (negb (includes _ _)); simpl; auto.
  - unfold on_webrtc_offer. by rewrite relay_calls.
  - unfold on_webrtc_answer. by rewrite relay_calls.
  - unfold on_webrtc_ice_candidate. by rewrite relay_calls.
  - by apply on_disconnect_preserves.
  - by rewrite post_chat_read_calls.
  - by rewrite post_chat_upload_calls.
Qed.

Lemma exec_all_preserves cs : ∀ w,
  (∀ k, k ∈ invited_ids cs -> allowed k) ->
  P (activeCalls w) -> P (activeCalls (exec_all cs w)).
Proof.
  induction cs as [|c cs IH]; intros w Hfresh HP; simpl; [done|].
  rewrite invited_ids_cons in Hfresh.
  apply IH.
  - intros k Hk. apply Hfresh, elem_of_app. by right.
  - apply exec_preserves; [|done].
    intros k Hk. apply Hfresh, elem_of_app. by left.
Qed.
End RegistryPreserved.

Section CallLifecycle.
Context `{JsEnv}.

Lemma exec_all_calls_wf cs w :
  calls_wf (activeCalls w) -> calls_wf (activeCalls (exec_all cs w)).
Proof.
  apply (exec_all_preserves calls_wf (λ _, True)); [| | |done].
  - intros k m. apply calls_wf_delete.
  - intros k c m Hwf Hget. apply calls_wf_set; [|done].
    simpl. by apply (calls_wf_get k c m).
  - intros k c m _ Hc. by apply calls_wf_set.
Qed.

Lemma exec_all_stays_removed callId cs w :
  callId ∉ invited_ids cs ->
  map_get callId (activeCalls w) = None ->
  map_get callId (activeCalls (exec_all cs w)) = None.
Proof.
  intros Hfresh.
  apply (exec_all_preserves (λ m, map_get callId m = None) (λ k, k ≠ callId)).
  - intros k m. apply map_get_delete_None.
  - intros k c m Hnone Hget. rewrite map_get_set_ne; [done|].
    intros ->. congruence.
  - intros k c m Hk _ Hnone. by rewrite map_get_set_ne.
  - intros k Hk ->. done.
Qed.

Lemma set_status_same c : call_status c = Active -> set_status Active c = c.
Proof. destruct c. simpl. by intros ->. Qed.
End CallLifecycle.

(** C8. In every world the server reaches the registry files each call
    under its own id. In such a world, when a participant of an existing
    call answers it with a falsy [accepted], the handler replies ok, the
    only effects are one [call_answered] notification with
    [accepted: false] to the user room of each participant of the call,
    and the call is removed from the registry; after any further run of
    commands that does not generate that call id again, [call_answer] and
    [call_end] on that id reply call not found. *)
Theorem declined_call_is_removed `{JsEnv} :
  (∀ cs, calls_wf (activeCalls (exec_all cs initialWorld)))
  ∧ ∀ user payload w c,
      let callId := trimmed_field payload "callId" in
      calls_wf (activeCalls w) ->
      map_get callId (activeCalls w) = Some c ->
      su_id user ∈ call_participantIds c ->
      truthy (js_get payload "accepted") = false ->
      ∃ w',
        on_call_answer user payload w = (AckOk, w')
        ∧ store w' = store w
        ∧ effects w'
          = effects w
            ++ map (λ u, Emit (user_room u)
                           (call_answered callId (call_chatId c) false
                              (su_id user) (su_name user) None None))
                   (call_participantIds c)
        ∧ activeCalls w' = map_delete callId (activeCalls w)
        ∧ map_get callId (activeCalls w') = None
        ∧ ∀ cs user' payload',
            callId ∉ invited_ids cs ->
            trimmed_field payload' "callId" = callId ->
            fst (on_call_answer user' payload' (exec_all cs w'))
              = AckError CallNotFound
            ∧ fst (on_call_end user' payload' (exec_all cs w'))
              = AckError CallNotFound.
Proof.
  split.
  { intros cs. apply exec_all_calls_wf. constructor. }
  intros user payload w c callId Hwf Hget Hin Hacc.
  pose proof (calls_wf_get _ _ _ Hwf Hget) as Hid.
  eexists. rewrite on_call_answer_run. cbv zeta. fold callId.
  rewrite Hget. unfold includes. rewrite bool_decide_eq_true_2 by done.
  rewrite Hacc. simpl. split; [reflexivity|]. simpl.
  unfold answered. rewrite Hid.
  split; [done|]. split; [done|]. split; [done|].
  split; [apply map_get_delete|].
  intros cs user' payload' Hfresh Hcid.
  rewrite on_call_answer_run, on_call_end_run. cbv zeta. rewrite Hcid.
  rewrite exec_all_stays_removed; [done|done|]. simpl. apply map_get_delete.
Qed.

(** An instance: bob declines the ringing call, ann invites again, and
    ann then tries to end the declined call. *)
Lemma declined_call_is_removed_witness :
  calls_wf (activeCalls ringingWorld)
  ∧ (∃ c, map_get "k1" (activeCalls ringingWorld) = Some c
          ∧ "b1" ∈ call_participantIds c)
  ∧ truthy (js_get declinePayload "accepted") = false
  ∧ ∃ w',
      on_call_answer bobSession declinePayload ringingWorld = (AckOk, w')
      ∧ map_get "k1" (activeCalls w') = None
      ∧ fst (on_call_end annSession declinePayload
               (@exec_all codeUnitEnv
                  [CallInvite "k2" "2024-01-05T00:00:00.000Z" annSession
                     invitePayload] w'))
        = AckError CallNotFound.
Proof.
  assert (Hwf : calls_wf (activeCalls ringingWorld))
    by (vm_compute; repeat constructor).
  assert (∃ c, map_get (trimmed_field declinePayload "callId")
                 (activeCalls ringingWorld) = Some c
               ∧ call_participantIds c = ["a1"; "b1"]) as (c & Hget & Hp)
    by (vm_compute; by eexists).
  assert (Hin : su_id bobSession ∈ call_participantIds c)
    by (rewrite Hp; set_solver).
  assert (Hacc : truthy (js_get declinePayload "accepted") = false)
    by reflexivity.
  split; [exact Hwf|]. split; [by exists c|]. split; [exact Hacc|].
  destruct (proj2 (@declined_call_is_removed codeUnitEnv) bobSession
              declinePayload ringingWorld c Hwf Hget Hin Hacc)
    as (w' & Hrun & _ & _ & _ & Hnone & Hlater).
  exists w'. split; [exact Hrun|]. split; [exact Hnone|].
  assert (Hfresh : trimmed_field declinePayload "callId"
                   ∉ invited_ids [CallInvite "k2" "2024-01-05T00:00:00.000Z"
                                    annSession invitePayload])
    by (intros Hk%list_elem_of_singleton; vm_compute in Hk; discriminate).
  exact (proj2 (Hlater _ annSession declinePayload Hfresh eq_refl)).
Defined.

(** C10. When a participant of a call whose status is already active
    answers it with a truthy [accepted], the handler does not fail: it
    replies ok, emits [call_answered] with [accepted: true], the room
    address and the kind to the user room of each participant, and
    leaves the registry, hence the call and its active status, as it
    was. *)
Theorem accept_on_active_call_succeeds user payload w c :
  let callId := trimmed_field payload "callId" in
  map_get callId (activeCalls w) = Some c ->
  call_status c = Active ->
  su_id user ∈ call_participantIds c ->
  truthy (js_get payload "accepted") = true ->
  on_call_answer user payload w
  = (AckOk,
     {| store := store w;
        activeCalls := activeCalls w;
        effects := effects w
          ++ map (λ u, Emit (user_room u)
                         (call_answered (call_id c) (call_chatId c) true
                            (su_id user) (su_name user)
                            (Some (call_roomUrl c)) (Some (call_kind c))))
                 (call_participantIds c) |})
  ∧ ∃ c', map_get callId (activeCalls (snd (on_call_answer user payload w)))
            = Some c'
          ∧ call_status c' = Active.
Proof.
  intros callId Hget Hactive Hin Hacc.
  rewrite on_call_answer_run. cbv zeta. fold callId.
  rewrite Hget. unfold includes. rewrite bool_decide_eq_true_2 by done.
  rewrite Hacc. simpl.
  rewrite (set_status_same c Hactive), (map_set_same _ _ _ Hget).
  split; [done|]. by exists c.
Qed.

(** An instance: ann accepts the call bob has already accepted. *)
Lemma accept_on_active_call_succeeds_witness :
  ∃ c,
    map_get "k1" (activeCalls activeWorld) = Some c
    ∧ call_status c = Active
    ∧ "a1" ∈ call_participantIds c
    ∧ truthy (js_get acceptPayload "accepted") = true
    ∧ fst (on_call_answer annSession acceptPayload activeWorld) = AckOk
    ∧ activeCalls (snd (on_call_answer annSession acceptPayload activeWorld))
      = activeCalls activeWorld.
Proof.
  assert (∃ c, map_get (trimmed_field acceptPayload "callId")
                 (activeCalls activeWorld) = Some c
               ∧ call_status c = Active
               ∧ call_participantIds c = ["a1"; "b1"])
    as (c & Hget & Hactive & Hp)
    by (vm_compute; by eexists).
  assert (Hin : su_id annSession ∈ call_participantIds c)
    by (rewrite Hp; set_solver).
  assert (Hacc : truthy (js_get acceptPayload "accepted") = true)
    by reflexivity.
  exists c. split; [exact Hget|]. split; [exact Hactive|].
  split; [exact Hin|]. split; [exact Hacc|].
  destruct (accept_on_active_call_succeeds annSession acceptPayload
              activeWorld c Hget Hactive Hin Hacc) as [Hrun _].
  rewrite Hrun. split; reflexivity.
Defined.

(** * Further properties *)

(** ** Strings *)

Lemma list_ascii_of_string_toLowerCase s :
  list_ascii_of_string (toLowerCase s) = map lower_ascii (list_ascii_of_string s).
Proof. induction s as [|a s IH]; simpl; [done|]. by rewrite IH. Qed.

Lemma string_of_list_ascii_lower l :
  string_of_list_ascii (map lower_ascii l) = toLowerCase (string_of_list_ascii l).
Proof. induction l as [|a l IH]; simpl; [done|]. by rewrite IH. Qed.

Lemma lower_ascii_idemp a : lower_ascii (lower_ascii a) = lower_ascii a.
Proof. destruct a as [[] [] [] [] [] [] [] []]; reflexivity. Qed.

Lemma is_ws_lower_ascii a : is_ws (lower_ascii a) = is_ws a.
Proof. destruct a as [[] [] [] [] [] [] [] []]; reflexivity. Qed.

Lemma toLowerCase_idemp s : toLowerCase (toLowerCase s) = toLowerCase s.
Proof.
  induction s as [|a s IH]; simpl; [done|]. by rewrite lower_ascii_idemp, IH.
Qed.

Lemma trim_start_lower l :
  trim_start (map lower_ascii l) = map lower_ascii (trim_start l).
Proof.
  induction l as [|a l IH]; simpl; [done|].
  rewrite is_ws_lower_ascii. by destruct (is_ws a).
Qed.

Lemma trim_toLowerCase s : trim (toLowerCase s) = toLowerCase (trim s).
Proof.
  unfold trim. rewrite list_ascii_of_string_toLowerCase.
  rewrite trim_start_lower, <- map_rev, trim_start_lower, <- map_rev.
  apply string_of_list_ascii_lower.
Qed.

Lemma clean_start_trim_start l : clean_start (trim_start l).
Proof.
  induction l as [|a l IH]; simpl; [done|].
  destruct (is_ws a) eqn:Ha; [done|]. simpl. done.
Qed.

Lemma trim_start_clean l : clean_start l -> trim_start l = l.
Proof. destruct l as [|a l]; simpl; [done|]. by intros ->. Qed.

Lemma trim_start_suffix l : ∃ p, l = p ++ trim_start l.
Proof.
  induction l as [|a l [p IH]]; simpl; [by exists []|].
  destruct (is_ws a); [|by exists []].
  exists (a :: p). simpl. by rewrite <- IH.
Qed.

Lemma clean_start_rev_trim l :
  clean_start l -> clean_start (rev (trim_start (rev l))).
Proof.
  intros Hl. destruct (trim_start_suffix (rev l)) as [p Hp].
  apply (f_equal (@rev ascii)) in Hp. rewrite rev_involutive, rev_app_distr in Hp.
  destruct (rev (trim_start (rev l))) as [|x r]; [done|].
  rewrite Hp in Hl. done.
Qed.

Lemma trim_idemp s : trim (trim s) = trim s.
Proof.
  unfold trim. rewrite list_ascii_of_string_of_list_ascii.
  set (a := trim_start (list_ascii_of_string s)).
  pose proof (clean_start_trim_start (list_ascii_of_string s)) as Ha. fold a in Ha.
  rewrite (trim_start_clean _ (clean_start_rev_trim a Ha)).
  rewrite rev_involutive.
  by rewrite (trim_start_clean _ (clean_start_trim_start (rev a))).
Qed.

Lemma js_String_or_empty s : js_String (js_or (JStr s) (JStr "")) = s.
Proof. unfold js_or. simpl. by case_bool_decide. Qed.

Lemma normalizeLogin_idemp v :
  normalizeLogin (JStr (normalizeLogin v)) = normalizeLogin v.
Proof.
  unfold normalizeLogin at 1. rewrite js_String_or_empty.
  unfold normalizeLogin.
  by rewrite trim_toLowerCase, trim_idemp, toLowerCase_idemp.
Qed.

(** ** Chats with oneself *)

(** X1. [createOrGetDirectChat] throws exactly when the two users are the
    same, whatever the dataset and whatever [localeCompare] answers, and
    what it throws is the self-chat failure. *)
Theorem createOrGetDirectChat_fails_iff_self `{JsEnv} uuid now1 now2 a b d :
  ((∃ e, createOrGetDirectChat uuid now1 now2 a b d = inl e) ↔ a = b)
  ∧ (∀ e, createOrGetDirectChat uuid now1 now2 a b d = inl e -> e = SelfChat).
Proof.
  unfold createOrGetDirectChat. rewrite normalizePair_cases. unfold str_eq.
  split.
  - split.
    + intros [e He]. destruct (decide (a = b)) as [|Hne]; [done|]. exfalso.
      destruct (0 <? localeCompare a b);
        rewrite bool_decide_eq_false_2 in He by done;
        by destruct (findDirectChat _ _ _).
    + intros ->. exists SelfChat.
      destruct (0 <? localeCompare b b); by rewrite bool_decide_eq_true_2.
  - intros e.
    destruct (0 <? localeCompare a b); case_bool_decide;
      try destruct (findDirectChat _ _ _); by intros [= <-].
Qed.

(** ** Logins *)

Section Logins.
Context `{JsEnv}.

Lemma createUser_inr uuid now name login email passwordHash d r d' :
  createUser uuid now name login email passwordHash d = inr (r, d') ->
  ∃ u,
    users d' = users d ++ [u]
    ∧ chats d' = chats d ∧ messages d' = messages d
    ∧ u_id u = uuid
    ∧ u_login u = Some (normalizeLogin (js_or login name))
    ∧ u_name u = trim (js_String (js_or name (JStr "")))
    ∧ r = toPublicUser u
    ∧ ∀ u0, u0 ∈ users d -> login_key u0 ≠ normalizeLogin (js_or login name).
Proof.
  unfold createUser. intros Hrun.
  destruct (js_find _ (users d)) as [u0|] eqn:Hfind; [done|].
  injection Hrun as <- <-. eexists. repeat split.
  intros u0 Hin Hkey.
  pose proof (find_none _ _ Hfind u0) as Hnone.
  rewrite list_elem_of_In in Hin. specialize (Hnone Hin).
  unfold login_key in Hkey. unfold str_eq in Hnone.
  by rewrite bool_decide_eq_true_2 in Hnone.
Qed.

Lemma login_key_created u key :
  key ≠ "" -> normalizeLogin (JStr key) = key -> u_login u = Some key ->
  login_key u = key.
Proof.
  intros Hne Hidem Hl. unfold login_key, login_or_name, str_or.
  rewrite Hl. simpl. by rewrite bool_decide_eq_false_2.
Qed.

Lemma find_snoc_last {A} (p : A -> bool) (l : list A) (x : A) :
  (∀ y, y ∈ l -> p y = false) -> p x = true ->
  List.find p (l ++ [x]) = Some x.
Proof.
  intros Hl Hx. rewrite find_snoc, Hx.
  destruct (List.find p l) as [y|] eqn:Hfind; [|done].
  apply find_some in Hfind as [Hin Hy].
  rewrite (Hl y) in Hy; [done|]. by apply list_elem_of_In.
Qed.

Lemma keyed_reachable_unique_logins d :
  keyed_reachable d -> unique_logins d.
Proof.
  induction 1 as [|uuid now name login email ph d r d' _ IH Hkey Hrun
                 |d d' _ IH _ Husers].
  - constructor.
  - apply createUser_inr in Hrun
      as (u & Hu & _ & _ & _ & Hl & _ & _ & Hfresh).
    unfold unique_logins. rewrite Hu, map_app. simpl.
    apply NoDup_app. split; [done|]. split; [|apply NoDup_singleton].
    intros k Hk Hk'. apply list_elem_of_singleton in Hk'.
    apply list_elem_of_fmap in Hk as (u0 & -> & Hin).
    apply (Hfresh u0 Hin). rewrite Hk'.
    apply login_key_created; [done|apply normalizeLogin_idemp|done].
  - unfold unique_logins. by rewrite Husers.
Qed.
End Logins.

(** X2. When [createUser] succeeds under a login key that is not blank
    (the key is the login, or the name when the login is falsy, trimmed
    and lower-cased), then in the new dataset [getUserByName] finds the
    created user under every spelling with that key, a further
    [createUser] under any such spelling throws the login-taken failure,
    and in every dataset reached by creating users under non-blank keys
    no two users share a key. *)
Theorem createUser_login_unique `{JsEnv} :
  (∀ uuid now name login email passwordHash d r d',
     createUser uuid now name login email passwordHash d = inr (r, d') ->
     let key := normalizeLogin (js_or login name) in
     key ≠ "" ->
     (∀ spelling, normalizeLogin spelling = key ->
        ∃ u, getUserByName spelling d' = Some u ∧ u_id u = uuid)
     ∧ (∀ uuid' now' name' login' email' passwordHash',
          normalizeLogin (js_or login' name') = key ->
          createUser uuid' now' name' login' email' passwordHash' d'
          = inl LoginTaken))
  ∧ (∀ d, keyed_reachable d -> unique_logins d).
Proof.
  split; [|apply keyed_reachable_unique_logins].
  intros uuid now name login email ph d r d' Hrun key Hkey.
  apply createUser_inr in Hrun as (u & Hu & _ & _ & Hid & Hl & _ & _ & Hfresh).
  fold key in Hl, Hfresh.
  assert (Hku : login_key u = key).
  { apply login_key_created; [done|apply normalizeLogin_idemp|done]. }
  assert (Hfind : ∀ k, k = key ->
            js_find (λ u0, str_eq (normalizeLogin (JStr (login_or_name u0))) k)
              (users d') = Some u).
  { intros k ->. rewrite Hu. apply find_snoc_last.
    - intros u0 Hin. unfold str_eq. apply bool_decide_eq_false_2.
      by apply Hfresh.
    - unfold str_eq. by apply bool_decide_eq_true_2. }
  split.
  - intros spelling Hs. exists u. split; [|done].
    unfold getUserByName. by apply Hfind.
  - intros uuid' now' name' login' email' ph' Hk'.
    unfold createUser. by rewrite (Hfind _ Hk').
Qed.

(** An instance: ann registers on the empty dataset and is found again
    under another spelling of her name. *)
Lemma createUser_login_unique_witness :
  ∃ r d',
    createUser "a1" "2024-01-01T00:00:00.000Z" (JStr "Ann") (JStr "Ann") JNull
      None initialData = inr (r, d')
    ∧ normalizeLogin (js_or (JStr "Ann") (JStr "Ann")) ≠ ""
    ∧ normalizeLogin (JStr "  ANN ") = normalizeLogin (js_or (JStr "Ann") (JStr "Ann"))
    ∧ ∃ u, getUserByName (JStr "  ANN ") d' = Some u ∧ u_id u = "a1".
Proof.
  assert (∃ r d', createUser "a1" "2024-01-01T00:00:00.000Z" (JStr "Ann")
                    (JStr "Ann") JNull None initialData = inr (r, d'))
    as (r & d' & Hrun) by (vm_compute; by eexists _, _).
  assert (Hkey : normalizeLogin (js_or (JStr "Ann") (JStr "Ann")) ≠ "")
    by (vm_compute; discriminate).
  assert (Hs : normalizeLogin (JStr "  ANN ")
               = normalizeLogin (js_or (JStr "Ann") (JStr "Ann")))
    by (vm_compute; reflexivity).
  exists r, d'. split; [exact Hrun|]. split; [exact Hkey|]. split; [exact Hs|].
  exact (proj1 (proj1 (@createUser_login_unique codeUnitEnv)
                  _ _ _ _ _ _ _ _ _ Hrun Hkey) _ Hs).
Defined.

(** ** Searching users *)

(** X3. [searchUsers] answers nothing to a query that is blank once
    trimmed; otherwise it returns at most 20 users, never the excluded
    one, each matching the lower-cased query in its name, login key or
    email, in storage order. *)
Theorem searchUsers_bounded query excludeUserId d :
  let q := toLowerCase (trim (js_String (js_or query (JStr "")))) in
  (q = "" -> searchUsers query excludeUserId d = [])
  ∧ (length (searchUsers query excludeUserId d) <= 20)%nat
  ∧ (∀ r, r ∈ searchUsers query excludeUserId d ->
       pu_id r ≠ excludeUserId
       ∧ ∃ u, u ∈ users d ∧ r = toPublicUser u ∧ matches_query q u = true)
  ∧ searchUsers query excludeUserId d `sublist_of` map toPublicUser (users d).
Proof.
  intros q. unfold searchUsers. fold q. unfold str_eq.
  split; [by intros ->|].
  case_bool_decide as Hq.
  { split; [simpl; lia|]. split; [by intros r ?%elem_of_nil|].
    apply sublist_nil_l. }
  split; [rewrite length_map, length_take; lia|]. split.
  - intros r Hr. apply list_elem_of_fmap in Hr as (u & -> & Hu).
    apply elem_of_take in Hu as (i & Hu & _).
    apply list_elem_of_lookup_2, list_elem_of_In, filter_In in Hu as [Hu Hm].
    apply filter_In in Hu as [Hu Hex].
    apply negb_true_iff, bool_decide_eq_false in Hex.
    split; [done|]. exists u. by rewrite list_elem_of_In.
  - apply fmap_sublist. etrans; [apply sublist_take|].
    set (p := λ u, negb (bool_decide (u_id u = excludeUserId))).
    generalize (users d). intros l.
    induction l as [|u l IH]; simpl; [done|].
    destruct (p u); simpl; [destruct (matches_query q u)|];
      by constructor.
Qed.

(** An instance: ann cannot open a chat with herself. *)
Lemma createOrGetDirectChat_fails_iff_self_witness :
  ∃ e, @createOrGetDirectChat codeUnitEnv "c9" "t1" "t2" "a1" "a1" sampleData
       = inl e.
Proof.
  exact (proj2 (proj1 (@createOrGetDirectChat_fails_iff_self codeUnitEnv
                         "c9" "t1" "t2" "a1" "a1" sampleData)) eq_refl).
Defined.

(** An instance: bob searches for "AN" and finds ann. *)
Lemma searchUsers_bounded_witness :
  ∃ r, r ∈ searchUsers (JStr " AN") "b1" sampleData
       ∧ pu_id r = "a1" ∧ pu_id r ≠ "b1".
Proof.
  assert (∃ r, searchUsers (JStr " AN") "b1" sampleData = [r] ∧ pu_id r = "a1")
    as (r & Hlist & Hid) by (vm_compute; by eexists).
  assert (Hr : r ∈ searchUsers (JStr " AN") "b1" sampleData)
    by (rewrite Hlist; apply list_elem_of_here).
  exists r. split; [exact Hr|]. split; [exact Hid|].
  exact (proj1 (proj1 (proj2 (proj2 (searchUsers_bounded (JStr " AN") "b1"
                                       sampleData))) r Hr)).
Defined.

(** ** What every reachable dataset looks like *)

Lemma normalizeKind_valid kind md : normalizeKind kind md ∈ MESSAGE_KINDS.
Proof.
  unfold normalizeKind, includes. case_bool_decide; [done|].
  unfold MESSAGE_KINDS. destruct md; set_solver.
Qed.

Lemma getChatById_is_Some chatId d :
  is_Some (getChatById chatId d) ↔ ∃ c, c ∈ chats d ∧ c_id c = chatId.
Proof.
  unfold getChatById, js_find, str_eq. split.
  - intros [c Hc]. apply find_some in Hc as [Hin Hid].
    exists c. split; [by apply list_elem_of_In|].
    by apply bool_decide_eq_true in Hid.
  - intros (c & Hin & Hid).
    destruct (List.find _ (chats d)) as [c'|] eqn:Hfind; [by eexists|].
    apply list_elem_of_In in Hin.
    pose proof (find_none _ _ Hfind c Hin) as Hc. simpl in Hc.
    by rewrite bool_decide_eq_true_2 in Hc.
Qed.

Lemma mark_message_wf chatId userId m :
  let m' := fst (mark_message chatId userId m) in
  m_kind m' = m_kind m ∧ m_chatId m' = m_chatId m
  ∧ m_senderId m' = m_senderId m
  ∧ ∀ r, m_readBy m = Some r ->
         ∃ r', m_readBy m' = Some r' ∧ ∀ u, u ∈ r -> u ∈ r'.
Proof.
  mark_message_cases m; repeat split; try done;
    intros r' [= <-]; eexists; (split; [done|set_solver]).
Qed.

Section ReachableShape.
Context `{JsEnv}.

Lemma store_step_chat_ids d d' c :
  store_step d d' -> c ∈ chats d -> ∃ c', c' ∈ chats d' ∧ c_id c' = c_id c.
Proof.
  intros Hstep Hin. destruct Hstep as
    [uuid now name login email ph d r d' Hrun
    |uuid now1 now2 a b d r d' Hrun
    |uuid now chatId sid sname text kind media d r d' Hrun
    |chatId userId d].
  - apply createUser_inr in Hrun as (u & _ & -> & _). by exists c.
  - unfold createOrGetDirectChat in Hrun.
    repeat case_match; try done; injection Hrun as _ <-; exists c;
      (split; [|done]); simpl; set_solver.
  - apply addMessage_inr in Hrun as (i & c0 & msg & _ & Hfind & _ & _ & -> & _).
    apply list_elem_of_lookup in Hin as [j Hj].
    destruct (decide (j = i)) as [->|Hne].
    + apply list_find_Some in Hfind as (Hi & _ & _).
      assert (c = c0) as -> by congruence.
      exists (set_updatedAt now c0). split; [|done].
      apply list_elem_of_lookup. exists i.
      apply list_lookup_insert_eq. by eapply lookup_lt_Some.
    + exists c. split; [|done]. apply list_elem_of_lookup. exists j.
      by rewrite list_lookup_insert_ne.
  - exists c. by rewrite (proj2 (markChatAsRead_users_chats chatId userId d)).
Qed.

Lemma store_step_chat_wf d d' :
  store_step d d' -> Forall chat_wf (chats d) -> Forall chat_wf (chats d').
Proof.
  intros Hstep Hwf. destruct Hstep as
    [uuid now name login email ph d r d' Hrun
    |uuid now1 now2 a b d r d' Hrun
    |uuid now chatId sid sname text kind media d r d' Hrun
    |chatId userId d].
  - by apply createUser_inr in Hrun as (u & _ & -> & _).
  - unfold createOrGetDirectChat, str_eq in Hrun.
    destruct (normalizePair a b) as [|f [|s l]]; try done.
    case_bool_decide as Hfs; [done|].
    destruct (findDirectChat _ _ _); injection Hrun as _ <-; [done|].
    simpl. apply Forall_app. split; [done|]. constructor; [|done].
    split; [done|]. by exists f, s.
  - apply addMessage_inr in Hrun as (i & c0 & msg & _ & Hfind & _ & _ & -> & _).
    apply list_find_Some in Hfind as (Hi & _ & _).
    apply Forall_insert; [done|].
    rewrite Forall_forall in Hwf. apply (Hwf c0).
    by eapply list_elem_of_lookup_2.
  - by rewrite (proj2 (markChatAsRead_users_chats chatId userId d)).
Qed.

Lemma store_step_message_wf d d' :
  store_step d d' ->
  Forall (message_wf d) (messages d) -> Forall (message_wf d') (messages d').
Proof.
  intros Hstep Hwf.
  assert (Hkeep : ∀ m, message_wf d m -> message_wf d' m).
  { intros m (Hr & Hk & Hc). repeat split; try done.
    apply getChatById_is_Some in Hc as (c & Hin & Hid).
    destruct (store_step_chat_ids d d' c Hstep Hin) as (c' & Hin' & Hid').
    apply getChatById_is_Some. exists c'. split; [done|congruence]. }
  rewrite Forall_forall in Hwf. apply Forall_forall. intros m' Hin'.
  destruct Hstep as
    [uuid now name login email ph d r d' Hrun
    |uuid now1 now2 a b d r d' Hrun
    |uuid now chatId sid sname text kind media d r d' Hrun
    |chatId userId d].
  - apply Hkeep, Hwf.
    by apply createUser_inr in Hrun as (u & _ & _ & <- & _).
  - apply Hkeep, Hwf. unfold createOrGetDirectChat in Hrun.
    repeat case_match; try done; by injection Hrun as _ <-.
  - pose proof (addMessage_messages _ _ _ _ _ _ _ _ _ _ _ Hrun) as Hm.
    simpl in Hm. rewrite Hm in Hin'.
    apply subseteq_drop, elem_of_app in Hin' as [Hold|Hnew].
    + by apply Hkeep, Hwf.
    + apply list_elem_of_singleton in Hnew as ->.
      split; [|split].
      * exists [sid]. split; [done|]. apply list_elem_of_here.
      * apply normalizeKind_valid.
      * simpl.
        destruct (addMessage_updatedAt _ _ _ _ _ _ _ _ _ _ _ Hrun)
          as (c & -> & _). by eexists.
  - rewrite markChatAsRead_messages in Hin'.
    apply list_elem_of_fmap in Hin' as (m & -> & Hin).
    destruct (Hkeep m (Hwf m Hin)) as ((r & Hr & Hs) & Hk & Hc).
    destruct (mark_message_wf chatId userId m) as (Hk' & Hc' & Hs' & Hr').
    destruct (Hr' r Hr) as (r' & Hr2 & Hsub).
    split; [|split].
    + exists r'. split; [done|]. rewrite Hs'. by apply Hsub.
    + by rewrite Hk'.
    + by rewrite Hc'.
Qed.
End ReachableShape.

(** X4. In every dataset the store can reach, every chat is a direct chat
    between exactly two distinct users, and every message has a [readBy]
    array that contains its sender, a kind among the six message kinds,
    and a chat id that resolves to a chat of the dataset. *)
Theorem store_reachable_shape `{JsEnv} d :
  store_reachable d ->
  Forall chat_wf (chats d) ∧ Forall (message_wf d) (messages d).
Proof.
  induction 1 as [|d d' _ [IHc IHm] Hstep]; [by split; constructor|].
  split.
  - by apply (store_step_chat_wf d d').
  - by apply (store_step_message_wf d d').
Qed.

Lemma sampleData_reachable : @store_reachable codeUnitEnv sampleData.
Proof.
  set (d1 := {| users := [ann]; chats := []; messages := [] |}).
  set (d2 := {| users := [ann; bob]; chats := []; messages := [] |}).
  assert (H1 : @store_reachable codeUnitEnv d1).
  { apply (reach_step initialData); [constructor|].
    apply (step_createUser "a1" "2024-01-01T00:00:00.000Z" (JStr "ann")
             (JStr "ann") JNull None initialData (toPublicUser ann)).
    vm_compute. reflexivity. }
  assert (H2 : @store_reachable codeUnitEnv d2).
  { apply (reach_step d1); [exact H1|].
    apply (step_createUser "b1" "2024-01-01T00:00:01.000Z" (JStr "bob")
             (JStr "bob") JNull None d1 (toPublicUser bob)).
    vm_compute. reflexivity. }
  apply (reach_step d2); [exact H2|].
  apply (step_createOrGetDirectChat "c1" "2024-01-02T00:00:00.000Z"
           "2024-01-02T00:00:00.000Z" "b1" "a1" d2 chat_c1).
  vm_compute. reflexivity.
Defined.

Lemma greetedData_reachable : @store_reachable codeUnitEnv greetedData.
Proof.
  apply (reach_step sampleData); [exact sampleData_reachable|].
  apply (step_addMessage "m1" "2024-01-03T00:00:00.000Z" "c1" "a1" "ann"
           (JStr "hi") (JStr "text") JNull sampleData
           (@normalizeMessage codeUnitEnv
              (@newMessage codeUnitEnv "m1" "2024-01-03T00:00:00.000Z" "c1"
                 "a1" "ann" (JStr "hi") (JStr "text") JNull))).
  vm_compute. reflexivity.
Defined.

(** An instance: the dataset after ann has said hi. *)
Lemma store_reachable_shape_witness :
  @store_reachable codeUnitEnv greetedData
  ∧ Forall chat_wf (chats greetedData)
  ∧ Forall (message_wf greetedData) (messages greetedData).
Proof.
  split; [exact greetedData_reachable|].
  exact (@store_reachable_shape codeUnitEnv greetedData greetedData_reachable).
Defined.

(** ** Precision of [markChatAsRead] *)

Lemma mark_message_precise chatId userId m :
  let m' := fst (mark_message chatId userId m) in
  (m_chatId m ≠ chatId -> m' = m)
  ∧ (m_chatId m = chatId ->
     ∃ r, m' = set_readBy r m
          ∧ (∀ u, u ∈ r ↔ u ∈ readBy_of m ∨ u = userId)
          ∧ (NoDup (readBy_of m) -> NoDup r)).
Proof.
  unfold readBy_of. mark_message_cases m; split; try done; intros _;
    eexists; (split; [reflexivity|]); simpl.
  - split; [|done]. intros u. split; [by left|]. by intros [?| ->].
  - split.
    + intros u. rewrite elem_of_app, list_elem_of_singleton. tauto.
    + intros Hnd. apply NoDup_app. split; [done|].
      split; [|apply NoDup_singleton].
      by intros u Hu ->%list_elem_of_singleton.
  - split; [|intros _; apply NoDup_singleton].
    intros u. rewrite list_elem_of_singleton. split; [by right|].
    by intros [?%elem_of_nil|].
Qed.

(** X5. [markChatAsRead(chatId, userId)] leaves users and chats as they
    are and keeps every message in its place: a message of another chat
    is untouched, and a message of the chat differs at most in [readBy],
    whose members afterwards are the previous ones and [userId], with no
    reader listed twice if none was before. *)
Theorem markChatAsRead_precise chatId userId d :
  let d' := markChatAsRead chatId userId d in
  users d' = users d
  ∧ chats d' = chats d
  ∧ length (messages d') = length (messages d)
  ∧ ∀ (i : nat) m, messages d !! i = Some m ->
      ∃ m', messages d' !! i = Some m'
        ∧ (m_chatId m ≠ chatId -> m' = m)
        ∧ (m_chatId m = chatId ->
           ∃ r, m' = set_readBy r m
                ∧ (∀ u, u ∈ r ↔ u ∈ readBy_of m ∨ u = userId)
                ∧ (NoDup (readBy_of m) -> NoDup r)).
Proof.
  intros d'. subst d'.
  destruct (markChatAsRead_users_chats chatId userId d) as [Hu Hc].
  split; [done|]. split; [done|].
  rewrite markChatAsRead_messages. split; [by rewrite length_map|].
  intros i m Hi. exists (fst (mark_message chatId userId m)).
  rewrite list_lookup_fmap, Hi. split; [done|].
  apply mark_message_precise.
Qed.

(** An instance: bob reads the chat in which ann has said hi. *)
Lemma markChatAsRead_precise_witness :
  ∃ m m',
    messages greetedData !! 0%nat = Some m
    ∧ m_chatId m = "c1"
    ∧ messages (markChatAsRead "c1" "b1" greetedData) !! 0%nat = Some m'
    ∧ ∃ r, m' = set_readBy r m
           ∧ ∀ u, u ∈ r ↔ u ∈ readBy_of m ∨ u = "b1".
Proof.
  assert (∃ m, messages greetedData !! 0%nat = Some m ∧ m_chatId m = "c1")
    as (m & Hm & Hc) by (vm_compute; by eexists).
  destruct (proj2 (proj2 (proj2 (markChatAsRead_precise "c1" "b1" greetedData)))
              0%nat m Hm) as (m' & Hm' & _ & Hin).
  destruct (Hin Hc) as (r & Hr & Hmem & _).
  exists m, m'. split; [exact Hm|]. split; [exact Hc|]. split; [exact Hm'|].
  exists r. split; [exact Hr|exact Hmem].
Defined.

(** ** A new message and the unread counts *)

Section NewMessageUnread.
Context `{JsEnv}.

Lemma addMessage_appends uuid now chatId senderId senderName text kind media d m d' :
  addMessage uuid now chatId senderId senderName text kind media d = inr (m, d') ->
  Z.of_nat (length (messages d)) < MAX_MESSAGES ->
  messages d'
  = messages d ++ [newMessage uuid now chatId senderId senderName text kind media].
Proof.
  intros Hadd Hlen.
  rewrite (addMessage_messages _ _ _ _ _ _ _ _ _ _ _ Hadd).
  rewrite length_app. simpl.
  replace (length (messages d) + 1 - Z.to_nat MAX_MESSAGES)%nat with 0%nat by lia.
  apply drop_0.
Qed.
End NewMessageUnread.

(** X6. When [addMessage] succeeds on a dataset holding fewer than
    [MAX_MESSAGES] messages, the unread count of the chat rises by one for
    every user other than the sender and stays as it was for the sender,
    and the counts of all other chats stay as they were. *)
Theorem addMessage_unread `{JsEnv} uuid now chatId senderId senderName text
    kind media d m d' :
  addMessage uuid now chatId senderId senderName text kind media d = inr (m, d') ->
  Z.of_nat (length (messages d)) < MAX_MESSAGES ->
  (∀ userId, userId ≠ senderId ->
     unread_spec d' chatId userId = S (unread_spec d chatId userId))
  ∧ unread_spec d' chatId senderId = unread_spec d chatId senderId
  ∧ (∀ other userId, other ≠ chatId ->
       unread_spec d' other userId = unread_spec d other userId).
Proof.
  intros Hadd Hlen.
  pose proof (addMessage_appends _ _ _ _ _ _ _ _ _ _ _ Hadd Hlen) as Hm.
  unfold unread_spec. rewrite Hm.
  split; [|split].
  - intros userId Hne. rewrite filter_app, length_app, filter_cons_True.
    + simpl. lia.
    + unfold readBy_of. simpl. split; [done|]. split; [done|].
      by intros ?%list_elem_of_singleton.
  - rewrite filter_app, length_app, filter_cons_False.
    + simpl. lia.
    + simpl. tauto.
  - intros other userId Hne. rewrite filter_app, length_app, filter_cons_False.
    + simpl. lia.
    + simpl. intros [Hc _]. by destruct Hne.
Qed.

(** An instance: after ann has said hi, bob has one unread message. *)
Lemma addMessage_unread_witness :
  ∃ m,
    @addMessage codeUnitEnv "m1" "2024-01-03T00:00:00.000Z" "c1" "a1" "ann"
      (JStr "hi") (JStr "text") JNull sampleData = inr (m, greetedData)
    ∧ Z.of_nat (length (messages sampleData)) < MAX_MESSAGES
    ∧ unread_spec greetedData "c1" "b1" = S (unread_spec sampleData "c1" "b1").
Proof.
  assert (∃ m, @addMessage codeUnitEnv "m1" "2024-01-03T00:00:00.000Z" "c1"
                 "a1" "ann" (JStr "hi") (JStr "text") JNull sampleData
               = inr (m, greetedData)) as (m & Hadd)
    by (vm_compute; by eexists).
  assert (Hlen : Z.of_nat (length (messages sampleData)) < MAX_MESSAGES)
    by (vm_compute; reflexivity).
  assert (Hne : "b1" ≠ "a1") by done.
  exists m. split; [exact Hadd|]. split; [exact Hlen|].
  exact (proj1 (@addMessage_unread codeUnitEnv _ _ _ _ _ _ _ _ _ _ _ Hadd Hlen)
           "b1" Hne).
Defined.

(** ** Normal form of a message *)

Lemma normalizeKind_fixed k md :
  k ∈ MESSAGE_KINDS -> normalizeKind (JStr k) md = k.
Proof.
  unfold MESSAGE_KINDS. rewrite !elem_of_cons, elem_of_nil.
  intros [->|[->|[->|[->|[->|[->|[]]]]]]]; reflexivity.
Qed.

Lemma str_or_null_trim_fixed v :
  let f := str_or_null (trim (js_String (js_or v (JStr "")))) in
  str_or_null (trim (js_String (js_or (opt_str f) (JStr "")))) = f.
Proof.
  simpl. unfold str_or_null at 2 3.
  case_bool_decide as Hf; simpl.
  - unfold js_or. simpl. reflexivity.
  - unfold js_or. simpl. rewrite bool_decide_eq_false_2 by done. simpl.
    rewrite trim_idemp. unfold str_or_null. by rewrite bool_decide_eq_false_2.
Qed.

Section NormalForm.
Context `{JsEnv}.

Lemma normalizeMedia_media_value m0 :
  normalizeMedia (media_value m0)
  = if bool_decide (trim (md_url m0) = "") then None
    else Some
      {| md_url := trim (md_url m0);
         md_fileName :=
           str_or_null (trim (js_String (js_or (opt_str (md_fileName m0)) (JStr ""))));
         md_mimeType :=
           str_or_null (trim (js_String (js_or (opt_str (md_mimeType m0)) (JStr ""))));
         md_size := finite_or_null (opt_num (md_size m0));
         md_durationSec := finite_or_null (opt_num (md_durationSec m0));
         md_width := finite_or_null (opt_num (md_width m0));
         md_height := finite_or_null (opt_num (md_height m0)) |}.
Proof. unfold normalizeMedia. simpl. by rewrite js_String_or_empty. Qed.

Lemma finite_or_null_fixed x :
  finite_or_null (opt_num (finite_or_null (opt_num x)))
  = finite_or_null (opt_num x).
Proof. by destruct x. Qed.

Lemma normalizeMedia_stored_fixed o :
  normalizeMedia (opt_media_value (normalizeMedia (opt_media_value o)))
  = normalizeMedia (opt_media_value o).
Proof.
  destruct o as [m0|]; [|reflexivity].
  simpl. rewrite normalizeMedia_media_value.
  case_bool_decide as Hurl; [reflexivity|].
  simpl. rewrite normalizeMedia_media_value. simpl.
  rewrite trim_idemp, bool_decide_eq_false_2 by done.
  pose proof (str_or_null_trim_fixed (opt_str (md_fileName m0))) as Hf.
  pose proof (str_or_null_trim_fixed (opt_str (md_mimeType m0))) as Hm.
  simpl in Hf, Hm. by rewrite Hf, Hm, !finite_or_null_fixed.
Qed.

Lemma normalizeMessage_idemp m :
  normalizeMessage (normalizeMessage m) = normalizeMessage m.
Proof.
  unfold normalizeMessage at 1 2. simpl.
  rewrite normalizeMedia_stored_fixed.
  rewrite normalizeKind_fixed by apply normalizeKind_valid.
  rewrite (js_String_or_empty (js_String _)). reflexivity.
Qed.
End NormalForm.

(** X7. [normalizeMessage] is idempotent, and what it returns always has
    a kind among the six message kinds and a [readBy] array; identity,
    chat, sender and creation time are those of the message given. *)
Theorem normalizeMessage_normal_form `{JsEnv} m :
  normalizeMessage (normalizeMessage m) = normalizeMessage m
  ∧ m_kind (normalizeMessage m) ∈ MESSAGE_KINDS
  ∧ m_readBy (normalizeMessage m) = Some (readBy_of m)
  ∧ m_id (normalizeMessage m) = m_id m
  ∧ m_chatId (normalizeMessage m) = m_chatId m
  ∧ m_senderId (normalizeMessage m) = m_senderId m
  ∧ m_createdAt (normalizeMessage m) = m_createdAt m.
Proof.
  split; [apply normalizeMessage_idemp|].
  split; [apply normalizeKind_valid|]. by repeat split.
Qed.

(** ** Order of the chat list *)

Lemma sort_insert_sorted {A} (cmp : A -> A -> Z) x l :
  (∀ a b, 0 < cmp a b -> cmp b a <= 0) ->
  (∀ a b c, cmp a b <= 0 -> cmp b c <= 0 -> cmp a c <= 0) ->
  StronglySorted (λ a b, cmp a b <= 0) l ->
  StronglySorted (λ a b, cmp a b <= 0) (sort_insert cmp x l).
Proof.
  intros Htot Htrans. induction l as [|y l IH]; simpl; intros Hs.
  - by repeat constructor.
  - apply StronglySorted_inv in Hs as [Hs Hy].
    destruct (Z.ltb_spec 0 (cmp x y)) as [Hlt|Hle].
    + constructor; [by apply IH|].
      rewrite Forall_forall. intros z Hz.
      rewrite sort_insert_perm in Hz.
      apply elem_of_cons in Hz as [->|Hz]; [by apply Htot|].
      rewrite Forall_forall in Hy. by apply Hy.
    + constructor; [by constructor|]. constructor; [done|].
      eapply Forall_impl; [exact Hy|]. intros z Hz. simpl in *.
      by apply (Htrans x y z).
Qed.

Lemma js_sort_sorted {A} (cmp : A -> A -> Z) l :
  (∀ a b, 0 < cmp a b -> cmp b a <= 0) ->
  (∀ a b c, cmp a b <= 0 -> cmp b c <= 0 -> cmp a c <= 0) ->
  StronglySorted (λ a b, cmp a b <= 0) (js_sort cmp l).
Proof.
  intros Htot Htrans. induction l as [|x l IH]; simpl; [constructor|].
  by apply sort_insert_sorted.
Qed.

Lemma ascii_compare_N a b :
  Ascii.compare a b = N.compare (N_of_ascii a) (N_of_ascii b).
Proof. reflexivity. Qed.

Lemma string_compare_trans a : ∀ b c,
  String.compare a b ≠ Gt -> String.compare b c ≠ Gt -> String.compare a c ≠ Gt.
Proof.
  induction a as [|x a IH]; intros [|y b] [|z c]; simpl; try done.
  rewrite !ascii_compare_N.
  destruct (N.compare_spec (N_of_ascii x) (N_of_ascii y)) as [Hxy|Hxy|Hxy];
    destruct (N.compare_spec (N_of_ascii y) (N_of_ascii z)) as [Hyz|Hyz|Hyz];
    destruct (N.compare_spec (N_of_ascii x) (N_of_ascii z)) as [Hxz|Hxz|Hxz];
    try done; try lia.
  apply IH.
Qed.

Lemma codeUnitEnv_order : @collation_order codeUnitEnv.
Proof.
  split; simpl.
  - intros a b. rewrite (String.compare_antisym a b).
    by destruct (String.compare b a).
  - intros a b c Hab Hbc.
    pose proof (string_compare_trans a b c) as Ht.
    destruct (String.compare a b), (String.compare b c),
      (String.compare a c); try done; by destruct Ht.
Qed.

(** X8. Provided [localeCompare] is a total preorder, the list returned
    by [listChatsForUser] is in descending order of [updatedAt]: no entry
    is followed, at any distance, by an entry whose [updatedAt] sorts
    after its own. *)
Theorem listChatsForUser_sorted `{JsEnv} userId d :
  collation_order ->
  StronglySorted not_more_recent (listChatsForUser userId d).
Proof.
  intros [Htot Htrans]. unfold listChatsForUser.
  apply (js_sort_sorted
           (λ a b, localeCompare (cs_updatedAt b) (cs_updatedAt a))).
  - intros a b. apply Htot.
  - intros a b c Hab Hbc. by apply (Htrans _ (cs_updatedAt b)).
Qed.

(** An instance: the chat list of bob under code-unit collation. *)
Lemma listChatsForUser_sorted_witness :
  @collation_order codeUnitEnv
  ∧ StronglySorted (@not_more_recent codeUnitEnv)
      (@listChatsForUser codeUnitEnv "b1" greetedData).
Proof.
  split; [exact codeUnitEnv_order|].
  exact (@listChatsForUser_sorted codeUnitEnv "b1" greetedData codeUnitEnv_order).
Defined.

(** ** The chat list after a new message *)

Lemma last_filter {A} (p : A -> bool) (l : list A) (x : A) :
  last l = Some x -> p x = true -> last (List.filter p l) = Some x.
Proof.
  intros Hl Hx. apply last_Some in Hl as [l' ->].
  rewrite List.filter_app. simpl. rewrite Hx. apply last_snoc.
Qed.

(** X9. After a successful [addMessage] with a non-empty timestamp, every
    entry of [listChatsForUser] for the chat written to shows the new
    message as its last message (its id, sender and creation time) and
    has [updatedAt] equal to that creation time. *)
Theorem addMessage_heads_chat_summary `{JsEnv} uuid now chatId senderId
    senderName text kind media d m d' :
  addMessage uuid now chatId senderId senderName text kind media d = inr (m, d') ->
  now ≠ "" ->
  ∀ userId s,
    s ∈ listChatsForUser userId d' -> cs_id s = chatId ->
    cs_updatedAt s = now
    ∧ ∃ lm, cs_lastMessage s = Some lm
            ∧ lm_id lm = uuid
            ∧ lm_senderId lm = senderId
            ∧ lm_createdAt lm = now.
Proof.
  intros Hadd Hnow userId s Hs Hid.
  apply elem_of_listChatsForUser in Hs as (c & _ & _ & ->).
  simpl in Hid. unfold summarize. simpl. rewrite Hid.
  rewrite (last_filter _ _ _ (addMessage_stored _ _ _ _ _ _ _ _ _ _ _ Hadd));
    [|unfold str_eq; simpl; by apply bool_decide_eq_true_2].
  simpl. unfold str_or. rewrite bool_decide_eq_false_2 by done.
  split; [done|]. by eexists.
Qed.

(** An instance: the chat list of bob after ann has said hi. *)
Lemma addMessage_heads_chat_summary_witness :
  ∃ m s,
    @addMessage codeUnitEnv "m1" "2024-01-03T00:00:00.000Z" "c1" "a1" "ann"
      (JStr "hi") (JStr "text") JNull sampleData = inr (m, greetedData)
    ∧ s ∈ @listChatsForUser codeUnitEnv "b1" greetedData
    ∧ cs_id s = "c1"
    ∧ cs_updatedAt s = "2024-01-03T00:00:00.000Z".
Proof.
  assert (∃ m, @addMessage codeUnitEnv "m1" "2024-01-03T00:00:00.000Z" "c1"
                 "a1" "ann" (JStr "hi") (JStr "text") JNull sampleData
               = inr (m, greetedData)) as (m & Hadd)
    by (vm_compute; by eexists).
  assert (∃ s, @listChatsForUser codeUnitEnv "b1" greetedData = [s]
               ∧ cs_id s = "c1") as (s & Hlist & Hid)
    by (vm_compute; by eexists).
  assert (Hs : s ∈ @listChatsForUser codeUnitEnv "b1" greetedData)
    by (rewrite Hlist; apply list_elem_of_here).
  assert (Hnow : "2024-01-03T00:00:00.000Z" ≠ "") by done.
  exists m, s. split; [exact Hadd|]. split; [exact Hs|]. split; [exact Hid|].
  exact (proj1 (@addMessage_heads_chat_summary codeUnitEnv _ _ _ _ _ _ _ _ _ _ _
                  Hadd Hnow "b1" s Hs Hid)).
Defined.

(** ** Commands that are refused *)

Section Refusals.
Context `{JsEnv}.

Lemma on_send_message_refused uuid now user payload w f w' :
  on_send_message uuid now user payload w = (AckError f, w') -> w' = w.
Proof.
  unfold on_send_message.
  case_match; [by intros [= _ <-]|]. case_match; [by intros [= _ <-]|].
  unfold mbind at 1, M_bind at 1, getStore. simpl.
  destruct (ensureChatAccess _ _ _) as [[st e]|c]; [by intros [= _ <-]|].
  unfold mbind, M_bind.
  destruct (sendMessageAndBroadcast _ _ _ _ _ _ _ _ w) as [[e|m] w1] eqn:Hsend;
    simpl; [|done].
  intros [= _ <-]. by apply sendMessageAndBroadcast_inl in Hsend as [-> _].
Qed.

Lemma on_open_chat_refused user payload w f w' :
  on_open_chat user payload w = (AckError f, w') -> w' = w.
Proof.
  unfold on_open_chat. case_match; [by intros [= _ <-]|].
  unfold mbind, M_bind, getStore. simpl.
  destruct (ensureChatAccess _ _ _) as [[st e]|c]; [by intros [= _ <-]|done].
Qed.

Lemma on_call_invite_refused uuid now user payload w f w' :
  on_call_invite uuid now user payload w = (AckError f, w') -> w' = w.
Proof.
  unfold on_call_invite. case_match; [by intros [= _ <-]|].
  unfold createCall, mbind, M_bind, getStore, getCalls, mret, M_ret. simpl.
  destruct (ensureChatAccess _ _ _) as [[st e]|c]; [by intros [= _ <-]|].
  destruct (getChatById _ _) as [c'|]; simpl; [done|by intros [= _ <-]].
Qed.

Lemma on_call_answer_refused user payload w f w' :
  on_call_answer user payload w = (AckError f, w') -> w' = w.
Proof.
  rewrite on_call_answer_run. cbv zeta.
  destruct (map_get _ _) as [c|]; [|by intros [= _ <-]].
  destruct (negb (includes _ _)); [by intros [= _ <-]|].
  by destruct (negb (truthy _)).
Qed.

Lemma on_call_end_refused user payload w f w' :
  on_call_end user payload w = (AckError f, w') -> w' = w.
Proof.
  rewrite on_call_end_run. cbv zeta.
  destruct (map_get _ _) as [c|]; [|by intros [= _ <-]].
  by destruct (negb (includes _ _)); [intros [= _ <-]|].
Qed.

Lemma relay_refused event field user payload w f w' :
  relay event field user payload w = (AckError f, w') -> w' = w.
Proof.
  rewrite relay_run. cbv zeta.
  destruct (map_get _ _) as [c|]; [|by intros [= _ <-]].
  by destruct (_ || _); [intros [= _ <-]|].
Qed.
End Refusals.

(** X10. A realtime command that is acknowledged with an error has no
    effect at all: the dataset, the call registry and the effects
    performed are what they were before the command. *)
Theorem refused_command_has_no_effect `{JsEnv} c w f w' :
  acked c w = Some (AckError f, w') -> w' = w.
Proof.
  destruct c as [uuid now usr payload|usr payload|uuid now usr payload
                |usr payload|usr payload|usr payload|usr payload|usr payload
                |usr|userId chatId|uuid now userId chatId file form];
    simpl; intros [= Hrun]; try done.
  - by apply on_send_message_refused in Hrun.
  - by apply on_open_chat_refused in Hrun.
  - by apply on_call_invite_refused in Hrun.
  - by apply on_call_answer_refused in Hrun.
  - by apply on_call_end_refused in Hrun.
  - by apply relay_refused in Hrun.
  - by apply relay_refused in Hrun.
  - by apply relay_refused in Hrun.
Qed.

(** An instance: an outsider tries to end the ringing call. *)
Lemma refused_command_has_no_effect_witness :
  let carl := {| su_id := "x9"; su_name := "carl"; su_login := "carl";
                 su_email := None |} in
  ∃ f w',
    @acked codeUnitEnv (CallEnd carl declinePayload) ringingWorld
      = Some (AckError f, w')
    ∧ f = CallForbidden ∧ w' = ringingWorld.
Proof.
  intros carl.
  assert (∃ w', @acked codeUnitEnv (CallEnd carl declinePayload) ringingWorld
                = Some (AckError CallForbidden, w')) as (w' & Hrun)
    by (vm_compute; by eexists).
  exists CallForbidden, w'. split; [exact Hrun|]. split; [reflexivity|].
  exact (@refused_command_has_no_effect codeUnitEnv _ _ _ _ Hrun).
Defined.

(** ** Messages sent over the realtime channel *)

Lemma length_substring_0 n s : (String.length (String.substring 0 n s) <= n)%nat.
Proof.
  revert s. induction n as [|n IH]; intros [|a s]; simpl; try lia.
  specialize (IH s). lia.
Qed.

Lemma ensureChatAccess_inr chatId userId d c :
  ensureChatAccess chatId userId d = inr c ->
  getChatById chatId d = Some c
  ∧ c ∈ chats d ∧ c_id c = chatId ∧ userId ∈ c_participantIds c.
Proof.
  unfold ensureChatAccess.
  destruct (getChatById chatId d) as [c0|] eqn:Hget; [|done].
  destruct (negb (isUserInChat (Some c0) userId)) eqn:Hin; [done|].
  intros [= ->]. split; [done|].
  unfold getChatById, js_find in Hget. apply find_some in Hget as [Hc Hid].
  apply negb_false_iff in Hin. unfold isUserInChat, includes in Hin.
  split; [by apply list_elem_of_In|].
  split; [by apply bool_decide_eq_true in Hid|by apply bool_decide_eq_true in Hin].
Qed.

Section SendMessage.
Context `{JsEnv}.


Lemma on_send_message_ok uuid now user payload w id w' :
  on_send_message uuid now user payload w = (AckMessage id, w') ->
  let chatId := trimmed_field payload "chatId" in
  let kind := normalizeMessageKind (js_get payload "kind")
                (js_get (js_get payload "media") "mimeType") in
  let text := sanitizeText (js_or (js_get payload "text") (JStr "")) in
  ∃ c m d' media,
    ensureChatAccess chatId (su_id user) (store w) = inr c
    ∧ (str_eq kind "text" && str_eq text "") = false
    ∧ addMessage uuid now (c_id c) (su_id user) (su_name user) (JStr text)
        (JStr kind) media (store w) = inr (m, d')
    ∧ id = m_id m
    ∧ w' = {| store := d';
              activeCalls := activeCalls w;
              effects :=
                (effects w
                 ++ to_users (getChatParticipants (c_id c) d') (new_message m))
                ++ to_users (getChatParticipants (c_id c) d')
                     (chat_updated (c_id c)) |}.
Proof.
  intros Hrun chatId kind text. revert Hrun. unfold on_send_message.
  fold chatId kind text.
  case_match; [done|]. case_match eqn:Hempty; [done|].
  unfold mbind at 1, M_bind at 1, getStore. simpl.
  destruct (ensureChatAccess _ _ _) as [[st f]|c] eqn:Hacc; [done|].
  unfold mbind at 1, M_bind at 1.
  unfold sendMessageAndBroadcast, mbind, M_bind, getStore, mret, M_ret. simpl.
  destruct (addMessage _ _ _ _ _ _ _ _ _) as [e|[m d']] eqn:Hadd; simpl; [done|].
  rewrite emitNewMessage_run. simpl. intros [= <- <-].
  by eexists c, m, d', _.
Qed.
End SendMessage.

(** X11. Every message stored through an acknowledged [send_message]
    goes to an existing chat of which the sender is a participant,
    carries the sender's id and name, has a text of at most 2000
    characters that is not empty when the kind is [text], and has one of
    the kinds text, image, video, audio, file (never [system]). *)
Theorem send_message_stored_message `{JsEnv} uuid now user payload w id w' :
  on_send_message uuid now user payload w = (AckMessage id, w') ->
  ∃ c stored,
    c ∈ chats (store w)
    ∧ c_id c = trimmed_field payload "chatId"
    ∧ su_id user ∈ c_participantIds c
    ∧ last (messages (store w')) = Some stored
    ∧ id = uuid ∧ m_id stored = uuid
    ∧ m_chatId stored = c_id c
    ∧ m_senderId stored = su_id user
    ∧ m_senderName stored = su_name user
    ∧ (String.length (m_text stored) <= 2000)%nat
    ∧ (m_kind stored = "text" -> m_text stored ≠ "")
    ∧ m_kind stored ∈ UPLOAD_KINDS
    ∧ m_kind stored ≠ "system".
Proof.
  intros Hrun.
  apply on_send_message_ok in Hrun
    as (c & m & d' & media & Hacc & Hempty & Hadd & -> & ->).
  apply ensureChatAccess_inr in Hacc as (_ & Hc & Hid & Hin).
  pose proof (addMessage_stored _ _ _ _ _ _ _ _ _ _ _ Hadd) as Hlast.
  pose proof (normalizeMessageKind_upload_kind (js_get payload "kind")
                (js_get (js_get payload "media") "mimeType")) as Hkind.
  assert (Hk : m_kind (newMessage uuid now (c_id c) (su_id user) (su_name user)
                 (JStr (sanitizeText (js_or (js_get payload "text") (JStr ""))))
                 (JStr (normalizeMessageKind (js_get payload "kind")
                          (js_get (js_get payload "media") "mimeType"))) media)
               = normalizeMessageKind (js_get payload "kind")
                   (js_get (js_get payload "media") "mimeType")).
  { by apply newMessage_kind_upload. }
  eexists c, _. repeat split; try done.
  - by apply addMessage_inr in Hadd as (? & ? & ? & -> & _ & -> & _).
  - simpl. rewrite js_String_or_empty. apply length_substring_0.
  - rewrite Hk. simpl. rewrite js_String_or_empty. intros Hkt Htx.
    unfold str_eq in Hempty. by rewrite !bool_decide_eq_true_2 in Hempty.
  - by rewrite Hk.
  - rewrite Hk. intros Hs. rewrite Hs in Hkind.
    unfold UPLOAD_KINDS in Hkind.
    by repeat (apply elem_of_cons in Hkind as [?|Hkind]; [done|]);
      apply elem_of_nil in Hkind.
Qed.

(** An instance: ann says hi over the realtime channel. *)
Lemma send_message_stored_message_witness :
  let payload := JObj [("chatId", JStr "c1"); ("kind", JStr "text");
                       ("text", JStr "hi")] in
  ∃ w' stored,
    @on_send_message codeUnitEnv "m1" "2024-01-03T00:00:00.000Z" annSession
      payload sampleWorld = (AckMessage "m1", w')
    ∧ last (messages (store w')) = Some stored
    ∧ m_senderId stored = "a1"
    ∧ m_kind stored ≠ "system".
Proof.
  intros payload.
  assert (∃ w', @on_send_message codeUnitEnv "m1" "2024-01-03T00:00:00.000Z"
                  annSession payload sampleWorld = (AckMessage "m1", w'))
    as (w' & Hrun) by (vm_compute; by eexists).
  destruct (@send_message_stored_message codeUnitEnv _ _ _ _ _ _ _ Hrun)
    as (c & stored & _ & _ & _ & Hlast & _ & _ & _ & Hs & _ & _ & _ & _ & Hk).
  exists w', stored. split; [exact Hrun|]. split; [exact Hlast|].
  split; [exact Hs|exact Hk].
Defined.



(** ** Opening a chat *)

(** X13. An acknowledged [open_chat] is by a participant of an existing
    chat; it joins the chat's room, marks the chat read for that user, so
    that the user's unread count for the chat is zero, and then notifies
    each participant known to the dataset with [chat_updated]; the call
    registry is untouched. *)
Theorem open_chat_marks_read user payload w w' :
  on_open_chat user payload w = (AckOk, w') ->
  let chatId := trimmed_field payload "chatId" in
  (∃ c, getChatById chatId (store w) = Some c
        ∧ su_id user ∈ c_participantIds c)
  ∧ store w' = markChatAsRead chatId (su_id user) (store w)
  ∧ unread_spec (store w') chatId (su_id user) = 0%nat
  ∧ effects w'
    = effects w ++ [Join (chat_room chatId)]
                ++ to_users (getChatParticipants chatId (store w))
                     (chat_updated chatId)
  ∧ activeCalls w' = activeCalls w.
Proof.
  intros Hrun chatId. revert Hrun. unfold on_open_chat. fold chatId.
  case_match; [done|].
  unfold mbind, M_bind, getStore. simpl.
  destruct (ensureChatAccess _ _ _) as [[st f]|c] eqn:Hacc; [done|].
  simpl. rewrite emitChatUpdated_run. simpl. intros [= <-]. simpl.
  apply ensureChatAccess_inr in Hacc as (Hget & _ & _ & Hin).
  split; [by exists c|]. split; [done|].
  split; [apply unread_spec_markChatAsRead_zero|].
  split; [|done]. rewrite <- app_assoc. do 2 f_equal.
  unfold to_users, getChatParticipants.
  destruct (markChatAsRead_users_chats chatId (su_id user) (store w)) as [-> ->].
  done.
Qed.

(** An instance: bob opens the chat in which ann has said hi. *)
Lemma open_chat_marks_read_witness :
  let w := {| store := greetedData; activeCalls := []; effects := [] |} in
  let payload := JObj [("chatId", JStr "c1")] in
  ∃ w',
    on_open_chat bobSession payload w = (AckOk, w')
    ∧ unread_spec (store w) "c1" "b1" = 1%nat
    ∧ unread_spec (store w') "c1" "b1" = 0%nat.
Proof.
  intros w payload.
  assert (∃ w', on_open_chat bobSession payload w = (AckOk, w')) as (w' & Hrun)
    by (vm_compute; by eexists).
  exists w'. split; [exact Hrun|]. split; [vm_compute; reflexivity|].
  exact (proj1 (proj2 (proj2 (open_chat_marks_read _ _ _ _ Hrun)))).
Defined.

(** ** More on the call registry *)

Lemma map_get_delete_ne k k' m :
  k ≠ k' -> map_get k (map_delete k' m) = map_get k m.
Proof.
  intros Hne. unfold map_get, map_delete.
  induction m as [|[k0 v] m IH]; simpl; [done|].
  unfold str_eq in *. destruct (decide (k0 = k')) as [->|Hk'].
  - rewrite (bool_decide_eq_true_2 (k' = k')) by done. simpl.
    by rewrite (bool_decide_eq_false_2 (k' = k)) by done.
  - rewrite (bool_decide_eq_false_2 (k0 = k')) by done. simpl.
    by destruct (bool_decide (k0 = k)).
Qed.

Lemma map_get_None_keys k m : map_get k m = None ↔ k ∉ map fst m.
Proof.
  unfold map_get. induction m as [|[k0 v] m IH]; simpl.
  - split; [intros _; apply not_elem_of_nil|done].
  - unfold str_eq. rewrite not_elem_of_cons. case_bool_decide as Hk; simpl.
    + split; [done|]. by intros [? _].
    + rewrite IH. split; [by split|by intros [_ ?]].
Qed.

Lemma map_set_keys k v m :
  map fst (map_set k v m)
  = if bool_decide (k ∈ map fst m) then map fst m else map fst m ++ [k].
Proof.
  induction m as [|[k0 v0] m IH]; simpl; [done|].
  unfold str_eq. destruct (decide (k0 = k)) as [->|Hk0].
  - rewrite (bool_decide_eq_true_2 (k = k)) by done. simpl.
    rewrite bool_decide_eq_true_2; [done|apply list_elem_of_here].
  - rewrite (bool_decide_eq_false_2 (k0 = k)) by done. simpl.
    rewrite IH. destruct (decide (k ∈ map fst m)) as [Hin|Hin].
    + rewrite (bool_decide_eq_true_2 _ Hin).
      rewrite bool_decide_eq_true_2; [done|by apply list_elem_of_further].
    + rewrite (bool_decide_eq_false_2 _ Hin).
      rewrite bool_decide_eq_false_2; [done|].
      rewrite not_elem_of_cons. by split.
Qed.

Lemma calls_distinct_set k v m : calls_distinct m -> calls_distinct (map_set k v m).
Proof.
  unfold calls_distinct. rewrite map_set_keys. intros Hnd.
  case_bool_decide as Hin; [done|].
  apply NoDup_app. split; [done|]. split; [|apply NoDup_singleton].
  by intros x Hx ->%list_elem_of_singleton.
Qed.

Lemma calls_distinct_delete k m :
  calls_distinct m -> calls_distinct (map_delete k m).
Proof.
  unfold calls_distinct, map_delete.
  induction m as [|[k0 v] m IH]; simpl; [done|].
  rewrite NoDup_cons. intros [Hk0 Hnd].
  destruct (negb (str_eq k0 k)); simpl; [|by apply IH].
  apply NoDup_cons. split; [|by apply IH].
  intros Hin. apply Hk0.
  apply list_elem_of_fmap in Hin as ([k1 v1] & -> & Hin).
  apply list_elem_of_In, filter_In in Hin as [Hin _].
  apply list_elem_of_fmap. exists (k1, v1). split; [done|].
  by apply list_elem_of_In.
Qed.

Lemma map_get_elem k c m :
  calls_distinct m -> (k, c) ∈ m -> map_get k m = Some c.
Proof.
  unfold calls_distinct, map_get.
  induction m as [|[k0 v] m IH]; simpl; [by intros _ ?%elem_of_nil|].
  rewrite NoDup_cons. intros [Hk0 Hnd] Hin.
  unfold str_eq. apply elem_of_cons in Hin as [[= <- <-]|Hin].
  - by rewrite bool_decide_eq_true_2.
  - rewrite bool_decide_eq_false_2; [by apply IH|].
    intros ->. apply Hk0. apply list_elem_of_fmap. by exists (k, c).
Qed.

Section RegistryShape.
Context `{JsEnv}.

Lemma exec_all_calls_distinct cs w :
  calls_distinct (activeCalls w) -> calls_distinct (activeCalls (exec_all cs w)).
Proof.
  apply (exec_all_preserves calls_distinct (λ _, True)); [| | |done].
  - intros k m. apply calls_distinct_delete.
  - intros k c m Hnd _. by apply calls_distinct_set.
  - intros k c m _ _. apply calls_distinct_set.
Qed.
End RegistryShape.

(** ** Call transitions *)

(** X14. An acknowledged [call_invite] is by a participant of an existing
    chat; it files under the generated id a ringing call of that chat
    whose participants are the chat's, whose caller is the inviting user
    and whose kind is [video] only if the requested kind, lower-cased, is
    [video] and [audio] otherwise; it leaves every other registry entry
    and the dataset as they were, and notifies each participant with
    [incoming_call]. *)
Theorem call_invite_registers_ringing_call uuid now user payload w cl w' :
  on_call_invite uuid now user payload w = (AckCall cl, w') ->
  let chatId := trimmed_field payload "chatId" in
  (∃ c, getChatById chatId (store w) = Some c
        ∧ su_id user ∈ c_participantIds c
        ∧ call_participantIds cl = c_participantIds c)
  ∧ call_id cl = uuid ∧ call_chatId cl = chatId
  ∧ call_callerId cl = su_id user
  ∧ call_status cl = Ringing
  ∧ call_kind cl
    = (if str_eq (toLowerCase (js_String (js_or (js_get payload "kind")
                                            (JStr "audio")))) "video"
       then "video" else "audio")
  ∧ call_roomUrl cl = buildWebCallUrl uuid (call_kind cl)
  ∧ map_get uuid (activeCalls w') = Some cl
  ∧ (∀ k, k ≠ uuid -> map_get k (activeCalls w') = map_get k (activeCalls w))
  ∧ store w' = store w
  ∧ effects w'
    = effects w
      ++ map (λ u, Emit (user_room u)
                     (incoming_call uuid chatId (su_id user) (su_name user)
                        (call_kind cl) (call_roomUrl cl) now))
             (call_participantIds cl).
Proof.
  intros Hrun chatId. revert Hrun. unfold on_call_invite. fold chatId.
  case_match; [done|].
  unfold createCall, mbind, M_bind, getStore, getCalls, mret, M_ret. simpl.
  destruct (ensureChatAccess _ _ _) as [[st f]|c] eqn:Hacc; [done|].
  apply ensureChatAccess_inr in Hacc as (Hget & _ & _ & Hin).
  rewrite Hget. simpl. rewrite emitCallEvent_run. simpl.
  intros [= <- <-]. simpl.
  split; [by exists c|].
  repeat split; try done.
  - by destruct (str_eq (toLowerCase _) "video").
  - by destruct (str_eq (toLowerCase _) "video").
  - apply map_get_set_eq.
  - intros k Hk. by apply map_get_set_ne.
Qed.

(** An instance: ann's invitation in the sample world. *)
Lemma call_invite_registers_ringing_call_witness :
  ∃ cl,
    on_call_invite "k1" "2024-01-04T00:00:00.000Z" annSession invitePayload
      sampleWorld = (AckCall cl, ringingWorld)
    ∧ call_status cl = Ringing
    ∧ map_get "k1" (activeCalls ringingWorld) = Some cl.
Proof.
  assert (∃ cl, on_call_invite "k1" "2024-01-04T00:00:00.000Z" annSession
                  invitePayload sampleWorld = (AckCall cl, ringingWorld))
    as (cl & Hrun) by (vm_compute; by eexists).
  pose proof (call_invite_registers_ringing_call _ _ _ _ _ _ _ Hrun)
    as (_ & _ & _ & _ & Hs & _ & _ & Hget & _).
  exists cl. split; [exact Hrun|]. split; [exact Hs|exact Hget].
Defined.

(** X15. When a participant of an existing call sends [call_end], the
    handler replies ok, removes the call from the registry, leaves every
    other entry and the dataset as they were, and notifies each
    participant of the call with [call_ended], reason [ended], ended by
    that user. *)
Theorem call_end_removes_call user payload w c :
  let callId := trimmed_field payload "callId" in
  map_get callId (activeCalls w) = Some c ->
  su_id user ∈ call_participantIds c ->
  ∃ w',
    on_call_end user payload w = (AckOk, w')
    ∧ map_get callId (activeCalls w') = None
    ∧ (∀ k, k ≠ callId -> map_get k (activeCalls w') = map_get k (activeCalls w))
    ∧ store w' = store w
    ∧ effects w' = effects w ++ ended c "ended" (su_id user).
Proof.
  intros callId Hget Hin. eexists.
  rewrite on_call_end_run. cbv zeta. fold callId. rewrite Hget.
  unfold includes. rewrite bool_decide_eq_true_2 by done. simpl.
  split; [reflexivity|]. simpl.
  split; [apply map_get_delete|].
  split; [intros k Hk; by apply map_get_delete_ne|]. done.
Qed.

(** An instance: ann ends the call she started. *)
Lemma call_end_removes_call_witness :
  ∃ c w',
    map_get "k1" (activeCalls ringingWorld) = Some c
    ∧ "a1" ∈ call_participantIds c
    ∧ on_call_end annSession declinePayload ringingWorld = (AckOk, w')
    ∧ map_get "k1" (activeCalls w') = None.
Proof.
  assert (∃ c, map_get (trimmed_field declinePayload "callId")
                 (activeCalls ringingWorld) = Some c
               ∧ call_participantIds c = ["a1"; "b1"]) as (c & Hget & Hp)
    by (vm_compute; by eexists).
  assert (Hin : su_id annSession ∈ call_participantIds c)
    by (rewrite Hp; apply list_elem_of_here).
  destruct (call_end_removes_call annSession declinePayload ringingWorld c
              Hget Hin) as (w' & Hrun & Hnone & _).
  exists c, w'. split; [exact Hget|]. split; [exact Hin|].
  split; [exact Hrun|exact Hnone].
Defined.

(** X16. When a participant of an existing call answers it with a truthy
    [accepted], whatever the status of the call, the handler replies ok,
    the entry becomes the same call with status active, every other entry
    and the dataset stay as they were, and each participant is notified
    with [call_answered], [accepted: true], the room address and the
    kind. *)
Theorem call_accept_activates user payload w c :
  let callId := trimmed_field payload "callId" in
  map_get callId (activeCalls w) = Some c ->
  su_id user ∈ call_participantIds c ->
  truthy (js_get payload "accepted") = true ->
  ∃ w',
    on_call_answer user payload w = (AckOk, w')
    ∧ map_get callId (activeCalls w') = Some (set_status Active c)
    ∧ (∀ k, k ≠ callId -> map_get k (activeCalls w') = map_get k (activeCalls w))
    ∧ map fst (activeCalls w') = map fst (activeCalls w)
    ∧ store w' = store w
    ∧ effects w'
      = effects w
        ++ map (λ u, Emit (user_room u) (answered c user true))
               (call_participantIds c).
Proof.
  intros callId Hget Hin Hacc. eexists.
  rewrite on_call_answer_run. cbv zeta. fold callId. rewrite Hget.
  unfold includes. rewrite bool_decide_eq_true_2 by done.
  rewrite Hacc. simpl. split; [reflexivity|]. simpl.
  split; [apply map_get_set_eq|].
  split; [intros k Hk; by apply map_get_set_ne|].
  split; [|done]. rewrite map_set_keys.
  rewrite bool_decide_eq_true_2; [done|].
  destruct (decide (callId ∈ map fst (activeCalls w))) as [|Hn]; [done|].
  apply map_get_None_keys in Hn. congruence.
Qed.

(** An instance: bob accepts the ringing call. *)
Lemma call_accept_activates_witness :
  ∃ c,
    map_get "k1" (activeCalls ringingWorld) = Some c
    ∧ call_status c = Ringing
    ∧ "b1" ∈ call_participantIds c
    ∧ truthy (js_get acceptPayload "accepted") = true
    ∧ map_get "k1" (activeCalls activeWorld) = Some (set_status Active c).
Proof.
  assert (∃ c, map_get (trimmed_field acceptPayload "callId")
                 (activeCalls ringingWorld) = Some c
               ∧ call_status c = Ringing
               ∧ call_participantIds c = ["a1"; "b1"])
    as (c & Hget & Hs & Hp) by (vm_compute; by eexists).
  assert (Hin : su_id bobSession ∈ call_participantIds c)
    by (rewrite Hp; apply list_elem_of_further, list_elem_of_here).
  assert (Hacc : truthy (js_get acceptPayload "accepted") = true)
    by reflexivity.
  destruct (call_accept_activates bobSession acceptPayload ringingWorld c
              Hget Hin Hacc) as (w' & Hrun & Hget' & _).
  exists c. split; [exact Hget|]. split; [exact Hs|]. split; [exact Hin|].
  split; [exact Hacc|].
  unfold activeWorld. rewrite Hrun. exact Hget'.
Defined.

(** ** Disconnecting *)

Lemma map_get_foldl_delete k (l : list call) : ∀ m,
  map_get k (foldl (λ m c, map_delete (call_id c) m) m l)
  = if bool_decide (k ∈ map call_id l) then None else map_get k m.
Proof.
  induction l as [|c l IH]; intros m; simpl; [done|].
  rewrite IH. destruct (decide (k = call_id c)) as [->|Hne].
  - rewrite map_get_delete.
    rewrite (bool_decide_eq_true_2 (call_id c ∈ call_id c :: _));
      [by case_bool_decide|apply list_elem_of_here].
  - rewrite map_get_delete_ne by done.
    destruct (decide (k ∈ map call_id l)) as [Hin|Hin].
    + rewrite !bool_decide_eq_true_2; [done| |done].
      by apply list_elem_of_further.
    + rewrite !bool_decide_eq_false_2; [done| |done].
      rewrite not_elem_of_cons. by split.
Qed.

Lemma for_each_endCall userId (l : list call) : ∀ w,
  NoDup (map call_id l) ->
  (∀ c, c ∈ l -> map_get (call_id c) (activeCalls w) = Some c) ->
  for_each l
    (λ c, match call_status c with
          | Ringing => endCall (call_id c) "missed" (Some userId) ;; mret tt
          | Active => endCall (call_id c) "ended" (Some userId) ;; mret tt
          end) w
  = (tt, {| store := store w;
            activeCalls := foldl (λ m c, map_delete (call_id c) m)
                             (activeCalls w) l;
            effects := effects w
              ++ concat (map (λ c, ended c (disconnect_reason c) userId) l) |}).
Proof.
  induction l as [|c l IH]; intros w Hnd Hget; simpl.
  - by rewrite app_nil_r, world_eta.
  - apply NoDup_cons in Hnd as [Hc Hnd].
    unfold mbind at 1, M_bind at 1.
    set (w1 := {| store := store w;
                  activeCalls := map_delete (call_id c) (activeCalls w);
                  effects := effects w ++ ended c (disconnect_reason c) userId |}).
    assert (Hstep : snd (match call_status c with
                         | Ringing => endCall (call_id c) "missed" (Some userId)
                                      ;; mret tt
                         | Active => endCall (call_id c) "ended" (Some userId)
                                     ;; mret tt
                         end w) = w1).
    { unfold disconnect_reason in w1.
      destruct (call_status c); unfold mbind, M_bind, mret, M_ret; simpl;
        rewrite endCall_run, (Hget c (list_elem_of_here _ _)); reflexivity. }
    rewrite Hstep, IH; [|done|].
    + simpl. by rewrite <- app_assoc.
    + intros c' Hc'. simpl. rewrite map_get_delete_ne.
      * apply Hget. by apply list_elem_of_further.
      * intros Heq. apply Hc. rewrite <- Heq.
        apply list_elem_of_fmap. by exists c'.
Qed.

Lemma calls_wf_ids m : calls_wf m -> map call_id (map_values m) = map fst m.
Proof.
  unfold calls_wf, map_values. induction 1 as [|[k c] m Hk _ IH]; simpl; [done|].
  simpl in Hk. by rewrite Hk, IH.
Qed.

Lemma NoDup_map_filter {A B} (f : A -> B) (p : A -> bool) (l : list A) :
  NoDup (map f l) -> NoDup (map f (List.filter p l)).
Proof.
  induction l as [|x l IH]; simpl; [done|].
  rewrite NoDup_cons. intros [Hx Hnd].
  destruct (p x); simpl; [|by apply IH].
  apply NoDup_cons. split; [|by apply IH].
  intros Hin. apply Hx.
  apply list_elem_of_fmap in Hin as (y & -> & Hy).
  apply list_elem_of_In, filter_In in Hy as [Hy _].
  apply list_elem_of_fmap. exists y. split; [done|by apply list_elem_of_In].
Qed.

Lemma on_disconnect_run user w :
  calls_wf (activeCalls w) -> calls_distinct (activeCalls w) ->
  let involved :=
    List.filter (λ c, includes (call_participantIds c) (su_id user))
                (map_values (activeCalls w)) in
  on_disconnect user w
  = (tt, {| store := store w;
            activeCalls := foldl (λ m c, map_delete (call_id c) m)
                             (activeCalls w) involved;
            effects := effects w
              ++ concat (map (λ c, ended c (disconnect_reason c) (su_id user))
                             involved) |}).
Proof.
  intros Hwf Hnd involved. unfold on_disconnect.
  unfold mbind at 1, M_bind at 1, getCalls. simpl. fold involved.
  apply for_each_endCall.
  - subst involved. apply NoDup_map_filter. by rewrite calls_wf_ids.
  - intros c Hc. subst involved.
    apply list_elem_of_In, filter_In in Hc as [Hc _].
    apply list_elem_of_In in Hc. unfold map_values in Hc.
    apply list_elem_of_fmap in Hc as ([k c'] & -> & Hin). simpl.
    unfold calls_wf in Hwf. rewrite Forall_forall in Hwf.
    pose proof (Hwf _ Hin) as Hk. simpl in Hk. rewrite Hk.
    by apply map_get_elem.
Qed.

(** X17. In a registry that files each call once, under its own id (as
    every registry reached from the initial world does), a disconnect of
    a user removes exactly the calls that user takes part in and keeps
    the others; for each removed call, in registry order, every
    participant is notified with [call_ended], ended by the disconnected
    user, with reason [missed] if the call was ringing and [ended] if it
    was active; the dataset is untouched. *)
Theorem disconnect_ends_calls `{JsEnv} :
  (∀ cs, calls_wf (activeCalls (exec_all cs initialWorld))
         ∧ calls_distinct (activeCalls (exec_all cs initialWorld)))
  ∧ ∀ user w,
      calls_wf (activeCalls w) -> calls_distinct (activeCalls w) ->
      let w' := snd (on_disconnect user w) in
      (∀ k, map_get k (activeCalls w')
            = match map_get k (activeCalls w) with
              | Some c =>
                  if includes (call_participantIds c) (su_id user)
                  then None else Some c
              | None => None
              end)
      ∧ store w' = store w
      ∧ effects w'
        = effects w
          ++ concat
               (map (λ c, ended c (disconnect_reason c) (su_id user))
                  (List.filter
                     (λ c, includes (call_participantIds c) (su_id user))
                     (map_values (activeCalls w)))).
Proof.
  split.
  { intros cs. split.
    - apply exec_all_calls_wf. constructor.
    - apply exec_all_calls_distinct. constructor. }
  intros user w Hwf Hnd w'. subst w'.
  rewrite (on_disconnect_run user w Hwf Hnd). simpl.
  split; [|done]. intros k. rewrite map_get_foldl_delete.
  set (involved := List.filter _ _).
  assert (Hinv : ∀ c, c ∈ involved ↔
            map_get (call_id c) (activeCalls w) = Some c
            ∧ includes (call_participantIds c) (su_id user) = true).
  { intros c. subst involved. rewrite list_elem_of_In, filter_In.
    rewrite <- list_elem_of_In. unfold map_values. rewrite list_elem_of_fmap.
    split.
    - intros [([k' c'] & -> & Hin) Hu]. split; [|done]. simpl.
      unfold calls_wf in Hwf. rewrite Forall_forall in Hwf.
      pose proof (Hwf _ Hin) as Hk. simpl in Hk. rewrite Hk.
      by apply map_get_elem.
    - intros [Hget Hu]. split; [|done]. exists (call_id c, c).
      split; [done|]. by apply map_get_Some_elem. }
  destruct (map_get k (activeCalls w)) as [c|] eqn:Hget.
  - pose proof (calls_wf_get _ _ _ Hwf Hget) as Hid.
    destruct (includes (call_participantIds c) (su_id user)) eqn:Hu.
    + rewrite bool_decide_eq_true_2; [done|].
      apply list_elem_of_fmap. exists c. split; [done|].
      apply Hinv. by rewrite Hid.
    + rewrite bool_decide_eq_false_2; [done|].
      intros Hin. apply list_elem_of_fmap in Hin as (c' & -> & Hc').
      apply Hinv in Hc' as [Hget' Hu']. congruence.
  - by case_bool_decide.
Qed.

(** An instance: bob disconnects while the call is ringing. *)
Lemma disconnect_ends_calls_witness :
  calls_wf (activeCalls ringingWorld)
  ∧ calls_distinct (activeCalls ringingWorld)
  ∧ map_get "k1" (activeCalls (snd (on_disconnect bobSession ringingWorld)))
    = None
  ∧ effects (snd (on_disconnect bobSession ringingWorld))
    = effects ringingWorld
      ++ [Emit "user:a1" (call_ended "k1" "c1" "missed" (Some "b1"));
          Emit "user:b1" (call_ended "k1" "c1" "missed" (Some "b1"))].
Proof.
  assert (Hwf : calls_wf (activeCalls ringingWorld))
    by (vm_compute; repeat constructor).
  assert (Hnd : calls_distinct (activeCalls ringingWorld)).
  { vm_compute. apply NoDup_singleton. }
  destruct (proj2 (@disconnect_ends_calls codeUnitEnv) bobSession ringingWorld
              Hwf Hnd) as (Hget & _ & Heff).
  split; [exact Hwf|]. split; [exact Hnd|]. split.
  - rewrite (Hget "k1"). vm_compute. reflexivity.
  - rewrite Heff. vm_compute. reflexivity.
Defined.

(** ** Reading messages over HTTP *)

Lemma getUserById_Some userId d u :
  getUserById userId d = Some u -> u ∈ users d ∧ u_id u = userId.
Proof.
  unfold getUserById, js_find, str_eq. intros Hfind.
  apply find_some in Hfind as [Hin Hid].
  split; [by apply list_elem_of_In|by apply bool_decide_eq_true in Hid].
Qed.

(** X18. [GET /api/chats/:chatId/messages] answers 200 exactly when the
    authenticated user exists, the chat exists and the user is one of its
    participants; it answers 401 for an unknown user, 404 for an unknown
    chat and 403 for a user outside the chat; and every message of a 200
    answer belongs to the requested chat. *)
Theorem get_chat_messages_access `{JsEnv} userId chatId d :
  let r := get_chat_messages userId chatId d in
  (resp_status r = 200
   ↔ is_Some (getUserById userId d)
     ∧ ∃ c, getChatById chatId d = Some c ∧ userId ∈ c_participantIds c)
  ∧ (getUserById userId d = None ->
     r = {| resp_status := 401; resp_body := ErrorBody UserNotFound |})
  ∧ (is_Some (getUserById userId d) -> getChatById chatId d = None ->
     r = {| resp_status := 404; resp_body := ErrorBody ChatNotFound |})
  ∧ (is_Some (getUserById userId d) ->
     ∀ c, getChatById chatId d = Some c -> userId ∉ c_participantIds c ->
          r = {| resp_status := 403; resp_body := ErrorBody ChatForbidden |})
  ∧ (∀ ms, resp_body r = MessagesBody ms -> ∀ m, m ∈ ms -> m_chatId m = chatId).
Proof.
  intros r. subst r. unfold get_chat_messages, ensureChatAccess, isUserInChat,
    includes.
  destruct (getUserById userId d) as [u|] eqn:Hu.
  2:{ split; [split; [done|by intros [[? ?] _]]|].
      repeat split; try done; by intros [? ?]. }
  apply getUserById_Some in Hu as [_ ->].
  destruct (getChatById chatId d) as [c|] eqn:Hc.
  2:{ split; [split; [done|by intros [_ (? & ? & _)]]|].
      repeat split; done. }
  assert (Hid : c_id c = chatId).
  { unfold getChatById, js_find, str_eq in Hc.
    apply find_some in Hc as [_ Hid]. by apply bool_decide_eq_true in Hid. }
  case_bool_decide as Hin; simpl.
  - split; [split; [intros _; split; [done|by exists c]|done]|].
    split; [done|]. split; [done|]. split.
    + intros _ c' [= <-] Hn. done.
    + intros ms [= <-] m Hm. unfold listMessagesForChat in Hm.
      apply list_elem_of_fmap in Hm as (m0 & -> & Hm0). simpl.
      unfold js_slice_from in Hm0. apply subseteq_drop in Hm0.
      apply list_elem_of_In, filter_In in Hm0 as [_ Hm0].
      unfold str_eq in Hm0. apply bool_decide_eq_true in Hm0. congruence.
  - split; [split; [done|]|].
    { intros [_ (c' & [= <-] & Hin')]. done. }
    repeat split; done.
Qed.

(** An instance: bob reads the sample chat, carl may not. *)
Lemma get_chat_messages_access_witness :
  is_Some (getUserById "b1" greetedData)
  ∧ (∃ c, getChatById "c1" greetedData = Some c ∧ "b1" ∈ c_participantIds c)
  ∧ resp_status (@get_chat_messages codeUnitEnv "b1" "c1" greetedData) = 200.
Proof.
  assert (Hu : is_Some (getUserById "b1" greetedData))
    by (vm_compute; by eexists).
  assert (∃ c, getChatById "c1" greetedData = Some c
               ∧ c_participantIds c = ["a1"; "b1"]) as (c & Hc & Hp)
    by (vm_compute; by eexists).
  assert (Hin : "b1" ∈ c_participantIds c)
    by (rewrite Hp; apply list_elem_of_further, list_elem_of_here).
  split; [exact Hu|]. split; [by exists c|].
  apply (proj1 (@get_chat_messages_access codeUnitEnv "b1" "c1" greetedData)).
  split; [exact Hu|]. by exists c.
Defined.

(** ** Uploads *)

(** X19. When the authenticated user exists and an upload that came with
    a file on disk does not end in 201, the handler removes that file and
    does nothing else: dataset and registry are untouched and no
    notification is sent. When it ends in 201 no file is removed: the
    only effects are the notifications of the new message. *)
Theorem upload_failure_removes_file `{JsEnv} uuid now userId chatId f form w :
  let r := post_chat_upload uuid now userId chatId (Some f) form w in
  is_Some (getUserById userId (store w)) ->
  f_path f ≠ "" ->
  (resp_status (fst r) ≠ 201 ->
   snd r = {| store := store w;
              activeCalls := activeCalls w;
              effects := effects w ++ [RemoveFile (f_path f)] |})
  ∧ (resp_status (fst r) = 201 ->
     ∀ e, e ∈ effects (snd r) -> e ∈ effects w ∨ ∃ room n, e = Emit room n).
Proof.
  intros r [u Hu] Hpath. subst r.
  assert (Hrm : ∀ w0, remove_upload (Some f) w0
            = (tt, {| store := store w0; activeCalls := activeCalls w0;
                      effects := effects w0 ++ [RemoveFile (f_path f)] |})).
  { intros w0. unfold remove_upload, str_eq.
    by rewrite bool_decide_eq_false_2. }
  destruct (post_chat_upload _ _ _ _ _ _ w) as [resp w1] eqn:Hrun. simpl.
  revert Hrun. unfold post_chat_upload.
  unfold mbind at 1, M_bind at 1, getStore. simpl. rewrite Hu.
  destruct (ensureChatAccess _ _ _) as [[st e]|c] eqn:Hacc.
  { unfold mbind, M_bind, mret, M_ret. rewrite Hrm. simpl.
    intros [= <- <-]. simpl. split; [done|]. intros ->. exfalso.
    unfold ensureChatAccess in Hacc. by repeat case_match. }
  unfold mbind at 1, M_bind at 1.
  unfold sendMessageAndBroadcast, mbind, M_bind, getStore, mret, M_ret. simpl.
  destruct (addMessage _ _ _ _ _ _ _ _ _) as [e|[m d']] eqn:Hadd; simpl.
  - rewrite Hrm. simpl. intros [= <- <-]. simpl. by split.
  - rewrite emitNewMessage_run. simpl. intros [= <- <-]. simpl.
    split; [done|]. intros _ e He.
    rewrite !elem_of_app in He. destruct He as [[He|He]|He]; [by left|..];
      apply list_elem_of_fmap in He as (p & -> & _); right; by eexists _, _.
Qed.

(** An instance: carl, who exists but is outside the chat, uploads. *)
Lemma upload_failure_removes_file_witness :
  let carl := {| u_id := "x9"; u_name := "carl"; u_login := Some "carl";
                 u_email := None; u_passwordHash := None;
                 u_createdAt := "2024-01-01T00:00:02.000Z" |} in
  let w := {| store := {| users := [ann; bob; carl]; chats := [chat_c1];
                          messages := [] |};
              activeCalls := []; effects := [] |} in
  let f := {| f_path := "/srv/uploads/1-x.png"; f_filename := "1-x.png";
              f_originalname := "x.png"; f_mimetype := "image/png";
              f_size := 10 |} in
  effects (snd (@post_chat_upload codeUnitEnv "m1" "2024-01-03T00:00:00.000Z"
                  "x9" "c1" (Some f) JNull w))
  = [RemoveFile "/srv/uploads/1-x.png"].
Proof.
  intros carl w f.
  assert (Hu : is_Some (getUserById "x9" (store w)))
    by (vm_compute; by eexists).
  assert (Hp : f_path f ≠ "") by done.
  assert (Hs : resp_status
                 (fst (@post_chat_upload codeUnitEnv "m1"
                         "2024-01-03T00:00:00.000Z" "x9" "c1" (Some f) JNull w))
               ≠ 201) by (vm_compute; discriminate).
  rewrite (proj1 (@upload_failure_removes_file codeUnitEnv _ _ _ _ _ _ _ Hu Hp) Hs).
  reflexivity.
Defined.

(** ** One-time codes *)

Lemma cleanupExpired_lookup now m k v :
  cleanupExpired now m !! k = Some v ↔ m !! k = Some v ∧ now < otp_expiresAt v.
Proof.
  unfold cleanupExpired. rewrite map_lookup_filter_Some. simpl.
  split; intros [Hm Hv]; (split; [done|lia]).
Qed.

Lemma cleanupExpired_lookup_None now m k :
  m !! k = None -> cleanupExpired now m !! k = None.
Proof.
  intros Hm. unfold cleanupExpired. apply map_lookup_filter_None. by left.
Qed.

Lemma trim_start_no_ws l :
  Forall (λ a, is_ws a = false) l -> trim_start l = l.
Proof. intros Hl. destruct Hl as [|a l Ha _]; simpl; [done|by rewrite Ha]. Qed.

Lemma trim_no_ws s :
  Forall (λ a, is_ws a = false) (list_ascii_of_string s) -> trim s = s.
Proof.
  intros Hs. unfold trim. rewrite (trim_start_no_ws _ Hs).
  rewrite trim_start_no_ws by (by apply List.Forall_rev).
  rewrite rev_involutive. apply string_of_list_ascii_of_string.
Qed.

Lemma pretty_N_char_no_ws x : is_ws (pretty_N_char x) = false.
Proof. unfold pretty_N_char. by repeat case_match. Qed.

Lemma pretty_N_go_no_ws x s :
  Forall (λ a, is_ws a = false) (list_ascii_of_string s) ->
  Forall (λ a, is_ws a = false) (list_ascii_of_string (pretty_N_go x s)).
Proof.
  revert s. induction (N.lt_wf_0 x) as [x _ IH]. intros s Hs.
  destruct (decide (x = 0%N)) as [->|Hx]; [by rewrite pretty_N_go_0|].
  rewrite pretty_N_go_step by lia. apply IH; [apply N.div_lt; lia|].
  simpl. constructor; [apply pretty_N_char_no_ws|done].
Qed.

Lemma pretty_N_no_ws (x : N) :
  Forall (λ a, is_ws a = false) (list_ascii_of_string (pretty x)).
Proof.
  unfold pretty, pretty_N. case_decide.
  - by repeat constructor.
  - apply pretty_N_go_no_ws. constructor.
Qed.

Lemma generateCode_trimmed floored :
  trim (generateCode floored) = generateCode floored.
Proof.
  apply trim_no_ws. unfold generateCode, js_String, pretty, pretty_Z.
  destruct floored as [|p|p].
  - by repeat constructor.
  - apply (pretty_N_no_ws (Npos p)).
  - simpl. constructor; [done|]. apply (pretty_N_no_ws (Npos p)).
Qed.

Lemma ceil_div_1000_bounds x :
  x <= 1000 * ceil_div_1000 x < x + 1000.
Proof.
  unfold ceil_div_1000.
  pose proof (Z.div_mod (- x) 1000 ltac:(lia)) as Hdm.
  pose proof (Z.mod_pos_bound (- x) 1000 ltac:(lia)) as Hb. lia.
Qed.

Lemma issueOtp_cases cfg now1 now2 floored email m :
  let e := normalizeEmail email in
  let m0 := cleanupExpired now1 m in
  (∃ existing,
     m0 !! e = Some existing
     ∧ now2 - otp_lastSentAt existing < OTP_COOLDOWN_MS cfg
     ∧ issueOtp cfg now1 now2 floored email m
       = (IssueCooldown
            (ceil_div_1000
               (OTP_COOLDOWN_MS cfg - (now2 - otp_lastSentAt existing))),
          m0))
  ∨ ((∀ existing, m0 !! e = Some existing ->
        OTP_COOLDOWN_MS cfg <= now2 - otp_lastSentAt existing)
     ∧ issueOtp cfg now1 now2 floored email m
       = (IssueOk (generateCode floored) (now2 + OTP_TTL_MS cfg)
            (round_div_1000 (OTP_TTL_MS cfg))
            (round_div_1000 (OTP_COOLDOWN_MS cfg)),
          <[e := {| otp_code := generateCode floored;
                    otp_expiresAt := now2 + OTP_TTL_MS cfg;
                    otp_lastSentAt := now2;
                    otp_attemptsLeft := OTP_MAX_ATTEMPTS cfg |}]> m0)).
Proof.
  intros e m0. unfold issueOtp. fold e. fold m0.
  destruct (m0 !! e) as [existing|] eqn:Hm.
  - destruct (Z.ltb_spec (now2 - otp_lastSentAt existing) (OTP_COOLDOWN_MS cfg)).
    + left. by exists existing.
    + right. split; [|done]. by intros ? [= <-].
  - right. split; [|done]. by intros ? [=].
Qed.

(** X20. [issueOtp] refuses exactly while a code for the same normalised
    email is unexpired and was sent less than the cooldown ago: it then
    keeps the stored code as it is and reports the remaining cooldown
    rounded up to whole seconds, which is at least one second. In every
    other case a new code is stored for the email, valid for the
    configured lifetime, with the full number of attempts. *)
Theorem issueOtp_cooldown cfg now1 now2 floored email m :
  let e := normalizeEmail email in
  let r := issueOtp cfg now1 now2 floored email m in
  (∀ existing,
     m !! e = Some existing ->
     now1 < otp_expiresAt existing ->
     now2 - otp_lastSentAt existing < OTP_COOLDOWN_MS cfg ->
     let remaining :=
       OTP_COOLDOWN_MS cfg - (now2 - otp_lastSentAt existing) in
     ∃ retry,
       fst r = IssueCooldown retry
       ∧ snd r !! e = Some existing
       ∧ 1 <= retry
       ∧ remaining <= 1000 * retry < remaining + 1000)
  ∧ ((∀ existing,
        m !! e = Some existing ->
        now1 < otp_expiresAt existing ->
        OTP_COOLDOWN_MS cfg <= now2 - otp_lastSentAt existing) ->
     fst r = IssueOk (generateCode floored) (now2 + OTP_TTL_MS cfg)
               (round_div_1000 (OTP_TTL_MS cfg))
               (round_div_1000 (OTP_COOLDOWN_MS cfg))
     ∧ snd r !! e
       = Some {| otp_code := generateCode floored;
                 otp_expiresAt := now2 + OTP_TTL_MS cfg;
                 otp_lastSentAt := now2;
                 otp_attemptsLeft := OTP_MAX_ATTEMPTS cfg |}).
Proof.
  intros e r. subst r e.
  pose proof (issueOtp_cases cfg now1 now2 floored email m) as Hcases.
  cbv zeta in Hcases.
  destruct Hcases as [(ex & Hex & Hcd & ->)|[Hfree ->]]; simpl.
  - split.
    + intros existing Hm Hlive Hcool.
      assert (ex = existing) as ->.
      { apply cleanupExpired_lookup in Hex as [Hex _]. congruence. }
      eexists. split; [done|]. split; [done|].
      pose proof (ceil_div_1000_bounds
                    (OTP_COOLDOWN_MS cfg - (now2 - otp_lastSentAt existing))).
      lia.
    + intros Hfree. apply cleanupExpired_lookup in Hex as [Hex Hlive].
      specialize (Hfree ex Hex Hlive). lia.
  - split.
    + intros existing Hm Hlive Hcool.
      specialize (Hfree existing (proj2 (cleanupExpired_lookup _ _ _ _)
                                    (conj Hm Hlive))). lia.
    + intros _. split; [done|]. by rewrite lookup_insert_eq.
Qed.

(** An instance under the default settings: the first request at time
    1000 stores a code, and a second request one second later is refused
    for another 59 seconds while the code stays. *)
Lemma issueOtp_cooldown_witness :
  snd issuedOtp !! normalizeEmail annEmail = Some issuedEntry
  ∧ fst (issueOtp defaultOtpConfig 2000 2000 654321 annEmail (snd issuedOtp))
    = IssueCooldown 59
  ∧ snd (issueOtp defaultOtpConfig 2000 2000 654321 annEmail (snd issuedOtp))
      !! normalizeEmail annEmail = Some issuedEntry.
Proof.
  assert (Hm : snd issuedOtp !! normalizeEmail annEmail = Some issuedEntry)
    by (vm_compute; reflexivity).
  assert (Hlive : 2000 < otp_expiresAt issuedEntry) by (simpl; lia).
  assert (Hcool : 2000 - otp_lastSentAt issuedEntry
                  < OTP_COOLDOWN_MS defaultOtpConfig) by (simpl; lia).
  assert (Hres : fst (issueOtp defaultOtpConfig 2000 2000 654321 annEmail
                        (snd issuedOtp)) = IssueCooldown 59)
    by (vm_compute; reflexivity).
  split; [exact Hm|]. split; [exact Hres|].
  destruct (proj1 (issueOtp_cooldown defaultOtpConfig 2000 2000 654321
                     annEmail (snd issuedOtp)) issuedEntry Hm Hlive Hcool)
    as (retry & _ & Hkept & _).
  exact Hkept.
Defined.

Lemma verifyOtp_missing now1 now2 email typed m :
  cleanupExpired now1 m !! normalizeEmail email = None ->
  verifyOtp now1 now2 email typed m = (VerifyNotFound, cleanupExpired now1 m).
Proof. intros Hm. unfold verifyOtp. by rewrite Hm. Qed.

Lemma verifyOtp_match now1 now2 email typed m entry :
  m !! normalizeEmail email = Some entry ->
  now1 < otp_expiresAt entry ->
  now2 < otp_expiresAt entry ->
  otp_code entry = trim (js_String (js_or typed (JStr ""))) ->
  verifyOtp now1 now2 email typed m
  = (VerifyOk, delete (normalizeEmail email) (cleanupExpired now1 m)).
Proof.
  intros Hm H1 H2 Hcode. unfold verifyOtp.
  rewrite (proj2 (cleanupExpired_lookup _ _ _ _) (conj Hm H1)).
  destruct (Z.leb_spec (otp_expiresAt entry) now2); [lia|].
  unfold str_eq. by rewrite bool_decide_eq_true_2.
Qed.

Lemma verifyOtp_mismatch now1 now2 email typed m entry :
  m !! normalizeEmail email = Some entry ->
  otp_code entry ≠ trim (js_String (js_or typed (JStr ""))) ->
  let e := normalizeEmail email in
  let m' := snd (verifyOtp now1 now2 email typed m) in
  fst (verifyOtp now1 now2 email typed m) ≠ VerifyOk
  ∧ (m' !! e = None
     ∨ m' !! e = Some {| otp_code := otp_code entry;
                         otp_expiresAt := otp_expiresAt entry;
                         otp_lastSentAt := otp_lastSentAt entry;
                         otp_attemptsLeft := otp_attemptsLeft entry - 1 |}
       ∧ 0 < otp_attemptsLeft entry - 1).
Proof.
  intros Hm Hcode e m'. subst e m'. unfold verifyOtp.
  destruct (cleanupExpired now1 m !! normalizeEmail email) as [en|] eqn:Hc.
  - apply cleanupExpired_lookup in Hc as Hc'. destruct Hc' as [Hen _].
    assert (en = entry) as -> by congruence.
    destruct (Z.leb_spec (otp_expiresAt entry) now2); simpl.
    { split; [done|]. left. by rewrite lookup_delete_eq. }
    unfold str_eq. rewrite bool_decide_eq_false_2 by done. simpl.
    destruct (Z.leb_spec (otp_attemptsLeft entry - 1) 0); simpl.
    + split; [done|]. left. by rewrite lookup_delete_eq.
    + split; [done|]. right. by rewrite lookup_insert_eq.
  - simpl. split; [done|]. by left.
Qed.

(** X21. A code that [issueOtp] has just stored verifies once: given the
    same email up to case and surrounding whitespace, and the code up to
    surrounding whitespace, before the reported expiry, [verifyOtp]
    answers ok and removes the entry, so that every later verification
    for that email finds no code. The code as issued, typed back
    unchanged, qualifies. *)
Theorem otp_issue_then_verify cfg now1 now2 floored email m
    code expiresAt ttlSec retryAfterSec email' typed now3 now4 :
  fst (issueOtp cfg now1 now2 floored email m)
    = IssueOk code expiresAt ttlSec retryAfterSec ->
  normalizeEmail email' = normalizeEmail email ->
  trim (js_String (js_or typed (JStr ""))) = code ->
  now3 < expiresAt ->
  now4 < expiresAt ->
  let issued := snd (issueOtp cfg now1 now2 floored email m) in
  let verified := verifyOtp now3 now4 email' typed issued in
  fst verified = VerifyOk
  ∧ snd verified !! normalizeEmail email = None
  ∧ (∀ now5 now6 typed',
       fst (verifyOtp now5 now6 email' typed' (snd verified)) = VerifyNotFound)
  ∧ trim (js_String (js_or (JStr code) (JStr ""))) = code.
Proof.
  intros Hissue Hemail Htyped H3 H4 issued verified. subst issued verified.
  pose proof (issueOtp_cases cfg now1 now2 floored email m) as Hcases.
  cbv zeta in Hcases.
  destruct Hcases as [(ex & _ & _ & Hrun)|[_ Hrun]];
    rewrite Hrun in Hissue |- *; simpl in Hissue; [done|].
  injection Hissue as <- <- _ _. simpl.
  rewrite (verifyOtp_match now3 now4 email' typed _
             {| otp_code := generateCode floored;
                otp_expiresAt := now2 + OTP_TTL_MS cfg;
                otp_lastSentAt := now2;
                otp_attemptsLeft := OTP_MAX_ATTEMPTS cfg |}); simpl;
    [|by rewrite Hemail, lookup_insert_eq|done..].
  rewrite Hemail.
  split; [done|]. split; [by rewrite lookup_delete_eq|]. split.
  - intros now5 now6 typed'. rewrite verifyOtp_missing; [done|].
    rewrite Hemail. apply cleanupExpired_lookup_None.
    by rewrite lookup_delete_eq.
  - rewrite js_String_or_empty. apply generateCode_trimmed.
Qed.

(** An instance: the code issued for ann at time 1000, typed back with
    spaces around it and the email in lower case, verifies at time
    5000. *)
Lemma otp_issue_then_verify_witness :
  fst issuedOtp = IssueOk "123456" 601000 600 60
  ∧ fst (verifyOtp 5000 5000 (JStr "ann@example.com") (JStr " 123456 ")
           (snd issuedOtp)) = VerifyOk
  ∧ snd (verifyOtp 5000 5000 (JStr "ann@example.com") (JStr " 123456 ")
           (snd issuedOtp)) !! normalizeEmail annEmail = None.
Proof.
  assert (Hissue : fst (issueOtp defaultOtpConfig 1000 1000 123456 annEmail ∅)
                   = IssueOk "123456" 601000 600 60)
    by (vm_compute; reflexivity).
  assert (Hemail : normalizeEmail (JStr "ann@example.com")
                   = normalizeEmail annEmail) by (vm_compute; reflexivity).
  assert (Htyped : trim (js_String (js_or (JStr " 123456 ") (JStr "")))
                   = "123456") by (vm_compute; reflexivity).
  assert (H3 : 5000 < 601000) by lia.
  split; [exact Hissue|].
  destruct (otp_issue_then_verify defaultOtpConfig 1000 1000 123456 annEmail ∅
              "123456" 601000 600 60 (JStr "ann@example.com")
              (JStr " 123456 ") 5000 5000 Hissue Hemail Htyped H3 H3)
    as (Hok & Hgone & _).
  split; [exact Hok|exact Hgone].
Defined.

(** X22. [verifyOtp] answers ok exactly when the map holds, under the
    normalised email, an entry that is unexpired at both clock readings
    of the call and whose code equals the typed code after trimming; it
    then removes the entry. In particular an expired code never
    verifies. *)
Theorem verifyOtp_ok_iff now1 now2 email typed m :
  let e := normalizeEmail email in
  let r := verifyOtp now1 now2 email typed m in
  (fst r = VerifyOk
   ↔ ∃ entry, m !! e = Some entry
              ∧ now1 < otp_expiresAt entry
              ∧ now2 < otp_expiresAt entry
              ∧ otp_code entry = trim (js_String (js_or typed (JStr ""))))
  ∧ (fst r = VerifyOk -> snd r !! e = None)
  ∧ (∀ entry, m !! e = Some entry ->
       otp_expiresAt entry <= now1 ∨ otp_expiresAt entry <= now2 ->
       fst r ≠ VerifyOk ∧ snd r !! e = None).
Proof.
  intros e r. subst e r.
  assert (Hiff :
    fst (verifyOtp now1 now2 email typed m) = VerifyOk
    ↔ ∃ entry, m !! normalizeEmail email = Some entry
               ∧ now1 < otp_expiresAt entry
               ∧ now2 < otp_expiresAt entry
               ∧ otp_code entry = trim (js_String (js_or typed (JStr "")))).
  { split.
    - unfold verifyOtp.
      destruct (cleanupExpired now1 m !! normalizeEmail email) as [en|] eqn:Hc;
        [|done].
      apply cleanupExpired_lookup in Hc as [Hen Hlive].
      destruct (Z.leb_spec (otp_expiresAt en) now2); [done|].
      unfold str_eq. case_bool_decide as Hcode; simpl.
      + intros _. by exists en.
      + by destruct (_ <=? _).
    - intros (entry & Hm & H1 & H2 & Hcode).
      by rewrite (verifyOtp_match _ _ _ _ _ _ Hm H1 H2 Hcode). }
  split; [exact Hiff|]. split.
  - intros (entry & Hm & H1 & H2 & Hcode)%Hiff.
    rewrite (verifyOtp_match _ _ _ _ _ _ Hm H1 H2 Hcode). simpl.
    by rewrite lookup_delete_eq.
  - intros entry Hm Hexp. split.
    + intros (en & Hen & H1 & H2 & _)%Hiff.
      assert (en = entry) as -> by congruence. lia.
    + unfold verifyOtp.
      destruct (cleanupExpired now1 m !! normalizeEmail email) as [en|] eqn:Hc.
      * apply cleanupExpired_lookup in Hc as [Hen Hlive].
        assert (en = entry) as -> by congruence.
        destruct (Z.leb_spec (otp_expiresAt entry) now2); [|lia].
        simpl. by rewrite lookup_delete_eq.
      * done.
Qed.

(** An instance: the code issued for ann at time 1000 expires at 601000,
    and typed correctly at that time it is refused and removed. *)
Lemma verifyOtp_ok_iff_witness :
  snd issuedOtp !! normalizeEmail annEmail = Some issuedEntry
  ∧ fst (verifyOtp 601000 601000 annEmail (JStr "123456") (snd issuedOtp))
    ≠ VerifyOk
  ∧ snd (verifyOtp 601000 601000 annEmail (JStr "123456") (snd issuedOtp))
      !! normalizeEmail annEmail = None.
Proof.
  assert (Hm : snd issuedOtp !! normalizeEmail annEmail = Some issuedEntry)
    by (vm_compute; reflexivity).
  assert (Hexp : otp_expiresAt issuedEntry <= 601000) by (simpl; lia).
  split; [exact Hm|].
  exact (proj2 (proj2 (verifyOtp_ok_iff 601000 601000 annEmail (JStr "123456")
                         (snd issuedOtp)))
           issuedEntry Hm (or_introl Hexp)).
Defined.

Lemma verify_all_missing email attempts m :
  m !! normalizeEmail email = None ->
  verify_all email attempts m !! normalizeEmail email = None.
Proof.
  revert m. induction attempts as [|a attempts IH]; intros m Hm; [done|].
  simpl. apply IH. rewrite verifyOtp_missing; simpl;
    by apply cleanupExpired_lookup_None.
Qed.

(** X23. A stored code survives fewer wrong guesses than it has attempts
    left: after a run of at least one verification for its email, none of
    which types the stored code, that is at least as long as the attempts
    the entry had left, the entry is gone, so that even the right code is
    then answered with code-not-found. *)
Theorem otp_attempts_bounded email attempts m entry :
  m !! normalizeEmail email = Some entry ->
  (∀ a, a ∈ attempts ->
     trim (js_String (js_or (at_code a) (JStr ""))) ≠ otp_code entry) ->
  (1 <= length attempts)%nat ->
  otp_attemptsLeft entry <= Z.of_nat (length attempts) ->
  verify_all email attempts m !! normalizeEmail email = None
  ∧ ∀ now1 now2 typed,
      fst (verifyOtp now1 now2 email typed (verify_all email attempts m))
      = VerifyNotFound.
Proof.
  intros Hm Hwrong Hone Hlen.
  assert (Hgone : verify_all email attempts m !! normalizeEmail email = None).
  { revert m entry Hm Hwrong Hone Hlen.
    induction attempts as [|a attempts IH]; intros m entry Hm Hwrong Hone Hlen.
    - simpl in Hone. lia.
    - simpl.
      assert (Hne : otp_code entry
                    ≠ trim (js_String (js_or (at_code a) (JStr "")))).
      { intros Heq. apply (Hwrong a); [by left|done]. }
      destruct (verifyOtp_mismatch (at_now1 a) (at_now2 a) email (at_code a)
                  m entry Hm Hne) as [_ [Hnone|[Hsome Hpos]]].
      + by apply verify_all_missing.
      + simpl in Hlen. apply (IH _ _ Hsome); simpl.
        * intros a' Ha'. apply Hwrong. by right.
        * lia.
        * lia. }
  split; [exact Hgone|].
  intros now1 now2 typed. rewrite verifyOtp_missing; [done|].
  by apply cleanupExpired_lookup_None.
Qed.

(** An instance under the default settings: after five wrong guesses the
    code issued for ann is gone and the right code is refused. *)
Lemma otp_attempts_bounded_witness :
  let wrong := {| at_now1 := 2000; at_now2 := 2000; at_code := JStr "000000" |} in
  snd issuedOtp !! normalizeEmail annEmail = Some issuedEntry
  ∧ fst (verifyOtp 3000 3000 annEmail (JStr "123456")
           (verify_all annEmail (replicate 5 wrong) (snd issuedOtp)))
    = VerifyNotFound.
Proof.
  intros wrong.
  assert (Hm : snd issuedOtp !! normalizeEmail annEmail = Some issuedEntry)
    by (vm_compute; reflexivity).
  assert (Hwrong : ∀ a, a ∈ replicate 5 wrong ->
            trim (js_String (js_or (at_code a) (JStr "")))
            ≠ otp_code issuedEntry).
  { intros a Ha. apply elem_of_replicate in Ha as [-> _].
    vm_compute. discriminate. }
  assert (Hone : (1 <= length (replicate 5 wrong))%nat) by (simpl; lia).
  assert (Hlen : otp_attemptsLeft issuedEntry
                 <= Z.of_nat (length (replicate 5 wrong))) by (simpl; lia).
  split; [exact Hm|].
  exact (proj2 (otp_attempts_bounded annEmail (replicate 5 wrong)
                  (snd issuedOtp) issuedEntry Hm Hwrong Hone Hlen)
           3000 3000 (JStr "123456")).
Defined.

(** X24. Neither [issueOtp] nor [verifyOtp] touches the code of another
    email: under every other key the map afterwards holds exactly what
    it held before, unless that entry had expired by the first clock
    reading of the call, in which case it is removed. *)
Theorem otp_other_emails_untouched cfg now1 now2 floored email typed m k :
  k ≠ normalizeEmail email ->
  let kept :=
    match m !! k with
    | Some entry => if decide (now1 < otp_expiresAt entry) then Some entry else None
    | None => None
    end in
  snd (issueOtp cfg now1 now2 floored email m) !! k = kept
  ∧ snd (verifyOtp now1 now2 email typed m) !! k = kept.
Proof.
  intros Hk kept.
  assert (Hclean : cleanupExpired now1 m !! k = kept).
  { subst kept. destruct (m !! k) as [entry|] eqn:Hm.
    - case_decide as Hlive.
      + by apply cleanupExpired_lookup.
      + destruct (cleanupExpired now1 m !! k) as [en|] eqn:Hc; [|done].
        apply cleanupExpired_lookup in Hc as [Hen Hl].
        assert (en = entry) as -> by congruence. lia.
    - by apply cleanupExpired_lookup_None. }
  split.
  - pose proof (issueOtp_cases cfg now1 now2 floored email m) as Hcases.
    cbv zeta in Hcases.
    destruct Hcases as [(ex & _ & _ & ->)|[_ ->]]; simpl; [done|].
    by rewrite lookup_insert_ne.
  - unfold verifyOtp.
    destruct (cleanupExpired now1 m !! normalizeEmail email) as [en|]; [|done].
    destruct (_ <=? _); simpl; [by rewrite lookup_delete_ne|].
    destruct (negb _); simpl; [|by rewrite lookup_delete_ne].
    destruct (_ <=? _); simpl;
      [by rewrite lookup_delete_ne|by rewrite lookup_insert_ne].
Qed.

(** An instance: a wrong guess for bob leaves ann's code as issued. *)
Lemma otp_other_emails_untouched_witness :
  snd issuedOtp !! normalizeEmail annEmail = Some issuedEntry
  ∧ snd (verifyOtp 2000 2000 (JStr "bob@example.com") (JStr "1")
           (snd issuedOtp)) !! normalizeEmail annEmail = Some issuedEntry.
Proof.
  assert (Hm : snd issuedOtp !! normalizeEmail annEmail = Some issuedEntry)
    by (vm_compute; reflexivity).
  assert (Hk : normalizeEmail annEmail
               ≠ normalizeEmail (JStr "bob@example.com"))
    by (vm_compute; discriminate).
  split; [exact Hm|].
  pose proof (proj2 (otp_other_emails_untouched defaultOtpConfig 2000 2000 0
                       (JStr "bob@example.com") (JStr "1") (snd issuedOtp)
                       (normalizeEmail annEmail) Hk)) as Hkept.
  rewrite Hm in Hkept.
  rewrite decide_True in Hkept by (simpl; lia). exact Hkept.
Defined.

(** ** Bearer tokens *)

Lemma substring_0_length s : String.substring 0 (String.length s) s = s.
Proof. induction s as [|b s IH]; simpl; [done|]. by rewrite IH. Qed.

Lemma prefix_split p s :
  String.prefix p s = true ->
  s = p +:+ String.substring (String.length p)
              (String.length s - String.length p) s.
Proof.
  revert s. induction p as [|a p IH]; intros s Hp.
  - simpl. by rewrite Nat.sub_0_r, substring_0_length.
  - destruct s as [|b s]; [done|]. simpl in Hp.
    destruct (ascii_dec a b) as [->|]; [|done].
    exact (f_equal (String b) (IH s Hp)).
Qed.

Lemma prefix_app p s : String.prefix p (p +:+ s) = true.
Proof.
  induction p as [|a p IH]; [by destruct s|].
  change (String.prefix (String a p) (String a (p +:+ s)) = true).
  simpl. by destruct (ascii_dec a a).
Qed.

Lemma slice7_Bearer rest : slice7 ("Bearer " +:+ rest) = rest.
Proof.
  unfold slice7.
  change (String.substring 0 (String.length rest - 0) rest = rest).
  rewrite Nat.sub_0_r. apply substring_0_length.
Qed.

Lemma getBearerToken_Some authHeader token :
  getBearerToken authHeader = Some token
  ↔ ∃ rest, js_String (js_or authHeader (JStr "")) = "Bearer " +:+ rest
            ∧ token = trim rest.
Proof.
  unfold getBearerToken, startsWith. split.
  - destruct (String.prefix _ _) eqn:Hp; simpl; [|done].
    intros [= <-]. apply prefix_split in Hp.
    exists (slice7 (js_String (js_or authHeader (JStr "")))).
    split; [exact Hp|done].
  - intros (rest & -> & ->).
    by rewrite prefix_app, slice7_Bearer.
Qed.

(** X25. [authMiddleware] lets a request through exactly when the
    authorization header, read as a string, is [Bearer ] followed by a
    token that is not blank and that [verifyToken] accepts after
    trimming, and it then hands on the [sub], [name] and [email] of the
    verified payload; [verifyToken] is never tried on a blank token, and
    the token extracted by [getBearerToken] is always trimmed. *)
Theorem authMiddleware_passes_iff verifyToken authorization auth :
  (authMiddleware verifyToken authorization = inr auth
   ↔ ∃ rest payload,
       js_String (js_or authorization (JStr "")) = "Bearer " +:+ rest
       ∧ trim rest ≠ ""
       ∧ verifyToken (trim rest) = Some payload
       ∧ auth = {| auth_userId := p_sub payload;
                   auth_name := p_name payload;
                   auth_email := p_email payload |})
  ∧ (authMiddleware verifyToken authorization = inl TokenInvalid ->
     ∃ token, getBearerToken authorization = Some token
              ∧ token ≠ "" ∧ verifyToken token = None)
  ∧ (∀ token, getBearerToken authorization = Some token -> trim token = token).
Proof.
  split; [|split].
  - unfold authMiddleware. split.
    + destruct (getBearerToken authorization) as [token|] eqn:Htok; [|done].
      apply getBearerToken_Some in Htok as (rest & Hrest & ->).
      case_bool_decide as Hblank; [done|].
      destruct (verifyToken (trim rest)) as [payload|] eqn:Hv; [|done].
      intros [= <-]. by exists rest, payload.
    + intros (rest & payload & Hrest & Hblank & Hv & ->).
      rewrite (proj2 (getBearerToken_Some authorization (trim rest)))
        by (by exists rest).
      rewrite bool_decide_eq_false_2 by done. by rewrite Hv.
  - unfold authMiddleware.
    destruct (getBearerToken authorization) as [token|]; [|done].
    case_bool_decide as Hblank; [done|].
    destruct (verifyToken token) eqn:Hv; [done|]. intros _. by exists token.
  - intros token (rest & _ & ->)%getBearerToken_Some. apply trim_idemp.
Qed.

(** An instance: a header with spaces after the token passes, and the
    route sees ann's id. *)
Lemma authMiddleware_passes_iff_witness :
  authMiddleware sampleVerifyToken (JStr "Bearer tok-1  ")
  = inr {| auth_userId := JStr "a1"; auth_name := JStr "ann";
           auth_email := JNull |}.
Proof.
  apply (proj2 (proj1 (authMiddleware_passes_iff sampleVerifyToken
                         (JStr "Bearer tok-1  ") _))).
  exists "tok-1  ",
    {| p_sub := JStr "a1"; p_name := JStr "ann"; p_email := JNull |}.
  split; [reflexivity|]. split; [vm_compute; discriminate|].
  split; [vm_compute; reflexivity|reflexivity].
Defined.
